(** * WebProxy: the request-forwarding engine of [src/MessageForwarder.cpp]

    A shallow embedding of [MessageForwarder]: the keep-alive connection
    pool, the upstream dialer [connectToServer], [buildForwardRequest],
    [sendErrorResponse] and the three handlers [forwardGet], [forwardPost]
    and [forwardConnect].

    Conventions of the embedding.
    - A [std::string] is a [string]; [std::string::npos] is [None].
    - A socket descriptor and every [ssize_t]/[int] result of a system call
      is a [Z]; a [size_t] is an [N] with its 64-bit wrap-around written out.
    - The process-wide map [keepAliveConnections] is a [gmap string Z].
    - What a handler does to the outside world is recorded as a trace of
      [Event]s, in program order.  What the outside world answers (the
      results of [recv], [send], [connect], [select]) is an argument of the
      handler.
    - Calls to the logger are left out: the logger is an external
      collaborator and writes to no socket and to no pool entry. *)

From Stdlib Require Import ZArith NArith Ascii String List Lia Bool DecimalString.
From Stdlib Require Decimal DecimalPos DecimalN.
From stdpp Require Import gmap strings list fin_maps.

Local Open Scope string_scope.
Local Open Scope Z_scope.

(** ** Strings as [std::string] uses them *)

Module Str.

(** [s.find(needle, pos)]: first index [>= pos] at which [needle] occurs. *)
Definition find (s needle : string) (pos : nat) : option nat :=
  String.index pos needle s.

(** [s.substr(pos, n)] for [pos <= s.size()]; [n] is clipped to the rest. *)
Definition substr (s : string) (pos n : nat) : string :=
  String.substring pos n s.

(** [s.substr(pos)], also what [s.substr(pos, npos - pos)] yields. *)
Definition substr_from (s : string) (pos : nat) : string :=
  String.substring pos (String.length s - pos) s.

Definition contains (s needle : string) : bool :=
  match find s needle 0 with Some _ => true | None => false end.

Definition empty (s : string) : bool :=
  match s with EmptyString => true | String _ _ => false end.

Definition size (s : string) : Z := Z.of_nat (String.length s).

End Str.

Definition CRLF : string := String "013" (String "010" EmptyString).
Definition CRLFCRLF : string := CRLF ++ CRLF.

(** ** Effects *)

(** One entry per externally visible action of the engine. *)
Inductive Event : Type :=
  | EvClose (fd : Z)
  | EvSend (fd : Z) (data : string)
  | EvPeek (fd : Z)
  | EvGetaddrinfo (host port : string)
  | EvSocket (fd : Z)
  | EvConnect (fd : Z)
  | EvSetNonblocking (fd : Z)
  | EvRestoreFlags (fd : Z).

(** The state the engine acts on: the pool and the actions so far.  The
    member [keepAliveConnections] is declared in the header file, which is
    not among the sources; the code uses it as a map from the key
    ["host:port"] to one descriptor ([find], [operator[]], [erase]). *)
Record World : Type := mkWorld {
  keepAliveConnections : gmap string Z;
  trace : list Event
}.

Definition emit (e : Event) (w : World) : World :=
  mkWorld (keepAliveConnections w) (trace w ++ [e]).

Definition sys_close (fd : Z) (w : World) : World := emit (EvClose fd) w.

(** ** The connection pool (lines 272-300) *)

Definition pool_key (host port : string) : string := host ++ ":" ++ port.

(** [getKeepAliveConnection]: [find] the key, return the mapped socket or
    [-1].  The map is not written. *)
Definition getKeepAliveConnection (host port : string) (w : World) : Z * World :=
  let key := pool_key host port in
  match keepAliveConnections w !! key with
  | Some fd => (fd, w)
  | None => (-1, w)
  end.

(** [saveKeepAliveConnection]: close a socket already stored under the key,
    then [keepAliveConnections[key] = socket]. *)
Definition saveKeepAliveConnection (host port : string) (socket : Z) (w : World) : World :=
  let key := pool_key host port in
  let w1 :=
    match keepAliveConnections w !! key with
    | Some old => sys_close old w
    | None => w
    end in
  mkWorld (<[key := socket]> (keepAliveConnections w1)) (trace w1).

(** [removeKeepAliveConnection]: [erase(key)], nothing is closed. *)
Definition removeKeepAliveConnection (host port : string) (w : World) : World :=
  let key := pool_key host port in
  mkWorld (delete key (keepAliveConnections w)) (trace w).

(** ** The upstream dialer (lines 174-248) *)

Inductive Errno : Type :=
  | EAGAIN          (* also EWOULDBLOCK *)
  | EINPROGRESS
  | EINTR
  | ECONNRESET
  | ECONNREFUSED
  | EBADF
  | EPIPE.

Definition Errno_eqb (a b : Errno) : bool :=
  match a, b with
  | EAGAIN, EAGAIN | EINPROGRESS, EINPROGRESS | EINTR, EINTR
  | ECONNRESET, ECONNRESET | ECONNREFUSED, ECONNREFUSED
  | EBADF, EBADF | EPIPE, EPIPE => true
  | _, _ => false
  end.

(** What the operating system answers during one [connectToServer]: the
    return value of each call the function may make ([errno] is read only
    after a negative return). *)
Record DialEnv : Type := mkDialEnv {
  peek_ret : Z;            (* recv(existing, &test, 1, MSG_PEEK | MSG_DONTWAIT) *)
  peek_errno : Errno;
  getaddrinfo_ret : Z;
  socket_ret : Z;
  connect_ret : Z;
  connect_errno : Errno;
  select_ret : Z;          (* select on writability, 5 s timeout *)
  so_error : Z             (* getsockopt(SO_ERROR) *)
}.

(** Lines 188-247: resolve, create the socket, connect with the timeout. *)
Definition freshConnect (host port : string) (env : DialEnv) (w : World) : Z * World :=
  let w := emit (EvGetaddrinfo host port) w in
  if negb (getaddrinfo_ret env =? 0) then (-1, w) else
  let sockfd := socket_ret env in
  if sockfd <? 0 then (-1, w) else
  let w := emit (EvSocket sockfd) w in
  let w := emit (EvSetNonblocking sockfd) w in
  let w := emit (EvConnect sockfd) w in
  let finish w := (sockfd, emit (EvRestoreFlags sockfd) w) in
  if connect_ret env <? 0 then
    if Errno_eqb (connect_errno env) EINPROGRESS then
      if select_ret env =? 1 then
        if negb (so_error env =? 0) then (-1, sys_close sockfd w)
        else finish w
      else (-1, sys_close sockfd w)
    else (-1, sys_close sockfd w)
  else finish w.

Definition connectToServer (host port : string) (env : DialEnv) (w : World) : Z * World :=
  let '(existingSocket, w) := getKeepAliveConnection host port w in
  if 0 <? existingSocket then
    let w := emit (EvPeek existingSocket) w in
    if peek_ret env =? 0 then
      let w := sys_close existingSocket w in
      let w := removeKeepAliveConnection host port w in
      freshConnect host port env w
    else (existingSocket, w)
  else freshConnect host port env w.

(** ** Error responses (lines 253-267) *)

(** [std::to_string(int)] and [operator<<(int)]: decimal, [-] when negative. *)
Definition to_string (z : Z) : string := NilZero.string_of_int (Z.to_int z).

(** The bytes [sendErrorResponse] assembles in its [stringstream]. *)
Definition errorResponse (statusCode : Z) (statusText : string) : string :=
  let head :=
    "HTTP/1.1 " ++ to_string statusCode ++ " " ++ statusText ++ CRLF
    ++ "Content-Type: text/html" ++ CRLF
    ++ "Connection: close" ++ CRLF in
  let body :=
    "<html><body><h1>" ++ to_string statusCode ++ " " ++ statusText
    ++ "</h1></body></html>" in
  head ++ "Content-Length: " ++ to_string (Str.size body) ++ CRLF
  ++ CRLF
  ++ body.

(** The result of the final [send] is not inspected. *)
Definition sendErrorResponse (clientSocket statusCode : Z) (statusText : string)
    (w : World) : World :=
  emit (EvSend clientSocket (errorResponse statusCode statusText)) w.

(** ** Requests *)

(** Modelled from the spec: the declaration of [HttpRequest] (the header that
    declares it is not among the sources).  The fields are the ones the
    engine reads; [headers] lists the entries of the header map in the order
    in which the map is iterated. *)
Record HttpRequest : Type := mkHttpRequest {
  method : string;
  request : string;
  version : string;
  host : string;
  port : string;
  headers : list (string * string);
  body : string;
  url : string
}.

(** [req.headers.find(name)]: the entry whose key is exactly [name]. *)
Fixpoint headers_find (hs : list (string * string)) (name : string) : option string :=
  match hs with
  | [] => None
  | (k, v) :: hs' => if String.eqb k name then Some v else headers_find hs' name
  end.

(** *** [strcasecmp] on [c_str()] *)

Definition NUL : ascii := "000"%char.

(** [s.c_str()] as a C string: the bytes before the first NUL. *)
Fixpoint c_str (s : string) : string :=
  match s with
  | EmptyString => EmptyString
  | String c s' => if Ascii.eqb c NUL then EmptyString else String c (c_str s')
  end.

(** [tolower] in the C locale, on the byte as an [unsigned char]. *)
Definition tolower (c : ascii) : Z :=
  let n := Z.of_N (N_of_ascii c) in
  if (65 <=? n) && (n <=? 90) then n + 32 else n.

(** Byte-wise comparison of two C strings after [tolower]; the sign of the
    first difference, [0] when they agree up to the terminating NUL. *)
Fixpoint strcasecmp_c (a b : string) : Z :=
  match a, b with
  | EmptyString, EmptyString => 0
  | EmptyString, String y _ => 0 - tolower y
  | String x _, EmptyString => tolower x
  | String x a', String y b' =>
      if tolower x =? tolower y then strcasecmp_c a' b' else tolower x - tolower y
  end.

Definition strcasecmp (a b : string) : Z := strcasecmp_c (c_str a) (c_str b).

(** ** [buildForwardRequest] (lines 140-169) *)

(** The condition of the [continue] at lines 149-157. *)
Definition is_hop_by_hop (name : string) : bool :=
  (strcasecmp name "Connection" =? 0)
  || (strcasecmp name "Keep-Alive" =? 0)
  || (strcasecmp name "Proxy-Connection" =? 0)
  || (strcasecmp name "Proxy-Authorization" =? 0)
  || (strcasecmp name "TE" =? 0)
  || (strcasecmp name "Trailer" =? 0)
  || (strcasecmp name "Transfer-Encoding" =? 0)
  || (strcasecmp name "Upgrade" =? 0).

(** The loop over [req.headers]; [ss] is the stream written so far. *)
Fixpoint emit_headers (hs : list (string * string)) (ss : string) : string :=
  match hs with
  | [] => ss
  | (name, value) :: hs' =>
      if is_hop_by_hop name then emit_headers hs' ss
      else emit_headers hs' (ss ++ name ++ ": " ++ value ++ CRLF)
  end.

Definition buildForwardRequest (req : HttpRequest) : string :=
  let ss := method req ++ " " ++ request req ++ " " ++ version req ++ CRLF in
  let ss := emit_headers (headers req) ss in
  let ss := ss ++ "Connection: keep-alive" ++ CRLF in
  ss ++ CRLF.

(** ** [std::stoul] *)

(** The exceptions [std::stoul] throws. *)
Inductive Exception : Type :=
  | invalid_argument
  | out_of_range.

Inductive Stoul : Type :=
  | StoulValue (v : N)
  | StoulThrows (e : Exception).

Definition ULONG_MAX : N := 18446744073709551615%N.

(** [isspace] in the C locale. *)
Definition isspace (c : ascii) : bool :=
  let n := N_of_ascii c in
  (n =? 32)%N || ((9 <=? n)%N && (n <=? 13)%N).

Definition digit_value (c : ascii) : option N :=
  let n := N_of_ascii c in
  if ((48 <=? n) && (n <=? 57))%N then Some (n - 48)%N else None.

Fixpoint skip_spaces (s : string) : string :=
  match s with
  | String c s' => if isspace c then skip_spaces s' else s
  | EmptyString => s
  end.

(** The value of the longest prefix of decimal digits, after [acc]. *)
Fixpoint digits_value (s : string) (acc : N) : N :=
  match s with
  | String c s' =>
      match digit_value c with
      | Some d => digits_value s' (acc * 10 + d)%N
      | None => acc
      end
  | EmptyString => acc
  end.

(** [std::stoul(s)] with the default base 10 and a 64-bit [unsigned long],
    as the C++ standard defines it through [strtoul]: leading white space is
    skipped, one sign is accepted, the longest run of digits is converted
    and what follows is ignored; no digit at all throws [invalid_argument],
    a magnitude above [ULONG_MAX] throws [out_of_range], and a minus sign
    negates the magnitude in [unsigned long]. *)
Definition stoul (s : string) : Stoul :=
  let s1 := skip_spaces s in
  let '(negative, s2) :=
    match s1 with
    | String "-" r => (true, r)
    | String "+" r => (false, r)
    | _ => (false, s1)
    end in
  match s2 with
  | EmptyString => StoulThrows invalid_argument
  | String c _ =>
      match digit_value c with
      | None => StoulThrows invalid_argument
      | Some _ =>
          let v := digits_value s2 0 in
          if (ULONG_MAX <? v)%N then StoulThrows out_of_range
          else StoulValue (if negative then ((2 ^ 64 - v) mod 2 ^ 64)%N else v)
      end
  end.

(** ** The response loop (lines 50-121 of [forwardGet], 416-481 of
       [forwardPost]: the two loops are the same statement for statement) *)

(** What one [recv] returns: the bytes stored in the buffer, none of them at
    end of stream, or an error.  The buffer has [BUFFER_SIZE] bytes, a
    constant of the header file that bounds the length of [data]; the
    embedding leaves that length open. *)
Inductive RecvResult : Type :=
  | RecvData (data : string)
  | RecvError (e : Errno).

Definition RecvEOF : RecvResult := RecvData EmptyString.

(** The [ssize_t] that [recv] returns. *)
Definition bytesRead_of (r : RecvResult) : Z :=
  match r with
  | RecvData data => Str.size data
  | RecvError _ => -1
  end.

(** The local variables of the loop. [clientSends] counts the [send] calls
    on the client socket; it indexes the results the environment gives. *)
Record ResponseState : Type := mkResponseState {
  responseHeaders : string;
  headersComplete : bool;
  keepAliveServer : bool;
  contentLength : N;
  receivedBodyBytes : N;
  chunkedEncoding : bool;
  clientSends : nat
}.

Definition initialResponseState : ResponseState :=
  mkResponseState EmptyString false false 0%N 0%N false 0%nat.

(** The five [break] statements of the loop, by line in [forwardGet]. *)
Inductive Break : Type :=
  | BreakSendHeadersFailed   (* line 90 *)
  | BreakBodyComplete        (* line 96 *)
  | BreakSendBodyFailed      (* line 103 *)
  | BreakContentLength       (* line 110 *)
  | BreakChunkTerminator.    (* line 117 *)

Inductive StepResult : Type :=
  | StepContinue (st : ResponseState) (w : World)
  | StepBreak (b : Break) (st : ResponseState) (w : World)
  | StepThrow (e : Exception) (w : World).

Definition size_add (a b : N) : N := ((a + b) mod 2 ^ 64)%N.

Definition chunkTerminator : string := "0" ++ CRLFCRLF.

(** Lines 70-77: the value of the first ["Content-Length: "] of the header
    section, or the value the variable had. *)
Definition parseContentLength (headerSection : string) (current : N) : Stoul :=
  match Str.find headerSection "Content-Length: " 0 with
  | None => StoulValue current
  | Some contentLengthPos =>
      let valueStart := (contentLengthPos + 16)%nat in
      let lengthStr :=
        match Str.find headerSection CRLF valueStart with
        | Some valueEnd => Str.substr headerSection valueStart (valueEnd - valueStart)
        | None => Str.substr_from headerSection valueStart
        end in
      stoul lengthStr
  end.

(** The body of the loop for one successful [recv] of [data]. *)
Definition responseStep (clientSocket : Z) (client_send_ret : nat -> Z)
    (data : string) (st : ResponseState) (w : World) : StepResult :=
  if negb (headersComplete st) then
    let responseHeaders' := responseHeaders st ++ data in
    match Str.find responseHeaders' CRLFCRLF 0 with
    | None =>
        StepContinue
          (mkResponseState responseHeaders' false (keepAliveServer st)
             (contentLength st) (receivedBodyBytes st) (chunkedEncoding st)
             (clientSends st)) w
    | Some headerEnd =>
        let headerSection := Str.substr responseHeaders' 0 headerEnd in
        let keepAliveServer' :=
          if Str.contains headerSection "Connection: keep-alive" then true
          else keepAliveServer st in
        match parseContentLength headerSection (contentLength st) with
        | StoulThrows e => StepThrow e w
        | StoulValue contentLength' =>
            let chunkedEncoding' :=
              if Str.contains headerSection "Transfer-Encoding: chunked" then true
              else chunkedEncoding st in
            let receivedBodyBytes' :=
              N.of_nat (String.length responseHeaders' - (headerEnd + 4)) in
            let w := emit (EvSend clientSocket responseHeaders') w in
            let st' :=
              mkResponseState responseHeaders' true keepAliveServer'
                contentLength' receivedBodyBytes' chunkedEncoding'
                (S (clientSends st)) in
            if client_send_ret (clientSends st) <? 0 then
              StepBreak BreakSendHeadersFailed st' w
            else if ((0 <? contentLength') && (contentLength' <=? receivedBodyBytes'))%N
                    || ((contentLength' =? 0)%N && negb chunkedEncoding') then
              StepBreak BreakBodyComplete st' w
            else StepContinue st' w
        end
    end
  else
    let w := emit (EvSend clientSocket data) w in
    let sent :=
      mkResponseState (responseHeaders st) true (keepAliveServer st)
        (contentLength st) (receivedBodyBytes st) (chunkedEncoding st)
        (S (clientSends st)) in
    if client_send_ret (clientSends st) <? 0 then
      StepBreak BreakSendBodyFailed sent w
    else
      let receivedBodyBytes' :=
        size_add (receivedBodyBytes st) (N.of_nat (String.length data)) in
      let st' :=
        mkResponseState (responseHeaders st) true (keepAliveServer st)
          (contentLength st) receivedBodyBytes' (chunkedEncoding st)
          (S (clientSends st)) in
      if ((0 <? contentLength st) && (contentLength st <=? receivedBodyBytes'))%N then
        StepBreak BreakContentLength st' w
      else if chunkedEncoding st && Str.contains data chunkTerminator then
        StepBreak BreakChunkTerminator st' w
      else StepContinue st' w.

(** How the loop was left. *)
Inductive LoopExit : Type :=
  | ByBreak (b : Break)
  | ByRecv (bytesRead : Z).   (* the loop condition failed: [bytesRead <= 0] *)

(** The loop over the successive results of [recv] on the upstream socket.
    [LoopPending]: every given result is consumed and the handler is
    inside the next [recv]. *)
Inductive LoopResult : Type :=
  | LoopDone (how : LoopExit) (st : ResponseState) (w : World) (unread : list RecvResult)
  | LoopThrew (e : Exception) (w : World)
  | LoopPending (st : ResponseState) (w : World).

Fixpoint responseLoop (clientSocket : Z) (client_send_ret : nat -> Z)
    (reads : list RecvResult) (st : ResponseState) (w : World) : LoopResult :=
  match reads with
  | [] => LoopPending st w
  | r :: rest =>
      match r with
      | RecvError _ => LoopDone (ByRecv (bytesRead_of r)) st w rest
      | RecvData data =>
          if 0 <? bytesRead_of r then
            match responseStep clientSocket client_send_ret data st w with
            | StepContinue st' w' => responseLoop clientSocket client_send_ret rest st' w'
            | StepBreak b st' w' => LoopDone (ByBreak b) st' w' rest
            | StepThrow e w' => LoopThrew e w'
            end
          else LoopDone (ByRecv (bytesRead_of r)) st w rest
      end
  end.

(** ** The handlers *)

(** How a call of a handler ends: it returns, an exception leaves it, or
    it is still waiting inside a system call when the given answers of the
    environment are used up. *)
Inductive Outcome : Type :=
  | Returned
  | Threw (e : Exception)
  | Blocked.

(** Lines 123-134 and 483-494: after the loop. *)
Definition finishExchange (host port : string) (serverSocket : Z)
    (st : ResponseState) (w : World) : World :=
  if negb (keepAliveServer st) then sys_close serverSocket w
  else saveKeepAliveConnection host port serverSocket w.

(** Lines 29-136 of [forwardGet] and 395-496 of [forwardPost]: stream the
    response to the client, then pool or close the upstream socket.  The
    flag [keepAliveClient] that both handlers compute from the request is
    never read and is left out. *)
Definition forwardResponse (host port : string) (serverSocket clientSocket : Z)
    (client_send_ret : nat -> Z) (server_reads : list RecvResult)
    (w : World) : Outcome * World :=
  match responseLoop clientSocket client_send_ret server_reads
          initialResponseState w with
  | LoopDone _ st w _ => (Returned, finishExchange host port serverSocket st w)
  | LoopThrew e w => (Threw e, w)
  | LoopPending _ w => (Blocked, w)
  end.

(** Where a handler stands once its request part is over: the request is
    on its way upstream on [serverSocket], or the handler is over. *)
Inductive RequestPhase : Type :=
  | RequestSent (serverSocket : Z) (port : string) (w : World)
  | RequestOver (o : Outcome) (w : World).

(** *** [forwardGet] (lines 9-137) *)

Record GetEnv : Type := mkGetEnv {
  get_dial : DialEnv;
  get_send_request_ret : Z;          (* send of the request on the upstream *)
  get_server_reads : list RecvResult;
  get_client_send_ret : nat -> Z
}.

(** Lines 13-27. *)
Definition getRequest (req : HttpRequest) (clientSocket : Z) (env : GetEnv)
    (w : World) : RequestPhase :=
  let '(serverSocket, w) := connectToServer (host req) (port req) (get_dial env) w in
  if serverSocket <? 0 then
    RequestOver Returned (sendErrorResponse clientSocket 502 "Bad Gateway" w)
  else
    let requestToSend := buildForwardRequest req in
    let w := emit (EvSend serverSocket requestToSend) w in
    if get_send_request_ret env <? 0 then
      let w := sys_close serverSocket w in
      RequestOver Returned (sendErrorResponse clientSocket 500 "Internal Server Error" w)
    else RequestSent serverSocket (port req) w.

Definition forwardGet (req : HttpRequest) (clientSocket : Z) (env : GetEnv)
    (w : World) : Outcome * World :=
  match getRequest req clientSocket env w with
  | RequestOver o w => (o, w)
  | RequestSent serverSocket port w =>
      forwardResponse (host req) port serverSocket clientSocket
        (get_client_send_ret env) (get_server_reads env) w
  end.

(** *** [forwardPost] (lines 302-497) *)

Record PostEnv : Type := mkPostEnv {
  post_dial : DialEnv;
  post_send_request_ret : Z;          (* send of request and body upstream *)
  post_client_reads : list RecvResult;  (* the rest of a chunked request body *)
  post_server_send_ret : nat -> Z;    (* forwarding those chunks upstream *)
  post_server_reads : list RecvResult;
  post_client_send_ret : nat -> Z
}.

(** Lines 365-392: read the rest of a chunked body from the client and pass
    it on, until a read shows the terminator. *)
Inductive ChunkResult : Type :=
  | ChunkComplete (w : World)
  | ChunkReturn (w : World)      (* the handler has returned from inside the loop *)
  | ChunkPending (w : World).

Fixpoint forwardRequestChunks (serverSocket : Z) (server_send_ret : nat -> Z)
    (k : nat) (reads : list RecvResult) (w : World) : ChunkResult :=
  match reads with
  | [] => ChunkPending w
  | r :: rest =>
      if bytesRead_of r <=? 0 then ChunkReturn (sys_close serverSocket w)
      else
        match r with
        | RecvError _ => ChunkReturn (sys_close serverSocket w)
        | RecvData chunk =>
            let w := emit (EvSend serverSocket chunk) w in
            if server_send_ret k <? 0 then ChunkReturn (sys_close serverSocket w)
            else if Str.contains chunk chunkTerminator then ChunkComplete w
            else forwardRequestChunks serverSocket server_send_ret (S k) rest w
        end
  end.

(** Line 306: the port [forwardPost] dials. *)
Definition postPort (req : HttpRequest) : string :=
  if Str.empty (port req) then "80" else port req.

(** Lines 305-393. *)
Definition postRequest (req : HttpRequest) (clientSocket : Z) (env : PostEnv)
    (w : World) : RequestPhase :=
  let port := postPort req in
  let '(serverSocket, w) := connectToServer (host req) port (post_dial env) w in
  if serverSocket <? 0 then
    RequestOver Returned (sendErrorResponse clientSocket 502 "Bad Gateway" w)
  else
    let badRequest w :=
      let w := sys_close serverSocket w in
      RequestOver Returned (sendErrorResponse clientSocket 400 "Bad Request" w) in
    match
      match headers_find (headers req) "Content-Length" with
      | Some value => stoul value
      | None => StoulValue 0%N
      end
    with
    | StoulThrows _ => badRequest w
    | StoulValue contentLength =>
        let chunkedEncoding :=
          match headers_find (headers req) "Transfer-Encoding" with
          | Some value => Str.contains value "chunked"
          | None => false
          end in
        if (contentLength =? 0)%N && negb chunkedEncoding && negb (Str.empty (body req)) then
          badRequest w
        else
          let requestToSend := buildForwardRequest req ++ body req in
          let w := emit (EvSend serverSocket requestToSend) w in
          if post_send_request_ret env <? 0 then
            let w := sys_close serverSocket w in
            RequestOver Returned
              (sendErrorResponse clientSocket 500 "Internal Server Error" w)
          else if chunkedEncoding && negb (Str.contains (body req) chunkTerminator) then
            match forwardRequestChunks serverSocket (post_server_send_ret env) 0%nat
                    (post_client_reads env) w with
            | ChunkComplete w => RequestSent serverSocket port w
            | ChunkReturn w => RequestOver Returned w
            | ChunkPending w => RequestOver Blocked w
            end
          else RequestSent serverSocket port w
    end.

Definition forwardPost (req : HttpRequest) (clientSocket : Z) (env : PostEnv)
    (w : World) : Outcome * World :=
  match postRequest req clientSocket env w with
  | RequestOver o w => (o, w)
  | RequestSent serverSocket port w =>
      forwardResponse (host req) port serverSocket clientSocket
        (post_client_send_ret env) (post_server_reads env) w
  end.

(** *** [forwardConnect] (lines 499-678) *)

(** One pass of an inner write loop (lines 582-610): the result of [send]
    and, after [EAGAIN], of the [select] that waits for writability. *)
Record SendStep : Type := mkSendStep {
  step_send_ret : Z;
  step_send_errno : Errno;
  step_select_ret : Z
}.

(** A socket that [select] reported readable: what [recv] returns on it and
    what the write loop towards the other side meets. *)
Record Readable : Type := mkReadable {
  ready_recv : RecvResult;
  ready_sends : list SendStep
}.

(** One pass of the tunnel loop: the result of [select] and the sockets it
    left in [readFds]. *)
Record Round : Type := mkRound {
  activity : Z;
  select_errno : Errno;
  client_ready : option Readable;
  server_ready : option Readable
}.

Record ConnectEnv : Type := mkConnectEnv {
  connect_dial : DialEnv;
  connect_send_established_ret : Z;
  connect_rounds : list Round
}.

Inductive WriteResult : Type :=
  | WriteDone (w : World)         (* everything written, [tunnelActive] still set *)
  | WriteInactive (w : World)     (* [tunnelActive = false; break] *)
  | WritePending (w : World).

(** [while (totalBytesSent < bytesRead)], lines 582-610 and 637-665. *)
Fixpoint writeAll (dst : Z) (buffer : string) (bytesRead totalBytesSent : Z)
    (steps : list SendStep) (w : World) : WriteResult :=
  if totalBytesSent <? bytesRead then
    match steps with
    | [] => WritePending w
    | s :: steps' =>
        let chunk :=
          Str.substr buffer (Z.to_nat totalBytesSent) (Z.to_nat (bytesRead - totalBytesSent)) in
        let w := emit (EvSend dst chunk) w in
        let bytesSent := step_send_ret s in
        if bytesSent <=? 0 then
          if (bytesSent <? 0) && Errno_eqb (step_send_errno s) EAGAIN then
            if step_select_ret s <=? 0 then WriteInactive w
            else writeAll dst buffer bytesRead totalBytesSent steps' w
          else WriteInactive w
        else writeAll dst buffer bytesRead (totalBytesSent + bytesSent) steps' w
    end
  else WriteDone w.

(** One of the two [if (FD_ISSET(...))] blocks of the tunnel loop. *)
Inductive PumpResult : Type :=
  | PumpNext (w : World)        (* fall through to the statement after the block *)
  | PumpContinue (w : World)    (* [continue] of the tunnel loop *)
  | PumpBreak (w : World)       (* [break] of the tunnel loop *)
  | PumpPending (w : World).

Definition pump (dst : Z) (ready : option Readable) (w : World) : PumpResult :=
  match ready with
  | None => PumpNext w
  | Some rd =>
      let bytesRead := bytesRead_of (ready_recv rd) in
      if bytesRead <=? 0 then
        match ready_recv rd with
        | RecvError e => if Errno_eqb e EAGAIN then PumpContinue w else PumpBreak w
        | RecvData _ => PumpBreak w
        end
      else
        match ready_recv rd with
        | RecvError _ => PumpBreak w
        | RecvData buffer =>
            match writeAll dst buffer bytesRead 0 (ready_sends rd) w with
            | WriteDone w => PumpNext w
            | WriteInactive w => PumpBreak w
            | WritePending w => PumpPending w
            end
        end
  end.

Inductive TunnelResult : Type :=
  | TunnelLeft (w : World)
  | TunnelPending (w : World).

(** [while (tunnelActive)], lines 535-671. *)
Fixpoint tunnelLoop (clientSocket serverSocket : Z) (rounds : list Round)
    (w : World) : TunnelResult :=
  match rounds with
  | [] => TunnelPending w
  | r :: rest =>
      if activity r <? 0 then
        if Errno_eqb (select_errno r) EINTR then
          tunnelLoop clientSocket serverSocket rest w
        else TunnelLeft w
      else if activity r =? 0 then tunnelLoop clientSocket serverSocket rest w
      else
        match pump serverSocket (client_ready r) w with
        | PumpNext w =>
            match pump clientSocket (server_ready r) w with
            | PumpNext w => tunnelLoop clientSocket serverSocket rest w
            | PumpContinue w => tunnelLoop clientSocket serverSocket rest w
            | PumpBreak w => TunnelLeft w
            | PumpPending w => TunnelPending w
            end
        | PumpContinue w => tunnelLoop clientSocket serverSocket rest w
        | PumpBreak w => TunnelLeft w
        | PumpPending w => TunnelPending w
        end
  end.

Definition connectionEstablished : string :=
  "HTTP/1.1 200 Connection Established" ++ CRLF
  ++ "Proxy-Agent: MyProxy/1.0" ++ CRLF
  ++ CRLF.

Definition forwardConnect (req : HttpRequest) (clientSocket : Z) (env : ConnectEnv)
    (w : World) : Outcome * World :=
  let '(serverSocket, w) := connectToServer (host req) (port req) (connect_dial env) w in
  if serverSocket <? 0 then
    (Returned, sendErrorResponse clientSocket 502 "Bad Gateway" w)
  else
    let w := emit (EvSend clientSocket connectionEstablished) w in
    if connect_send_established_ret env <? 0 then
      (Returned, sys_close serverSocket w)
    else
      let w := emit (EvSetNonblocking clientSocket) w in
      let w := emit (EvSetNonblocking serverSocket) w in
      match tunnelLoop clientSocket serverSocket (connect_rounds env) w with
      | TunnelLeft w => (Returned, sys_close serverSocket w)
      | TunnelPending w => (Blocked, w)
      end.

(** ** What the specification says, in its own words *)

(** The literal error response of a failed dial, with the value the
    [Content-Length] header is said to carry left open. *)
Definition badGatewayResponse (contentLength : string) : string :=
  "HTTP/1.1 502 Bad Gateway" ++ CRLF
  ++ "Content-Type: text/html" ++ CRLF
  ++ "Connection: close" ++ CRLF
  ++ "Content-Length: " ++ contentLength ++ CRLF
  ++ CRLF
  ++ "<html><body><h1>502 Bad Gateway</h1></body></html>".

Definition badRequestResponse : string :=
  "HTTP/1.1 400 Bad Request" ++ CRLF
  ++ "Content-Type: text/html" ++ CRLF
  ++ "Connection: close" ++ CRLF
  ++ "Content-Length: 50" ++ CRLF
  ++ CRLF
  ++ "<html><body><h1>400 Bad Request</h1></body></html>".

(** Malformed request framing of a POST: a [Content-Length] that does not
    parse, or a body with neither a non-zero [Content-Length] nor a chunked
    [Transfer-Encoding]. *)
Definition UnparsableContentLength (req : HttpRequest) : Prop :=
  exists value e,
    headers_find (headers req) "Content-Length" = Some value
    /\ stoul value = StoulThrows e.

Definition BodyWithoutFraming (req : HttpRequest) : Prop :=
  (headers_find (headers req) "Content-Length" = None
   \/ exists value, headers_find (headers req) "Content-Length" = Some value
                    /\ stoul value = StoulValue 0%N)
  /\ (headers_find (headers req) "Transfer-Encoding" = None
      \/ exists value, headers_find (headers req) "Transfer-Encoding" = Some value
                       /\ Str.contains value "chunked" = false)
  /\ body req <> EmptyString.

(** *** The forwarded request, read back

    A reader of the bytes [buildForwardRequest] returns: lines end at
    CRLF, the first line is the request line, every following line up to the
    first empty one is a header [name: value], and what follows the empty
    line is the body. *)

Definition CR : ascii := "013"%char.
Definition LF : ascii := "010"%char.

(** The pieces of [s] between its CRLFs; never an empty list. *)
Fixpoint splitLines (s : string) : list string :=
  match s with
  | EmptyString => [EmptyString]
  | String c s' =>
      let keep :=
        match splitLines s' with
        | l :: ls => String c l :: ls
        | [] => [String c EmptyString]
        end in
      match s' with
      | String d s'' =>
          if Ascii.eqb c CR && Ascii.eqb d LF then EmptyString :: splitLines s''
          else keep
      | EmptyString => keep
      end
  end.

(** [s] cut at its first colon. *)
Fixpoint splitColon (s : string) : option (string * string) :=
  match s with
  | EmptyString => None
  | String c s' =>
      if Ascii.eqb c ":" then Some (EmptyString, s')
      else
        match splitColon s' with
        | Some (name, value) => Some (String c name, value)
        | None => None
        end
  end.

Definition parseHeaderLine (line : string) : option (string * string) :=
  match splitColon line with
  | Some (name, String " " value) => Some (name, value)
  | _ => None
  end.

(** The headers up to the empty line, and the lines after it. *)
Fixpoint parseHeaderLines (ls : list string) : option (list (string * string) * list string) :=
  match ls with
  | [] => None
  | EmptyString :: rest => Some ([], rest)
  | line :: rest =>
      match parseHeaderLine line, parseHeaderLines rest with
      | Some h, Some (hs, after) => Some (h :: hs, after)
      | _, _ => None
      end
  end.

Record RequestHead : Type := mkRequestHead {
  head_line : string;
  head_headers : list (string * string);
  head_after : list string      (* the lines after the empty line *)
}.

Definition parseRequestHead (s : string) : option RequestHead :=
  match splitLines s with
  | line :: ls =>
      match parseHeaderLines ls with
      | Some (hs, after) => Some (mkRequestHead line hs after)
      | None => None
      end
  | [] => None
  end.

(** Header names compared without regard to case. *)
Fixpoint lowered (s : string) : list Z :=
  match s with
  | EmptyString => []
  | String c s' => tolower c :: lowered s'
  end.

Definition sameName (a b : string) : bool :=
  bool_decide (lowered a = lowered b).

Definition hopByHopHeaders : list string :=
  [ "Connection"; "Keep-Alive"; "Proxy-Connection"; "Proxy-Authorization";
    "TE"; "Trailer"; "Transfer-Encoding"; "Upgrade" ].

Definition hopByHop (name : string) : bool :=
  existsb (sameName name) hopByHopHeaders.

Fixpoint occurs (c : ascii) (s : string) : bool :=
  match s with
  | EmptyString => false
  | String d s' => Ascii.eqb c d || occurs c s'
  end.

(** What the request parser guarantees ("headers are well-formed"): no
    field contains a line feed, and a header name contains neither a colon
    nor a NUL. *)
Definition wellFormedHeader (h : string * string) : bool :=
  negb (occurs LF (fst h)) && negb (occurs ":" (fst h)) && negb (occurs NUL (fst h))
  && negb (occurs LF (snd h)).

Definition wellFormedRequest (req : HttpRequest) : bool :=
  negb (occurs LF (method req)) && negb (occurs LF (request req))
  && negb (occurs LF (version req))
  && forallb wellFormedHeader (headers req).

(** One header as it stands on the wire, without its CRLF. *)
Definition headerLine (h : string * string) : string :=
  fst h ++ ": " ++ snd h.

(** The headers of the request that are not hop-by-hop. *)
Definition endToEndHeaders (req : HttpRequest) : list (string * string) :=
  List.filter (fun h => negb (hopByHop (fst h))) (headers req).

(** *** The response, as a stream *)

(** The bytes the upstream delivers, up to its first end of stream or error. *)
Fixpoint receivedStream (reads : list RecvResult) : string :=
  match reads with
  | RecvData data :: rest =>
      if Str.empty data then EmptyString else data ++ receivedStream rest
  | _ => EmptyString
  end.

(** The header block: what precedes the first empty line of the stream. *)
Definition headerBlock (stream : string) : option string :=
  match Str.find stream CRLFCRLF 0 with
  | Some headerEnd => Some (Str.substr stream 0 headerEnd)
  | None => None
  end.

(** "Upstream advertised [Connection: keep-alive]". *)
Definition advertisedKeepAlive (reads : list RecvResult) : bool :=
  match headerBlock (receivedStream reads) with
  | Some block => Str.contains block "Connection: keep-alive"
  | None => false
  end.

Fixpoint concatData (chunks : list string) : string :=
  match chunks with
  | [] => EmptyString
  | c :: cs => c ++ concatData cs
  end.

(** *** Traces *)

(** Does [evs] close descriptor [fd]? *)
Definition closesSocket (fd : Z) (evs : list Event) : bool :=
  existsb (fun e => match e with EvClose fd' => fd' =? fd | _ => false end) evs.

(** What was handed to [send] on descriptor [fd], in order. *)
Fixpoint sentOn (fd : Z) (evs : list Event) : list string :=
  match evs with
  | [] => []
  | EvSend fd' data :: evs' =>
      if fd' =? fd then data :: sentOn fd evs' else sentOn fd evs'
  | _ :: evs' => sentOn fd evs'
  end.

(** [evs] is what happened between [w] and [w']. *)
Definition eventsBetween (w w' : World) (evs : list Event) : Prop :=
  trace w' = (trace w ++ evs)%list.

(** [evs] holds no [close]. *)
Definition noClose (evs : list Event) : bool :=
  forallb (fun e => match e with EvClose _ => false | _ => true end) evs.

(** Between [w] and [w'] nothing was closed. *)
Definition quiet (w w' : World) : Prop :=
  exists evs, eventsBetween w w' evs /\ noClose evs = true.

(** The world in which a part of the tunnel leaves off. *)
Definition writeWorld (r : WriteResult) : World :=
  match r with WriteDone w | WriteInactive w | WritePending w => w end.

Definition pumpWorld (r : PumpResult) : World :=
  match r with PumpNext w | PumpContinue w | PumpBreak w | PumpPending w => w end.

Definition tunnelWorld (r : TunnelResult) : World :=
  match r with TunnelLeft w | TunnelPending w => w end.

(** ** Sample inputs *)

Module Sample.

Definition world0 : World := mkWorld ∅ [].

(** A pool that holds descriptor 7 for [example.com:80]. *)
Definition pooled : World := mkWorld {[ "example.com:80" := 7 ]} [].

(** A fresh connection succeeds at once on descriptor 5. *)
Definition dialFresh : DialEnv := mkDialEnv 0 EAGAIN 0 5 0 EAGAIN 0 0.

(** The resolver fails. *)
Definition dialUnresolved : DialEnv := mkDialEnv 0 EAGAIN (-2) 5 0 EAGAIN 0 0.

(** The peek on the pooled socket fails with [ECONNRESET]. *)
Definition dialPeekReset : DialEnv := mkDialEnv (-1) ECONNRESET 0 5 0 EAGAIN 0 0.

Definition getExample : HttpRequest :=
  mkHttpRequest "GET" "http://example.com/x" "HTTP/1.1" "example.com" "80"
    [("Host", "example.com"); ("Connection", "keep-alive")] ""
    "http://example.com/x".

Definition postBadLength : HttpRequest :=
  mkHttpRequest "POST" "http://example.com/x" "HTTP/1.1" "example.com" ""
    [("Host", "example.com"); ("Content-Length", "not-a-number")] "a=1"
    "http://example.com/x".

Definition connectExample : HttpRequest :=
  mkHttpRequest "CONNECT" "example.com:443" "HTTP/1.1" "example.com" "443"
    [] "" "example.com:443".

Definition sendsSucceed : nat -> Z := fun _ => 1.

(** A tunnel: the client sends 5 bytes, which go upstream in two writes
    with an [EAGAIN] in between; an idle timeout; a [select] interrupted by
    a signal; then the upstream closes. *)
Definition tunnelRounds : list Round :=
  [ mkRound 1 EINTR
      (Some (mkReadable (RecvData "hello")
               [mkSendStep 2 EAGAIN 0; mkSendStep (-1) EAGAIN 1; mkSendStep 3 EAGAIN 0]))
      None;
    mkRound 0 EINTR None None;
    mkRound (-1) EINTR None None;
    mkRound 1 EINTR None (Some (mkReadable RecvEOF [])) ].

Definition getEnv (reads : list RecvResult) : GetEnv :=
  mkGetEnv dialFresh 1 reads sendsSucceed.

Definition postExample : HttpRequest :=
  mkHttpRequest "POST" "http://example.com/x" "HTTP/1.1" "example.com" ""
    [("Host", "example.com"); ("Content-Length", "3")] "a=1"
    "http://example.com/x".

Definition postEnv (reads : list RecvResult) : PostEnv :=
  mkPostEnv dialFresh 1 [] sendsSucceed reads sendsSucceed.

(** The world in which the response loop of [forwardGet getExample] starts. *)
Definition requestSent : World :=
  emit (EvSend 5 (buildForwardRequest getExample))
    (snd (connectToServer "example.com" "80" dialFresh world0)).

(** A chunked response, whole in one read (scenario S3). *)
Definition chunkedResponse : string :=
  "HTTP/1.1 200 OK" ++ CRLF
  ++ "Transfer-Encoding: chunked" ++ CRLF
  ++ CRLF
  ++ "5" ++ CRLF ++ "hello" ++ CRLF
  ++ "0" ++ CRLF ++ CRLF.

(** A response head with neither length nor chunked framing. *)
Definition unframedHead : string := "HTTP/1.1 200 OK" ++ CRLF ++ CRLF.

(** A response whose [Content-Length] is not a number. *)
Definition badLengthResponse : string :=
  "HTTP/1.1 200 OK" ++ CRLF ++ "Content-Length: abc" ++ CRLF ++ CRLF.

(** A keep-alive response of which 3 of 10 body bytes arrive. *)
Definition partialResponse : string :=
  "HTTP/1.1 200 OK" ++ CRLF
  ++ "Connection: keep-alive" ++ CRLF
  ++ "Content-Length: 10" ++ CRLF
  ++ CRLF
  ++ "abc".

End Sample.

Module Sample2.

(** A response with a body of 10 bytes that arrives in three reads. *)
Definition lengthHead : string :=
  "HTTP/1.1 200 OK" ++ CRLF ++ "Content-Length: 10" ++ CRLF ++ CRLF ++ "abc".

Definition lengthReads : list RecvResult :=
  [RecvData lengthHead; RecvData "defg"; RecvData "hij"; RecvData "next"].

(** The same response, whole in one read. *)
Definition lengthWhole : string := lengthHead ++ "defghij".

(** A tunnel in which nothing happens. *)
Definition idleRounds : list Round :=
  [mkRound 0 EAGAIN None None; mkRound (-1) EINTR None None;
   mkRound 0 EAGAIN None None].

(** A request body of two chunks and the terminator, read in three pieces. *)
Definition chunkPieces : list string :=
  ["5" ++ CRLF ++ "hello" ++ CRLF; "3" ++ CRLF ++ "abc" ++ CRLF].

Definition lastChunk : string := "0" ++ CRLF ++ CRLF.

(** A header block with a [Content-Length] between other headers. *)
Definition lengthBlock : string :=
  ("HTTP/1.1 200 OK" ++ CRLF ++ "Server: x" ++ CRLF)
  ++ "Content-Length: " ++ to_string (Z.of_N 1234) ++ (CRLF ++ "Connection: close").

(** A POST with a negative [Content-Length]. *)
Definition postNegativeLength : HttpRequest :=
  mkHttpRequest "POST" "http://example.com/x" "HTTP/1.1" "example.com" ""
    [("Host", "example.com"); ("Content-Length", String "-" (to_string (Z.of_N 1)))]
    "a=1" "http://example.com/x".

(** A head that stops short of its empty line. *)
Definition cutHead : string := "HTTP/1.1 200 OK" ++ CRLF ++ "Content-Le".

End Sample2.

(** A descriptor number that comes back: two GETs of a client on
    descriptor 4 to [example.com:80], then a CONNECT to the same authority
    from a client whose connection was accepted on descriptor 5. *)
Module Reissued.

Definition keepAliveResponse : string :=
  "HTTP/1.1 200 OK" ++ CRLF
  ++ "Connection: keep-alive" ++ CRLF
  ++ "Content-Length: 2" ++ CRLF
  ++ CRLF
  ++ "ok".

(** The peek on the pooled descriptor finds nothing to read: [-1] with
    [EAGAIN]. *)
Definition dialPooled : DialEnv := mkDialEnv (-1) EAGAIN 0 6 0 EAGAIN 0 0.

Definition firstGet : Outcome * World :=
  forwardGet Sample.getExample 4 (Sample.getEnv [RecvData keepAliveResponse])
    Sample.world0.

Definition secondGet : Outcome * World :=
  forwardGet Sample.getExample 4
    (mkGetEnv dialPooled 1 [RecvData keepAliveResponse] Sample.sendsSucceed)
    (snd firstGet).

Definition connectPlain : HttpRequest :=
  mkHttpRequest "CONNECT" "example.com:80" "HTTP/1.1" "example.com" "80"
    [] "" "example.com:80".

(** The descriptor on which the connection of the CONNECT client was
    accepted. *)
Definition clientSocket : Z := 5.

(** The client sends nothing and closes. *)
Definition clientLeaves : list Round :=
  [mkRound 1 EINTR (Some (mkReadable RecvEOF [])) None].

Definition tunnel : Outcome * World :=
  forwardConnect connectPlain clientSocket (mkConnectEnv dialPooled 1 clientLeaves)
    (snd secondGet).

End Reissued.

(** ** Notions for the properties of the whole file *)

(** [w] after the events [evs]; the pool is the one of [w]. *)
Definition emits (evs : list Event) (w : World) : World :=
  mkWorld (keepAliveConnections w) (trace w ++ evs).

(** The bytes a read delivers. *)
Definition dataOf (r : RecvResult) : string :=
  match r with
  | RecvData data => data
  | RecvError _ => EmptyString
  end.

(** The bytes a sequence of reads delivers, in order. *)
Fixpoint streamOf (reads : list RecvResult) : string :=
  match reads with
  | [] => EmptyString
  | r :: rest => dataOf r ++ streamOf rest
  end.

(** The literal 500 response. *)
Definition internalServerErrorResponse : string :=
  "HTTP/1.1 500 Internal Server Error" ++ CRLF
  ++ "Content-Type: text/html" ++ CRLF
  ++ "Connection: close" ++ CRLF
  ++ "Content-Length: 60" ++ CRLF
  ++ CRLF
  ++ "<html><body><h1>500 Internal Server Error</h1></body></html>".

(** A pass of the tunnel loop in which [select] reports a timeout or is
    interrupted by a signal. *)
Definition idleRound (r : Round) : bool :=
  (activity r =? 0) || ((activity r <? 0) && Errno_eqb (select_errno r) EINTR).

(** The offsets at which successive writes start when the first starts at
    [from] and the writes accept [counts] bytes one after the other. *)
Fixpoint startOffsets (from : Z) (counts : list Z) : list Z :=
  match counts with
  | [] => []
  | n :: counts' => from :: startOffsets (from + n) counts'
  end.

(** The bytes of [buffer] those writes accept. *)
Fixpoint acceptedBytes (buffer : string) (from : Z) (counts : list Z) : string :=
  match counts with
  | [] => EmptyString
  | n :: counts' =>
      Str.substr buffer (Z.to_nat from) (Z.to_nat n)
      ++ acceptedBytes buffer (from + n) counts'
  end.

Fixpoint sumZ (l : list Z) : Z :=
  match l with
  | [] => 0
  | n :: l' => n + sumZ l'
  end.

Fixpoint totalLength (chunks : list string) : N :=
  match chunks with
  | [] => 0%N
  | c :: cs => (N.of_nat (String.length c) + totalLength cs)%N
  end.

(** Does the dialer find a pooled socket that its peek shows closed? *)
Definition pooledSocketStale (host port : string) (env : DialEnv) (w : World) : bool :=
  match keepAliveConnections w !! pool_key host port with
  | Some fd => (0 <? fd) && (peek_ret env =? 0)
  | None => false
  end.

(** How what the response loop passed to [send] on the client socket
    ([payloads]) relates to the reads it consumed: once the header block is
    complete, the same bytes in the same order, counting the bytes held
    back in [responseHeaders]; nothing before. *)
Definition forwarded (st st' : ResponseState) (consumed : list RecvResult)
    (payloads : list string) : Prop :=
  if headersComplete st then
    headersComplete st' = true /\ concatData payloads = streamOf consumed
  else if headersComplete st' then
    concatData payloads = responseHeaders st ++ streamOf consumed
  else
    payloads = [] /\ responseHeaders st' = responseHeaders st ++ streamOf consumed.

(** [w'] is [w] after events none of which is a [close]; the pool is the
    same. *)
Definition silent (w w' : World) : Prop :=
  exists evs, w' = emits evs w /\ noClose evs = true.

(** How a handler leaves the descriptor [fd] that its dial took from the
    pool of [w]: the pool is as in [w], and [fd] has been closed exactly
    when the handler has returned. *)
Definition reusedSocketFate (fd : Z) (w : World) (result : Outcome * World) : Prop :=
  exists evs,
    snd result = emits evs w
    /\ closesSocket fd evs
       = match fst result with Returned => true | _ => false end.

(** Does the request say chunked (line 331-335)? *)
Definition requestChunked (req : HttpRequest) : bool :=
  match headers_find (headers req) "Transfer-Encoding" with
  | Some value => Str.contains value "chunked"
  | None => false
  end.

(** Request framing that [forwardPost] lets through: a [Content-Length]
    that converts, or none, and then a non-zero length, or chunked, or no
    body. *)
Definition FramingAccepted (req : HttpRequest) : Prop :=
  exists n : N,
    match headers_find (headers req) "Content-Length" with
    | Some value => stoul value = StoulValue n
    | None => n = 0%N
    end
    /\ (n <> 0%N \/ requestChunked req = true \/ body req = EmptyString).

(** Does [s] start with a decimal digit? *)
Definition digitAhead (s : string) : bool :=
  match s with
  | String c _ => match digit_value c with Some _ => true | None => false end
  | EmptyString => false
  end.

(** What [std::stoul] makes of the decimal numeral of [n]. *)
Definition stoulOf (n : N) : Stoul :=
  if (ULONG_MAX <? n)%N then StoulThrows out_of_range else StoulValue n.

(** * Properties *)

(** ** The connection pool *)

(** C1, as the specification states it, fails: with descriptor 7 pooled for
    [example.com:80], a [get] returns 7 and the [get] that follows at once
    returns 7 again, not absence ([-1]). *)
Lemma getKeepAliveConnection_second_get_counterexample :
  fst (getKeepAliveConnection "example.com" "80" Sample.pooled) = 7
  /\ fst (getKeepAliveConnection "example.com" "80"
            (snd (getKeepAliveConnection "example.com" "80" Sample.pooled))) = 7
  /\ 7 <> -1.
Proof. vm_compute. repeat split; discriminate. Qed.

(** C1 (amended): for every key present in the pool, [get] returns the
    stored socket and leaves the pool as it was, so that a second [get] for
    the key returns the same socket; absence is reported only once the
    entry has been erased by [remove]. *)
Theorem getKeepAliveConnection_keeps_entry (host port : string) (w : World) (s : Z) :
  keepAliveConnections w !! pool_key host port = Some s ->
  getKeepAliveConnection host port w = (s, w)
  /\ getKeepAliveConnection host port (snd (getKeepAliveConnection host port w)) = (s, w)
  /\ fst (getKeepAliveConnection host port (removeKeepAliveConnection host port w)) = -1.
Proof.
  intros Hs.
  assert (Hget : getKeepAliveConnection host port w = (s, w)).
  { unfold getKeepAliveConnection. now rewrite Hs. }
  split; [exact Hget|]. split.
  - rewrite Hget. exact Hget.
  - unfold getKeepAliveConnection, removeKeepAliveConnection. cbn.
    now rewrite lookup_delete_eq.
Qed.

Lemma getKeepAliveConnection_keeps_entry_witness :
  getKeepAliveConnection "example.com" "80" Sample.pooled = (7, Sample.pooled)
  /\ getKeepAliveConnection "example.com" "80"
       (snd (getKeepAliveConnection "example.com" "80" Sample.pooled))
     = (7, Sample.pooled)
  /\ fst (getKeepAliveConnection "example.com" "80"
            (removeKeepAliveConnection "example.com" "80" Sample.pooled)) = -1.
Proof.
  apply (getKeepAliveConnection_keeps_entry "example.com" "80" Sample.pooled 7).
  vm_compute. reflexivity.
Defined.

(** ** The dialer *)

(** A peek that returns [0] closes the pooled socket, erases the entry and
    dials afresh. *)
Lemma connectToServer_peek_closed (host port : string) (env : DialEnv) (w : World) (fd : Z) :
  keepAliveConnections w !! pool_key host port = Some fd ->
  0 < fd ->
  peek_ret env = 0 ->
  connectToServer host port env w
  = freshConnect host port env
      (removeKeepAliveConnection host port (sys_close fd (emit (EvPeek fd) w))).
Proof.
  intros Hfd Hpos Hpeek. unfold connectToServer, getKeepAliveConnection.
  rewrite Hfd. cbn zeta.
  assert (Hlt : (0 <? fd) = true) by (apply Z.ltb_lt; lia).
  rewrite Hlt, Hpeek. reflexivity.
Qed.

(** Any other result of the peek, whatever [errno] says, returns the pooled
    socket: it is neither closed nor erased, and nothing is dialled. *)
Lemma connectToServer_peek_nonzero (host port : string) (env : DialEnv) (w : World) (fd : Z) :
  keepAliveConnections w !! pool_key host port = Some fd ->
  0 < fd ->
  peek_ret env <> 0 ->
  connectToServer host port env w = (fd, emit (EvPeek fd) w).
Proof.
  intros Hfd Hpos Hpeek. unfold connectToServer, getKeepAliveConnection.
  rewrite Hfd. cbn zeta.
  assert (Hlt : (0 <? fd) = true) by (apply Z.ltb_lt; lia).
  assert (Hne : (peek_ret env =? 0) = false) by (apply Z.eqb_neq; exact Hpeek).
  rewrite Hlt, Hne. reflexivity.
Qed.

(** C5: the code at a peek that fails with [ECONNRESET].  Descriptor 7 is
    pooled for [example.com:80] and the peek returns [-1]: the dialer
    returns 7 as live; 7 is not closed, the entry stays in the pool and no
    fresh dial starts. *)
Theorem connectToServer_peek_error_returns_pooled :
  peek_ret Sample.dialPeekReset = -1
  /\ peek_errno Sample.dialPeekReset = ECONNRESET
  /\ fst (connectToServer "example.com" "80" Sample.dialPeekReset Sample.pooled) = 7
  /\ trace (snd (connectToServer "example.com" "80" Sample.dialPeekReset Sample.pooled))
     = [EvPeek 7]
  /\ keepAliveConnections
       (snd (connectToServer "example.com" "80" Sample.dialPeekReset Sample.pooled))
     !! "example.com:80" = Some 7.
Proof. vm_compute. repeat split; reflexivity. Qed.

(** ** Error responses *)

Lemma errorResponse_bad_gateway :
  errorResponse 502 "Bad Gateway" = badGatewayResponse "50".
Proof. vm_compute. reflexivity. Qed.

Lemma errorResponse_bad_request :
  errorResponse 400 "Bad Request" = badRequestResponse.
Proof. vm_compute. reflexivity. Qed.

(** C9, as the specification states it, fails: when the resolver fails, the
    one thing [forwardGet] writes to the client (descriptor 3) is the error
    response with [Content-Length: 50]; the body has 50 bytes, not 53. *)
Lemma dial_failure_content_length_counterexample :
  fst (connectToServer "example.com" "80" Sample.dialUnresolved Sample.world0) < 0
  /\ trace (snd (forwardGet Sample.getExample 3
                   (mkGetEnv Sample.dialUnresolved 1 [] Sample.sendsSucceed)
                   Sample.world0))
     = [EvGetaddrinfo "example.com" "80"; EvSend 3 (badGatewayResponse "50")]
  /\ badGatewayResponse "50" <> badGatewayResponse "53"
  /\ String.length "<html><body><h1>502 Bad Gateway</h1></body></html>" = 50%nat.
Proof. vm_compute. repeat split; try reflexivity; discriminate. Qed.

(** C9 (amended): for every request for which the dial fails, each of the
    three handlers returns after writing to the client exactly the literal
    502 response: status line, [Content-Type: text/html],
    [Connection: close], [Content-Length: 50], an empty line and the HTML
    body; nothing else happens after the dial. *)
Theorem dial_failure_sends_bad_gateway (req : HttpRequest) (clientSocket : Z) (w : World) :
  (forall env : GetEnv,
      fst (connectToServer (host req) (port req) (get_dial env) w) < 0 ->
      forwardGet req clientSocket env w
      = (Returned,
         emit (EvSend clientSocket (badGatewayResponse "50"))
           (snd (connectToServer (host req) (port req) (get_dial env) w))))
  /\ (forall env : PostEnv,
      fst (connectToServer (host req) (postPort req) (post_dial env) w) < 0 ->
      forwardPost req clientSocket env w
      = (Returned,
         emit (EvSend clientSocket (badGatewayResponse "50"))
           (snd (connectToServer (host req) (postPort req) (post_dial env) w))))
  /\ (forall env : ConnectEnv,
      fst (connectToServer (host req) (port req) (connect_dial env) w) < 0 ->
      forwardConnect req clientSocket env w
      = (Returned,
         emit (EvSend clientSocket (badGatewayResponse "50"))
           (snd (connectToServer (host req) (port req) (connect_dial env) w)))).
Proof.
  repeat split; intros env Hneg.
  - unfold forwardGet, getRequest.
    destruct (connectToServer _ _ _ _) as [fd w1]. cbn in Hneg |- *.
    apply Z.ltb_lt in Hneg. rewrite Hneg.
    unfold sendErrorResponse. now rewrite errorResponse_bad_gateway.
  - unfold forwardPost, postRequest.
    destruct (connectToServer _ _ _ _) as [fd w1]. cbn in Hneg |- *.
    apply Z.ltb_lt in Hneg. rewrite Hneg.
    unfold sendErrorResponse. now rewrite errorResponse_bad_gateway.
  - unfold forwardConnect.
    destruct (connectToServer _ _ _ _) as [fd w1]. cbn in Hneg |- *.
    apply Z.ltb_lt in Hneg. rewrite Hneg.
    unfold sendErrorResponse. now rewrite errorResponse_bad_gateway.
Qed.

Lemma dial_failure_sends_bad_gateway_witness :
  forwardGet Sample.getExample 3
    (mkGetEnv Sample.dialUnresolved 1 [] Sample.sendsSucceed) Sample.world0
  = (Returned,
     emit (EvSend 3 (badGatewayResponse "50"))
       (snd (connectToServer "example.com" "80" Sample.dialUnresolved Sample.world0)))
  /\ forwardConnect Sample.connectExample 3
       (mkConnectEnv Sample.dialUnresolved 1 []) Sample.world0
     = (Returned,
        emit (EvSend 3 (badGatewayResponse "50"))
          (snd (connectToServer "example.com" "443" Sample.dialUnresolved Sample.world0))).
Proof.
  split.
  - apply (proj1 (dial_failure_sends_bad_gateway Sample.getExample 3 Sample.world0)
             (mkGetEnv Sample.dialUnresolved 1 [] Sample.sendsSucceed)).
    vm_compute. reflexivity.
  - apply (proj2 (proj2 (dial_failure_sends_bad_gateway Sample.connectExample 3 Sample.world0))
             (mkConnectEnv Sample.dialUnresolved 1 [])).
    vm_compute. reflexivity.
Defined.

(** ** [forwardPost]: malformed request framing *)

(** C6, as the specification states it, fails: for a POST whose
    [Content-Length] is [not-a-number], the handler dials first.  When the
    dial succeeds (descriptor 5) the connection is made and then closed
    before the 400 goes to the client (descriptor 3); when the resolver
    fails the client gets the 502 and no 400. *)
Lemma forwardPost_dials_before_validating_counterexample :
  UnparsableContentLength Sample.postBadLength
  /\ trace (snd (forwardPost Sample.postBadLength 3
                   (mkPostEnv Sample.dialFresh 1 [] Sample.sendsSucceed []
                      Sample.sendsSucceed)
                   Sample.world0))
     = [ EvGetaddrinfo "example.com" "80"; EvSocket 5; EvSetNonblocking 5;
         EvConnect 5; EvRestoreFlags 5; EvClose 5; EvSend 3 badRequestResponse ]
  /\ trace (snd (forwardPost Sample.postBadLength 3
                   (mkPostEnv Sample.dialUnresolved 1 [] Sample.sendsSucceed []
                      Sample.sendsSucceed)
                   Sample.world0))
     = [ EvGetaddrinfo "example.com" "80"; EvSend 3 (badGatewayResponse "50") ].
Proof.
  split.
  - exists "not-a-number", invalid_argument. split; vm_compute; reflexivity.
  - split; vm_compute; reflexivity.
Qed.

(** C6 (amended): for every POST request whose headers contain neither a
    non-zero [Content-Length] nor a chunked [Transfer-Encoding] while the
    body is non-empty, and for every POST request whose [Content-Length]
    does not parse, the handler dials the upstream first; if the dial fails
    it emits 502, otherwise it closes the dialled socket, emits
    [400 Bad Request] and returns, and nothing is written upstream. *)
Theorem forwardPost_malformed_framing (req : HttpRequest) (clientSocket : Z)
    (env : PostEnv) (w : World) :
  UnparsableContentLength req \/ BodyWithoutFraming req ->
  forwardPost req clientSocket env w
  = let '(serverSocket, w1) :=
      connectToServer (host req) (postPort req) (post_dial env) w in
    if serverSocket <? 0 then
      (Returned, emit (EvSend clientSocket (badGatewayResponse "50")) w1)
    else
      (Returned, emit (EvSend clientSocket badRequestResponse) (sys_close serverSocket w1)).
Proof.
  intros Hbad. unfold forwardPost, postRequest.
  destruct (connectToServer _ _ _ _) as [fd w1].
  unfold sendErrorResponse.
  rewrite errorResponse_bad_gateway, errorResponse_bad_request.
  destruct (fd <? 0); [reflexivity|].
  destruct Hbad as [(value & e & Hfind & Hthrow) | (Hlen & Hte & Hbody)].
  - rewrite Hfind, Hthrow. reflexivity.
  - assert (Hnonempty : Str.empty (body req) = false).
    { destruct (body req); [congruence | reflexivity]. }
    assert (Hchunked :
      match headers_find (headers req) "Transfer-Encoding" with
      | Some value => Str.contains value "chunked"
      | None => false
      end = false).
    { destruct Hte as [-> | (value & -> & Hc)]; [reflexivity | exact Hc]. }
    rewrite Hchunked, Hnonempty.
    destruct Hlen as [-> | (value & -> & ->)]; reflexivity.
Qed.

Lemma forwardPost_malformed_framing_witness :
  forwardPost Sample.postBadLength 3
    (mkPostEnv Sample.dialFresh 1 [] Sample.sendsSucceed [] Sample.sendsSucceed)
    Sample.world0
  = let '(serverSocket, w1) :=
      connectToServer "example.com" "80" Sample.dialFresh Sample.world0 in
    if serverSocket <? 0 then
      (Returned, emit (EvSend 3 (badGatewayResponse "50")) w1)
    else
      (Returned, emit (EvSend 3 badRequestResponse) (sys_close serverSocket w1)).
Proof.
  apply (forwardPost_malformed_framing Sample.postBadLength 3
           (mkPostEnv Sample.dialFresh 1 [] Sample.sendsSucceed [] Sample.sendsSucceed)
           Sample.world0).
  left. exists "not-a-number", invalid_argument.
  split; vm_compute; reflexivity.
Defined.

(** ** Strings: searching in a growing buffer *)

Section StringFacts.

Local Transparent String.prefix.

Lemma append_cons (c : ascii) (a b : string) : String c a ++ b = String c (a ++ b).
Proof. reflexivity. Qed.

Lemma append_nil_r (a : string) : a ++ EmptyString = a.
Proof. induction a as [|c a IH]; [reflexivity|]. rewrite append_cons. now f_equal. Qed.

Lemma append_assoc (a b c : string) : (a ++ b) ++ c = a ++ (b ++ c).
Proof.
  induction a as [|x a IH]; [reflexivity|].
  rewrite !append_cons. now f_equal.
Qed.

Lemma length_append (a b : string) :
  String.length (a ++ b) = (String.length a + String.length b)%nat.
Proof.
  induction a as [|x a IH]; [reflexivity|].
  rewrite append_cons. cbn. now rewrite IH.
Qed.

Lemma prefix_length (n a : string) :
  String.prefix n a = true -> (String.length n <= String.length a)%nat.
Proof.
  revert a. induction n as [|x n IH]; intros a H; cbn; [lia|].
  destruct a as [|y a]; cbn in H; [discriminate|].
  destruct (ascii_dec x y); [|discriminate].
  apply IH in H. cbn. lia.
Qed.

Lemma prefix_append (n a b : string) :
  String.prefix n a = true -> String.prefix n (a ++ b) = true.
Proof.
  revert a. induction n as [|x n IH]; intros a H.
  - now destruct (a ++ b).
  - destruct a as [|y a]; cbn in H; [discriminate|].
    rewrite append_cons. cbn.
    destruct (ascii_dec x y); [|discriminate]. now apply IH.
Qed.

Lemma prefix_append_inv (n a b : string) :
  String.prefix n (a ++ b) = true ->
  (String.length n <= String.length a)%nat ->
  String.prefix n a = true.
Proof.
  revert a. induction n as [|x n IH]; intros a H Hlen.
  - now destruct a.
  - destruct a as [|y a]; cbn in Hlen; [lia|].
    rewrite append_cons in H. cbn in H |- *.
    destruct (ascii_dec x y); [|discriminate].
    apply IH; [exact H | lia].
Qed.

Lemma index_nil (needle : string) :
  String.index 0 needle EmptyString
  = match needle with EmptyString => Some 0%nat | String _ _ => None end.
Proof. reflexivity. Qed.

Lemma index_cons (needle : string) (c : ascii) (s : string) :
  String.index 0 needle (String c s)
  = if String.prefix needle (String c s) then Some 0%nat
    else match String.index 0 needle s with
         | Some k => Some (S k)
         | None => None
         end.
Proof. reflexivity. Qed.

Lemma find_bound (s needle : string) (e : nat) :
  Str.find s needle 0 = Some e ->
  (e + String.length needle <= String.length s)%nat.
Proof.
  unfold Str.find. revert e.
  induction s as [|c s IH]; intros e H.
  - rewrite index_nil in H. destruct needle; [|discriminate].
    injection H as <-. cbn. lia.
  - rewrite index_cons in H.
    destruct (String.prefix needle (String c s)) eqn:Hp.
    + injection H as <-. apply prefix_length in Hp. lia.
    + destruct (String.index 0 needle s) as [e'|] eqn:He; [|discriminate].
      injection H as <-. specialize (IH e' eq_refl). cbn. lia.
Qed.

(** Appending to the buffer does not move a match that was found. *)
Lemma find_append_some (s t needle : string) (e : nat) :
  Str.find s needle 0 = Some e -> Str.find (s ++ t) needle 0 = Some e.
Proof.
  unfold Str.find. revert e.
  induction s as [|c s IH]; intros e H.
  - rewrite index_nil in H. destruct needle; [|discriminate]. injection H as <-.
    change (EmptyString ++ t) with t. now destruct t.
  - pose proof (find_bound (String c s) needle e H) as Hb.
    rewrite append_cons, index_cons. rewrite index_cons in H.
    destruct (String.prefix needle (String c s)) eqn:Hp.
    + apply (prefix_append _ _ t) in Hp. rewrite append_cons in Hp.
      now rewrite Hp.
    + destruct (String.index 0 needle s) as [e'|] eqn:He; [|discriminate].
      injection H as <-.
      destruct (String.prefix needle (String c (s ++ t))) eqn:Hp'.
      * rewrite <- append_cons in Hp'. apply prefix_append_inv in Hp'.
        -- congruence.
        -- cbn in Hb |- *. lia.
      * now rewrite (IH e' eq_refl).
Qed.

(** A buffer that shows no match had none before it grew. *)
Lemma find_append_none (s t needle : string) :
  Str.find (s ++ t) needle 0 = None -> Str.find s needle 0 = None.
Proof.
  destruct (Str.find s needle 0) as [e|] eqn:He; [|reflexivity].
  intros H. apply (find_append_some _ t) in He. congruence.
Qed.

Lemma substr_append (s t : string) (n : nat) :
  (n <= String.length s)%nat -> Str.substr (s ++ t) 0 n = Str.substr s 0 n.
Proof.
  unfold Str.substr. revert s.
  induction n as [|n IH]; intros s Hn.
  - destruct s as [|c s]; [now destruct t | reflexivity].
  - destruct s as [|c s]; cbn in Hn; [lia|].
    rewrite append_cons. cbn. f_equal. apply IH. lia.
Qed.

Lemma empty_false (s : string) : Str.empty s = false <-> (0 < Str.size s).
Proof. unfold Str.size. destruct s; cbn; split; intros; try lia; congruence. Qed.

End StringFacts.

(** ** The response loop *)

(** Reads that the loop consumes without leaving can be followed by more. *)
Lemma responseLoop_app (clientSocket : Z) (sr : nat -> Z) (pre rest : list RecvResult)
    (st st' : ResponseState) (w w' : World) :
  responseLoop clientSocket sr pre st w = LoopPending st' w' ->
  responseLoop clientSocket sr (pre ++ rest)%list st w
  = responseLoop clientSocket sr rest st' w'.
Proof.
  revert st w. induction pre as [|r pre IH]; intros st w H.
  - cbn in H. injection H as <- <-. reflexivity.
  - change ((r :: pre) ++ rest)%list with (r :: (pre ++ rest))%list.
    cbn [responseLoop] in H |- *.
    destruct r as [data|e]; [|discriminate].
    destruct (0 <? bytesRead_of (RecvData data)); [|discriminate].
    destruct (responseStep clientSocket sr data st w) as [st1 w1|b st1 w1|ex w1];
      try discriminate.
    now apply IH.
Qed.

(** A failing read ends a loop that was still running. *)
Lemma responseLoop_read_error (clientSocket : Z) (sr : nat -> Z)
    (pre rest : list RecvResult) (e : Errno) (st st' : ResponseState) (w w' : World) :
  responseLoop clientSocket sr pre st w = LoopPending st' w' ->
  responseLoop clientSocket sr (pre ++ RecvError e :: rest)%list st w
  = LoopDone (ByRecv (-1)) st' w' rest.
Proof. intros H. now rewrite (responseLoop_app _ _ _ _ _ _ _ _ H). Qed.

(** Once the header block is complete the keep-alive decision stands. *)
Lemma responseStep_headers_complete (clientSocket : Z) (sr : nat -> Z) (data : string)
    (st : ResponseState) (w : World) :
  headersComplete st = true ->
  match responseStep clientSocket sr data st w with
  | StepContinue st' w' | StepBreak _ st' w' =>
      headersComplete st' = true
      /\ keepAliveServer st' = keepAliveServer st
      /\ w' = emit (EvSend clientSocket data) w
  | StepThrow _ _ => False
  end.
Proof.
  intros Hc. unfold responseStep. rewrite Hc. cbn [negb].
  destruct (sr (clientSends st) <? 0); [cbn; auto|].
  destruct (_ && _)%bool; [cbn; auto|].
  destruct (_ && _)%bool; cbn; auto.
Qed.

Lemma responseLoop_headers_complete (clientSocket : Z) (sr : nat -> Z)
    (reads : list RecvResult) (st : ResponseState) (w : World) :
  headersComplete st = true ->
  match responseLoop clientSocket sr reads st w with
  | LoopDone _ st' _ _ | LoopPending st' _ => keepAliveServer st' = keepAliveServer st
  | LoopThrew _ _ => False
  end.
Proof.
  revert st w. induction reads as [|r reads IH]; intros st w Hc; [reflexivity|].
  cbn [responseLoop]. destruct r as [data|e]; [|reflexivity].
  destruct (0 <? bytesRead_of (RecvData data)); [|reflexivity].
  pose proof (responseStep_headers_complete clientSocket sr data st w Hc) as Hs.
  destruct (responseStep clientSocket sr data st w) as [st1 w1|b st1 w1|ex w1].
  - destruct Hs as (Hc1 & Hk & _). specialize (IH st1 w1 Hc1).
    destruct (responseLoop clientSocket sr reads st1 w1); congruence.
  - now destruct Hs as (_ & Hk & _).
  - exact Hs.
Qed.

(** While the header block is incomplete, [keepAliveServer] is the answer
    to: does the header block of the stream still to be accumulated carry
    [Connection: keep-alive]? *)
Lemma responseLoop_keepAlive (clientSocket : Z) (sr : nat -> Z)
    (reads : list RecvResult) (st : ResponseState) (w : World) :
  headersComplete st = false ->
  keepAliveServer st = false ->
  Str.find (responseHeaders st) CRLFCRLF 0 = None ->
  match responseLoop clientSocket sr reads st w with
  | LoopDone _ st' _ _ | LoopPending st' _ =>
      keepAliveServer st'
      = match headerBlock (responseHeaders st ++ receivedStream reads) with
        | Some block => Str.contains block "Connection: keep-alive"
        | None => false
        end
  | LoopThrew _ _ => True
  end.
Proof.
  revert st w. induction reads as [|r reads IH]; intros st w Hc Hk Hnone.
  - cbn. unfold headerBlock. now rewrite append_nil_r, Hnone.
  - cbn [responseLoop receivedStream]. destruct r as [data|e].
    2:{ unfold headerBlock. now rewrite append_nil_r, Hnone. }
    destruct (Str.empty data) eqn:Hempty.
    { destruct data; [|discriminate]. cbn.
      unfold headerBlock. now rewrite append_nil_r, Hnone. }
    assert (Hpos : (0 <? bytesRead_of (RecvData data)) = true).
    { apply Z.ltb_lt. now apply empty_false. }
    rewrite Hpos. unfold responseStep. rewrite Hc. cbn [negb].
    rewrite <- append_assoc.
    destruct (Str.find (responseHeaders st ++ data) CRLFCRLF 0) as [headerEnd|] eqn:Hfind.
    + pose proof (find_bound _ _ _ Hfind) as Hb.
      unfold headerBlock.
      rewrite (find_append_some _ (receivedStream reads) _ _ Hfind).
      rewrite (substr_append (responseHeaders st ++ data) (receivedStream reads) headerEnd)
        by (clear - Hb; lia).
      set (block := Str.substr (responseHeaders st ++ data) 0 headerEnd).
      destruct (parseContentLength block (contentLength st)) as [len|ex]; [|exact I].
      rewrite Hk.
      assert (Hka : (if Str.contains block "Connection: keep-alive" then true else false)
                    = Str.contains block "Connection: keep-alive")
        by now destruct (Str.contains block "Connection: keep-alive").
      rewrite Hka.
      destruct (sr (clientSends st) <? 0); [reflexivity|].
      destruct (_ || _)%bool; [reflexivity|].
      match goal with
      | |- context [responseLoop _ _ _ ?st1 ?w1] =>
          pose proof (responseLoop_headers_complete clientSocket sr reads st1 w1 eq_refl) as Hdone
      end.
      cbn [keepAliveServer] in Hdone.
      match goal with
      | |- context [responseLoop ?a ?b ?c ?st1 ?w1] =>
          destruct (responseLoop a b c st1 w1)
      end; try exact I; exact Hdone.
    + match goal with
      | |- context [responseLoop ?a ?b ?c ?st1 ?w1] =>
          specialize (IH st1 w1 eq_refl Hk Hfind)
      end.
      exact IH.
Qed.

(** The loop sets [keepAliveServer] exactly when the upstream advertised
    [Connection: keep-alive] in its header block. *)
Lemma responseLoop_advertised (clientSocket : Z) (sr : nat -> Z)
    (reads : list RecvResult) (w : World) (how : LoopExit) (st : ResponseState)
    (w' : World) (unread : list RecvResult) :
  responseLoop clientSocket sr reads initialResponseState w = LoopDone how st w' unread ->
  keepAliveServer st = advertisedKeepAlive reads.
Proof.
  intros H.
  pose proof (responseLoop_keepAlive clientSocket sr reads initialResponseState w
                eq_refl eq_refl eq_refl) as Hk.
  rewrite H in Hk. exact Hk.
Qed.

(** ** After the response: pool or close *)

(** C4, as the specification states it, fails: the upstream (descriptor 5)
    answers with [Connection: keep-alive] and 3 of 10 body bytes, then the
    next read fails with [ECONNRESET].  The loop is left through that read,
    and the handler hands descriptor 5 to the pool without closing it. *)
Lemma read_error_socket_pooled_counterexample :
  let reads := [RecvData Sample.partialResponse; RecvError ECONNRESET] in
  let result := forwardGet Sample.getExample 3 (Sample.getEnv reads) Sample.world0 in
  (exists st w,
      responseLoop 3 Sample.sendsSucceed reads initialResponseState Sample.requestSent
      = LoopDone (ByRecv (-1)) st w [])
  /\ fst result = Returned
  /\ keepAliveConnections (snd result) !! "example.com:80" = Some 5
  /\ closesSocket 5 (trace (snd result)) = false.
Proof.
  cbv zeta. split.
  - eexists _, _. vm_compute. reflexivity.
  - vm_compute. repeat split; reflexivity.
Qed.

(** C4 (amended): for every GET/POST exchange whose response loop is left,
    through a final upstream read that returns an error (<0) as through any
    other exit, the handler returns and the upstream socket is handed to
    the pool if the upstream advertised [Connection: keep-alive] in a
    complete header block, and closed otherwise. *)
Theorem exchange_pools_when_keep_alive_advertised :
  (forall (req : HttpRequest) (clientSocket : Z) (env : GetEnv) (w : World)
          (serverSocket : Z) (port : string) (w1 : World)
          (how : LoopExit) (st : ResponseState) (w2 : World) (unread : list RecvResult),
      getRequest req clientSocket env w = RequestSent serverSocket port w1 ->
      responseLoop clientSocket (get_client_send_ret env) (get_server_reads env)
        initialResponseState w1 = LoopDone how st w2 unread ->
      forwardGet req clientSocket env w
      = (Returned,
         if advertisedKeepAlive (get_server_reads env)
         then saveKeepAliveConnection (host req) port serverSocket w2
         else sys_close serverSocket w2))
  /\ (forall (req : HttpRequest) (clientSocket : Z) (env : PostEnv) (w : World)
          (serverSocket : Z) (port : string) (w1 : World)
          (how : LoopExit) (st : ResponseState) (w2 : World) (unread : list RecvResult),
      postRequest req clientSocket env w = RequestSent serverSocket port w1 ->
      responseLoop clientSocket (post_client_send_ret env) (post_server_reads env)
        initialResponseState w1 = LoopDone how st w2 unread ->
      forwardPost req clientSocket env w
      = (Returned,
         if advertisedKeepAlive (post_server_reads env)
         then saveKeepAliveConnection (host req) port serverSocket w2
         else sys_close serverSocket w2)).
Proof.
  split; intros req clientSocket env w serverSocket port w1 how st w2 unread Hreq Hloop.
  - unfold forwardGet, forwardResponse. rewrite Hreq, Hloop.
    unfold finishExchange. rewrite (responseLoop_advertised _ _ _ _ _ _ _ _ Hloop).
    now destruct (advertisedKeepAlive (get_server_reads env)).
  - unfold forwardPost, forwardResponse. rewrite Hreq, Hloop.
    unfold finishExchange. rewrite (responseLoop_advertised _ _ _ _ _ _ _ _ Hloop).
    now destruct (advertisedKeepAlive (post_server_reads env)).
Qed.

Lemma exchange_pools_when_keep_alive_advertised_witness :
  let reads := [RecvData Sample.partialResponse; RecvError ECONNRESET] in
  let w2 := emit (EvSend 3 Sample.partialResponse) Sample.requestSent in
  forwardGet Sample.getExample 3 (Sample.getEnv reads) Sample.world0
  = (Returned,
     if advertisedKeepAlive reads
     then saveKeepAliveConnection "example.com" "80" 5 w2
     else sys_close 5 w2).
Proof.
  cbv zeta.
  eapply (proj1 exchange_pools_when_keep_alive_advertised Sample.getExample 3
            (Sample.getEnv [RecvData Sample.partialResponse; RecvError ECONNRESET])
            Sample.world0 5 "80" Sample.requestSent (ByRecv (-1))).
  - vm_compute. reflexivity.
  - vm_compute. reflexivity.
Defined.

(** ** A response with neither [Content-Length] nor chunked framing *)

Lemma contains_false (s needle : string) :
  Str.contains s needle = false -> Str.find s needle 0 = None.
Proof. unfold Str.contains. now destruct (Str.find s needle 0). Qed.

(** Reads that leave the header block incomplete only grow the buffer. *)
Lemma responseLoop_accumulates (clientSocket : Z) (sr : nat -> Z)
    (pre : list string) (rest : list RecvResult) (acc : string)
    (ka : bool) (cl rb : N) (ch : bool) (k : nat) (w : World) :
  Forall (fun p => p <> EmptyString) pre ->
  Str.find (acc ++ concatData pre) CRLFCRLF 0 = None ->
  responseLoop clientSocket sr (map RecvData pre ++ rest)%list
    (mkResponseState acc false ka cl rb ch k) w
  = responseLoop clientSocket sr rest
      (mkResponseState (acc ++ concatData pre) false ka cl rb ch k) w.
Proof.
  revert acc. induction pre as [|p pre IH]; intros acc Hne Hnone.
  - cbn. now rewrite append_nil_r.
  - apply Forall_cons in Hne as [Hp Hne].
    cbn [concatData] in Hnone |- *. rewrite <- append_assoc in Hnone.
    change (map RecvData (p :: pre) ++ rest)%list
      with (RecvData p :: (map RecvData pre ++ rest))%list.
    cbn [responseLoop].
    assert (Hpos : (0 <? bytesRead_of (RecvData p)) = true).
    { apply Z.ltb_lt, empty_false. now destruct p. }
    rewrite Hpos. unfold responseStep. cbn [headersComplete negb responseHeaders].
    rewrite (find_append_none _ _ _ Hnone).
    cbn [keepAliveServer contentLength receivedBodyBytes chunkedEncoding clientSends].
    rewrite (IH (acc ++ p) Hne Hnone). now rewrite append_assoc.
Qed.

(** C2, as the specification states it, fails: the upstream sends a head
    without [Content-Length] and without chunked framing, then 4 bytes of
    body, then closes.  The loop forwards the head to the client
    (descriptor 3) and is left at once by the [break] of line 96: the body
    and the end of stream stay unread, and the body never reaches the
    client. *)
Lemma unframed_response_cut_counterexample :
  let reads := [RecvData Sample.unframedHead; RecvData "body"; RecvEOF] in
  (exists st w,
      responseLoop 3 Sample.sendsSucceed reads initialResponseState Sample.requestSent
      = LoopDone (ByBreak BreakBodyComplete) st w [RecvData "body"; RecvEOF])
  /\ sentOn 3 (trace (snd (forwardGet Sample.getExample 3 (Sample.getEnv reads)
                             Sample.world0)))
     = [Sample.unframedHead].
Proof.
  cbv zeta. split.
  - eexists _, _. vm_compute. reflexivity.
  - vm_compute. reflexivity.
Qed.

(** C2 (amended): for every GET response whose header block contains
    neither a [Content-Length] header nor [Transfer-Encoding: chunked], the
    response loop forwards to the client, in one write, the bytes read up to
    and including the read that completes the header block and is left at
    that read; the handler returns without reading further, so that what
    the upstream sends afterwards is not forwarded. *)
Theorem unframed_response_ends_at_header_block
    (req : HttpRequest) (clientSocket : Z) (env : GetEnv) (w : World)
    (serverSocket : Z) (port : string) (w1 : World)
    (pre : list string) (last : string) (later : list RecvResult) (block : string) :
  getRequest req clientSocket env w = RequestSent serverSocket port w1 ->
  get_server_reads env = (map RecvData pre ++ RecvData last :: later)%list ->
  Forall (fun p => p <> EmptyString) pre ->
  last <> EmptyString ->
  Str.find (concatData pre) CRLFCRLF 0 = None ->
  headerBlock (concatData pre ++ last) = Some block ->
  Str.contains block "Content-Length: " = false ->
  Str.contains block "Transfer-Encoding: chunked" = false ->
  exists (b : Break) (st : ResponseState),
    let w2 := emit (EvSend clientSocket (concatData pre ++ last)) w1 in
    responseLoop clientSocket (get_client_send_ret env) (get_server_reads env)
      initialResponseState w1
    = LoopDone (ByBreak b) st w2 later
    /\ (b = BreakBodyComplete \/ b = BreakSendHeadersFailed)
    /\ forwardGet req clientSocket env w
       = (Returned, finishExchange (host req) port serverSocket st w2).
Proof.
  intros Hreq Hreads Hpre Hlast Hnone Hblock Hlen Hchunked.
  assert (Hloop : exists b st,
    responseLoop clientSocket (get_client_send_ret env) (get_server_reads env)
      initialResponseState w1
    = LoopDone (ByBreak b) st
        (emit (EvSend clientSocket (concatData pre ++ last)) w1) later
    /\ (b = BreakBodyComplete \/ b = BreakSendHeadersFailed)).
  { rewrite Hreads. unfold initialResponseState.
    rewrite (responseLoop_accumulates _ _ pre _ EmptyString) by assumption.
    change (EmptyString ++ concatData pre) with (concatData pre).
    cbn [responseLoop].
    assert (Hpos : (0 <? bytesRead_of (RecvData last)) = true).
    { apply Z.ltb_lt, empty_false. now destruct last. }
    rewrite Hpos. unfold responseStep. cbn [headersComplete negb responseHeaders].
    unfold headerBlock in Hblock.
    destruct (Str.find (concatData pre ++ last) CRLFCRLF 0) as [headerEnd|];
      [|discriminate].
    injection Hblock as Hblock. rewrite Hblock.
    unfold parseContentLength. rewrite (contains_false _ _ Hlen), Hchunked.
    cbn [contentLength chunkedEncoding clientSends keepAliveServer].
    destruct (get_client_send_ret env 0 <? 0).
    - eexists _, _. split; [reflexivity | now right].
    - cbn. eexists _, _. split; [reflexivity | now left]. }
  destruct Hloop as (b & st & Hloop & Hb).
  exists b, st. cbv zeta. split; [exact Hloop|]. split; [exact Hb|].
  unfold forwardGet, forwardResponse. now rewrite Hreq, Hloop.
Qed.

Lemma unframed_response_ends_at_header_block_witness :
  exists (b : Break) (st : ResponseState),
    let reads := [RecvData Sample.unframedHead; RecvData "body"; RecvEOF] in
    let w2 := emit (EvSend 3 (concatData [] ++ Sample.unframedHead)) Sample.requestSent in
    responseLoop 3 (get_client_send_ret (Sample.getEnv reads))
      (get_server_reads (Sample.getEnv reads)) initialResponseState Sample.requestSent
    = LoopDone (ByBreak b) st w2 [RecvData "body"; RecvEOF]
    /\ (b = BreakBodyComplete \/ b = BreakSendHeadersFailed)
    /\ forwardGet Sample.getExample 3 (Sample.getEnv reads) Sample.world0
       = (Returned, finishExchange (host Sample.getExample) "80" 5 st w2).
Proof.
  apply (unframed_response_ends_at_header_block Sample.getExample 3
           (Sample.getEnv [RecvData Sample.unframedHead; RecvData "body"; RecvEOF])
           Sample.world0 5 "80" Sample.requestSent [] Sample.unframedHead
           [RecvData "body"; RecvEOF] "HTTP/1.1 200 OK").
  - vm_compute. reflexivity.
  - reflexivity.
  - constructor.
  - discriminate.
  - vm_compute. reflexivity.
  - vm_compute. reflexivity.
  - vm_compute. reflexivity.
  - vm_compute. reflexivity.
Defined.

(** ** Chunked responses *)

(** In a read that follows the header block, the terminator ends the loop:
    the read is forwarded and the [break] of line 117 is taken. *)
Lemma chunk_terminator_in_body_read (clientSocket : Z) (sr : nat -> Z)
    (data : string) (rest : list RecvResult) (st : ResponseState) (w : World) :
  headersComplete st = true ->
  chunkedEncoding st = true ->
  contentLength st = 0%N ->
  data <> EmptyString ->
  Str.contains data chunkTerminator = true ->
  0 <= sr (clientSends st) ->
  exists st',
    responseLoop clientSocket sr (RecvData data :: rest) st w
    = LoopDone (ByBreak BreakChunkTerminator) st' (emit (EvSend clientSocket data) w) rest.
Proof.
  intros Hc Hch Hlen Hdata Hterm Hsend. cbn [responseLoop].
  assert (Hpos : (0 <? bytesRead_of (RecvData data)) = true).
  { apply Z.ltb_lt, empty_false. now destruct data. }
  assert (Hok : (sr (clientSends st) <? 0) = false) by (apply Z.ltb_ge; lia).
  rewrite Hpos. unfold responseStep. rewrite Hc, Hok, Hlen, Hch, Hterm. cbn.
  eexists. reflexivity.
Qed.

(** C3: the code on scenario S3, the whole chunked response in one read.
    The read contains the terminator and is forwarded to the client
    (descriptor 3), but the loop is not left: it goes back into [recv] and
    both handlers stay blocked there.  Only a further read ends the loop,
    here the end of stream. *)
Theorem chunked_terminator_in_header_read_missed :
  let reads := [RecvData Sample.chunkedResponse] in
  Str.contains Sample.chunkedResponse chunkTerminator = true
  /\ (exists st,
        responseLoop 3 Sample.sendsSucceed reads initialResponseState Sample.requestSent
        = LoopPending st (emit (EvSend 3 Sample.chunkedResponse) Sample.requestSent)
        /\ headersComplete st = true /\ chunkedEncoding st = true)
  /\ fst (forwardGet Sample.getExample 3 (Sample.getEnv reads) Sample.world0) = Blocked
  /\ fst (forwardPost Sample.postExample 3 (Sample.postEnv reads) Sample.world0) = Blocked
  /\ (exists st w,
        responseLoop 3 Sample.sendsSucceed (reads ++ [RecvEOF])%list
          initialResponseState Sample.requestSent
        = LoopDone (ByRecv 0) st w []).
Proof.
  cbv zeta. split; [vm_compute; reflexivity|]. split.
  { eexists. split; [vm_compute; reflexivity|]. split; reflexivity. }
  split; [vm_compute; reflexivity|]. split; [vm_compute; reflexivity|].
  eexists _, _. vm_compute. reflexivity.
Qed.

(** ** The [Content-Length] of a response *)

(** A header block whose [Content-Length] makes [std::stoul] throw makes
    the loop throw: nothing catches the exception. *)
Lemma response_length_throws (clientSocket : Z) (sr : nat -> Z) (data : string)
    (rest : list RecvResult) (w : World) (block : string) (e : Exception) :
  data <> EmptyString ->
  headerBlock data = Some block ->
  parseContentLength block 0 = StoulThrows e ->
  responseLoop clientSocket sr (RecvData data :: rest) initialResponseState w
  = LoopThrew e w.
Proof.
  intros Hdata Hblock Hthrow. cbn [responseLoop].
  assert (Hpos : (0 <? bytesRead_of (RecvData data)) = true).
  { apply Z.ltb_lt, empty_false. now destruct data. }
  rewrite Hpos. unfold responseStep, initialResponseState.
  cbn [headersComplete negb responseHeaders contentLength].
  change (EmptyString ++ data) with data.
  unfold headerBlock in Hblock.
  destruct (Str.find data CRLFCRLF 0); [|discriminate].
  injection Hblock as ->. now rewrite Hthrow.
Qed.

(** C10: the code on a response whose header block reads
    [Content-Length: abc].  [std::stoul] throws [invalid_argument] on
    ["abc"], and [out_of_range] on a number above [ULONG_MAX]; in the
    response loop the exception leaves [forwardGet] and [forwardPost], with
    the upstream socket (descriptor 5) neither closed nor pooled.  On the
    request side of [forwardPost] the same conversion is guarded and ends
    in a 400. *)
Theorem response_content_length_throws :
  stoul "abc" = StoulThrows invalid_argument
  /\ stoul "99999999999999999999" = StoulThrows out_of_range
  /\ forwardGet Sample.getExample 3 (Sample.getEnv [RecvData Sample.badLengthResponse])
       Sample.world0
     = (Threw invalid_argument, Sample.requestSent)
  /\ fst (forwardPost Sample.postExample 3
            (Sample.postEnv [RecvData Sample.badLengthResponse]) Sample.world0)
     = Threw invalid_argument
  /\ closesSocket 5 (trace Sample.requestSent) = false
  /\ keepAliveConnections Sample.requestSent !! "example.com:80" = None
  /\ fst (forwardPost Sample.postBadLength 3 (Sample.postEnv []) Sample.world0) = Returned.
Proof. vm_compute. repeat split; reflexivity. Qed.

(** ** [buildForwardRequest] *)

Section ForwardRequest.

Lemma tolower_nonzero (c : ascii) : Ascii.eqb c NUL = false -> tolower c <> 0.
Proof.
  destruct c as [[] [] [] [] [] [] [] []]; vm_compute; congruence.
Qed.

Lemma c_str_id (s : string) : occurs NUL s = false -> c_str s = s.
Proof.
  induction s as [|c s IH]; [reflexivity|]. cbn [c_str occurs].
  intros H. apply orb_false_elim in H as [Hc Hs].
  rewrite Ascii.eqb_sym in Hc. rewrite Hc. now rewrite IH.
Qed.

Lemma strcasecmp_c_zero (a b : string) :
  occurs NUL a = false -> occurs NUL b = false ->
  strcasecmp_c a b = 0 <-> lowered a = lowered b.
Proof.
  revert b.
  induction a as [|x a IH]; intros [|y b] Ha Hb;
    cbn [strcasecmp_c lowered occurs] in *.
  - tauto.
  - apply orb_false_elim in Hb as [Hy _]. rewrite Ascii.eqb_sym in Hy.
    pose proof (tolower_nonzero y Hy). split; [lia | discriminate].
  - apply orb_false_elim in Ha as [Hx _]. rewrite Ascii.eqb_sym in Hx.
    pose proof (tolower_nonzero x Hx). split; [lia | discriminate].
  - apply orb_false_elim in Ha as [_ Ha]. apply orb_false_elim in Hb as [_ Hb].
    destruct (tolower x =? tolower y) eqn:Hxy.
    + apply Z.eqb_eq in Hxy. rewrite Hxy, (IH b Ha Hb).
      split; [now intros -> | now intros [= ->]].
    + apply Z.eqb_neq in Hxy. split; [lia | intros [= ? _]; contradiction].
Qed.

Lemma strcasecmp_sameName (a b : string) :
  occurs NUL a = false -> occurs NUL b = false ->
  (strcasecmp a b =? 0) = sameName a b.
Proof.
  intros Ha Hb. unfold strcasecmp, sameName. rewrite !c_str_id by assumption.
  pose proof (strcasecmp_c_zero a b Ha Hb) as H.
  destruct (strcasecmp_c a b =? 0) eqn:Hz.
  - apply Z.eqb_eq in Hz. symmetry. apply bool_decide_eq_true. now apply H.
  - apply Z.eqb_neq in Hz. symmetry. apply bool_decide_eq_false. tauto.
Qed.

(** The test of lines 149-156 is the case-insensitive match against the
    eight hop-by-hop names. *)
Lemma is_hop_by_hop_hopByHop (name : string) :
  occurs NUL name = false -> is_hop_by_hop name = hopByHop name.
Proof.
  intros H. unfold is_hop_by_hop, hopByHop, hopByHopHeaders. cbn [existsb].
  rewrite !(strcasecmp_sameName name) by (exact H || reflexivity).
  now rewrite orb_false_r, !orb_assoc.
Qed.

Lemma wellFormedHeader_inv (h : string * string) :
  wellFormedHeader h = true ->
  occurs LF (fst h) = false /\ occurs ":" (fst h) = false
  /\ occurs NUL (fst h) = false /\ occurs LF (snd h) = false.
Proof.
  unfold wellFormedHeader. intros H.
  repeat (apply andb_prop in H as [H ?]).
  repeat split; now apply negb_true_iff.
Qed.

(** The loop over the headers appends one line for each header that the
    test of lines 149-156 lets through, whatever the request. *)
Lemma emit_headers_lines (hs : list (string * string)) (ss : string) :
  emit_headers hs ss
  = ss ++ concatData (map (fun h => headerLine h ++ CRLF)
                        (List.filter (fun h => negb (is_hop_by_hop (fst h))) hs)).
Proof.
  revert ss. induction hs as [|[name value] hs IH]; intros ss.
  - cbn. now rewrite append_nil_r.
  - cbn [emit_headers List.filter fst].
    destruct (is_hop_by_hop name); cbn [negb].
    + apply IH.
    + rewrite IH. cbn [map concatData]. unfold headerLine. cbn [fst snd].
      now rewrite !append_assoc.
Qed.

Lemma filter_is_hop_by_hop (hs : list (string * string)) :
  forallb wellFormedHeader hs = true ->
  List.filter (fun h => negb (is_hop_by_hop (fst h))) hs
  = List.filter (fun h => negb (hopByHop (fst h))) hs.
Proof.
  induction hs as [|h hs IH]; intros Hwf; [reflexivity|].
  cbn [forallb] in Hwf. apply andb_prop in Hwf as [Hh Hwf].
  apply wellFormedHeader_inv in Hh as (_ & _ & Hnul & _).
  cbn [List.filter]. now rewrite (is_hop_by_hop_hopByHop _ Hnul), (IH Hwf).
Qed.

Lemma occurs_append (c : ascii) (a b : string) :
  occurs c (a ++ b) = occurs c a || occurs c b.
Proof.
  induction a as [|x a IH]; [reflexivity|].
  rewrite append_cons. cbn [occurs]. now rewrite IH, orb_assoc.
Qed.

(** A line without line feed is split off whole at its CRLF. *)
Lemma splitLines_line (line rest : string) :
  occurs LF line = false ->
  splitLines (line ++ CRLF ++ rest) = line :: splitLines rest.
Proof.
  induction line as [|c line IH]; intros H; [reflexivity|].
  cbn [occurs] in H. apply orb_false_elim in H as [Hc H].
  rewrite append_cons. cbn [splitLines]. rewrite (IH H).
  destruct line as [|d line].
  - change (EmptyString ++ CRLF ++ rest) with (String CR (String LF rest)).
    cbv iota. assert (Hcr : Ascii.eqb CR LF = false) by reflexivity.
    rewrite Hcr, andb_false_r. reflexivity.
  - rewrite append_cons. cbv iota.
    cbn [occurs] in H. apply orb_false_elim in H as [Hd _].
    rewrite Ascii.eqb_sym in Hd. rewrite Hd. now rewrite andb_false_r.
Qed.

Lemma splitColon_name (name rest : string) :
  occurs ":" name = false ->
  splitColon (name ++ String ":" rest) = Some (name, rest).
Proof.
  induction name as [|c name IH]; intros H; [reflexivity|].
  cbn [occurs] in H. apply orb_false_elim in H as [Hc H].
  rewrite append_cons. cbn [splitColon]. rewrite Ascii.eqb_sym in Hc.
  now rewrite Hc, (IH H).
Qed.

Lemma parseHeaderLine_headerLine (h : string * string) :
  occurs ":" (fst h) = false -> parseHeaderLine (headerLine h) = Some h.
Proof.
  intros H. destruct h as [name value]. unfold parseHeaderLine, headerLine.
  cbn [fst snd] in *.
  change (name ++ ": " ++ value) with (name ++ String ":" (String " " value)).
  now rewrite (splitColon_name _ _ H).
Qed.

Lemma headerLine_nonempty (h : string * string) : headerLine h <> EmptyString.
Proof. destruct h as [[|c name] value]; discriminate. Qed.

Lemma splitLines_headers (hs : list (string * string)) (rest : string) :
  forallb wellFormedHeader hs = true ->
  splitLines (concatData (map (fun h => headerLine h ++ CRLF) hs) ++ rest)
  = (map headerLine hs ++ splitLines rest)%list.
Proof.
  induction hs as [|h hs IH]; intros Hwf; [reflexivity|].
  cbn [forallb] in Hwf. apply andb_prop in Hwf as [Hh Hwf].
  apply wellFormedHeader_inv in Hh as (Hn & _ & _ & Hv).
  cbn [map concatData]. rewrite !append_assoc.
  rewrite splitLines_line.
  - rewrite (IH Hwf). reflexivity.
  - unfold headerLine. rewrite !occurs_append, Hn, Hv. reflexivity.
Qed.

Lemma parseHeaderLines_headers (hs : list (string * string)) (after : list string) :
  forallb wellFormedHeader hs = true ->
  parseHeaderLines (map headerLine hs ++ EmptyString :: after)%list = Some (hs, after).
Proof.
  induction hs as [|h hs IH]; intros Hwf; [reflexivity|].
  cbn [forallb] in Hwf. apply andb_prop in Hwf as [Hh Hwf].
  apply wellFormedHeader_inv in Hh as (_ & Hc & _ & _).
  change (map headerLine (h :: hs) ++ EmptyString :: after)%list
    with (headerLine h :: (map headerLine hs ++ EmptyString :: after))%list.
  cbn [parseHeaderLines].
  pose proof (headerLine_nonempty h) as Hne.
  destruct (headerLine h) eqn:Hline; [contradiction|].
  rewrite <- Hline, (parseHeaderLine_headerLine h Hc), (IH Hwf). reflexivity.
Qed.

Lemma forallb_filter (f g : string * string -> bool) (hs : list (string * string)) :
  forallb f hs = true -> forallb f (List.filter g hs) = true.
Proof.
  induction hs as [|h hs IH]; [reflexivity|]. cbn.
  intros H. apply andb_prop in H as [Hh H].
  destruct (g h); cbn; [rewrite Hh|]; now apply IH.
Qed.

End ForwardRequest.

(** What [buildForwardRequest] returns, for every request: the request
    line, one line for each header that is not skipped, the line
    [Connection: keep-alive] and the empty line. *)
Lemma buildForwardRequest_emits (req : HttpRequest) :
  buildForwardRequest req
  = (method req ++ " " ++ request req ++ " " ++ version req) ++ CRLF
    ++ concatData (map (fun h => headerLine h ++ CRLF)
                     (List.filter (fun h => negb (is_hop_by_hop (fst h))) (headers req)))
    ++ ("Connection: keep-alive" ++ CRLF ++ CRLF).
Proof.
  unfold buildForwardRequest. rewrite emit_headers_lines.
  now rewrite !append_assoc.
Qed.

Lemma buildForwardRequest_shape (req : HttpRequest) :
  forallb wellFormedHeader (headers req) = true ->
  buildForwardRequest req
  = (method req ++ " " ++ request req ++ " " ++ version req) ++ CRLF
    ++ concatData (map (fun h => headerLine h ++ CRLF) (endToEndHeaders req))
    ++ ("Connection: keep-alive" ++ CRLF ++ CRLF).
Proof.
  intros Hwf. rewrite buildForwardRequest_emits.
  now rewrite (filter_is_hop_by_hop _ Hwf).
Qed.

Lemma sameName_Connection_hopByHop (name : string) :
  sameName name "Connection" = true -> hopByHop name = true.
Proof. intros H. unfold hopByHop, hopByHopHeaders. cbn [existsb]. now rewrite H. Qed.

(** C7: for every request (its fields well-formed, as the parser hands them
    over) the output of [buildForwardRequest], read back line by line, is
    the request line followed by the headers of the request that are not
    hop-by-hop, each as received and in their order, then the one header
    [Connection: keep-alive], then the empty line, with nothing after it.
    None of the reproduced headers bears one of the eight hop-by-hop names
    in any casing, every other header of the request is reproduced, and the
    only header with a hop-by-hop name, and so the only [Connection] header,
    is the appended [Connection: keep-alive]. *)
Theorem buildForwardRequest_strips_hop_by_hop (req : HttpRequest) :
  wellFormedRequest req = true ->
  parseRequestHead (buildForwardRequest req)
  = Some (mkRequestHead
            (method req ++ " " ++ request req ++ " " ++ version req)
            (endToEndHeaders req ++ [("Connection", "keep-alive")])%list
            [EmptyString])
  /\ Forall (fun h => hopByHop (fst h) = false /\ In h (headers req)) (endToEndHeaders req)
  /\ (forall h, In h (headers req) -> hopByHop (fst h) = false ->
                In h (endToEndHeaders req))
  /\ List.filter (fun h => hopByHop (fst h))
       (endToEndHeaders req ++ [("Connection", "keep-alive")])%list
     = [("Connection", "keep-alive")]
  /\ List.filter (fun h => sameName (fst h) "Connection")
       (endToEndHeaders req ++ [("Connection", "keep-alive")])%list
     = [("Connection", "keep-alive")].
Proof.
  intros Hwf. unfold wellFormedRequest in Hwf.
  apply andb_prop in Hwf as [Hwf Hhs]. apply andb_prop in Hwf as [Hwf Hv].
  apply andb_prop in Hwf as [Hm Hr].
  apply negb_true_iff in Hm, Hr, Hv.
  assert (Hkept : forall h, In h (endToEndHeaders req) ->
                            hopByHop (fst h) = false /\ In h (headers req)).
  { intros h Hin. unfold endToEndHeaders in Hin.
    apply List.filter_In in Hin as [Hin Hf]. split; [|exact Hin].
    now apply negb_true_iff. }
  assert (Hnone : forall f : string * string -> bool,
             (forall h, f h = true -> hopByHop (fst h) = true) ->
             List.filter f (endToEndHeaders req) = []).
  { intros f Hf. induction (endToEndHeaders req) as [|h hs IH]; [reflexivity|].
    cbn [List.filter]. destruct (f h) eqn:Hfh.
    - apply Hf in Hfh. destruct (Hkept h (or_introl eq_refl)). congruence.
    - apply IH. intros h' Hin. apply Hkept. now right. }
  split; [|split; [|split; [|split]]].
  - rewrite (buildForwardRequest_shape req Hhs). unfold parseRequestHead.
    rewrite splitLines_line by (now rewrite !occurs_append, Hm, Hr, Hv).
    assert (Hwfk : forallb wellFormedHeader (endToEndHeaders req) = true)
      by now apply forallb_filter.
    rewrite (splitLines_headers _ _ Hwfk).
    change (splitLines ("Connection: keep-alive" ++ CRLF ++ CRLF))
      with (map headerLine [("Connection", "keep-alive")]
            ++ [EmptyString; EmptyString])%list.
    rewrite List.app_assoc, <- List.map_app.
    change [EmptyString; EmptyString] with (EmptyString :: [EmptyString]).
    rewrite parseHeaderLines_headers; [reflexivity|].
    rewrite List.forallb_app, Hwfk. reflexivity.
  - apply List.Forall_forall. exact Hkept.
  - intros h Hin Hh. unfold endToEndHeaders. apply List.filter_In.
    split; [exact Hin | now rewrite Hh].
  - rewrite List.filter_app, (Hnone _ (fun h H => H)). reflexivity.
  - rewrite List.filter_app,
      (Hnone _ (fun h H => sameName_Connection_hopByHop (fst h) H)).
    reflexivity.
Qed.

Lemma buildForwardRequest_strips_hop_by_hop_witness :
  let req :=
    mkHttpRequest "GET" "http://example.com/x" "HTTP/1.1" "example.com" "80"
      [ ("Host", "example.com"); ("connection", "close"); ("TE", "trailers");
        ("Accept", "*/*"); ("UPGRADE", "h2c") ] "" "http://example.com/x" in
  parseRequestHead (buildForwardRequest req)
  = Some (mkRequestHead "GET http://example.com/x HTTP/1.1"
            [ ("Host", "example.com"); ("Accept", "*/*");
              ("Connection", "keep-alive") ]
            [EmptyString]).
Proof.
  cbv zeta.
  apply (proj1 (buildForwardRequest_strips_hop_by_hop
           (mkHttpRequest "GET" "http://example.com/x" "HTTP/1.1" "example.com" "80"
              [ ("Host", "example.com"); ("connection", "close"); ("TE", "trailers");
                ("Accept", "*/*"); ("UPGRADE", "h2c") ] "" "http://example.com/x")
           ltac:(vm_compute; reflexivity))).
Defined.

(** ** [forwardConnect]: who closes what *)

Section Tunnel.

Lemma eventsBetween_refl (w : World) : eventsBetween w w [].
Proof. unfold eventsBetween. now rewrite List.app_nil_r. Qed.

Lemma eventsBetween_emit (w w1 : World) (evs : list Event) (e : Event) :
  eventsBetween w w1 evs -> eventsBetween w (emit e w1) (evs ++ [e])%list.
Proof.
  unfold eventsBetween, emit. cbn. intros ->. now rewrite List.app_assoc.
Qed.

Lemma eventsBetween_trans (w w1 w2 : World) (evs1 evs2 : list Event) :
  eventsBetween w w1 evs1 -> eventsBetween w1 w2 evs2 ->
  eventsBetween w w2 (evs1 ++ evs2)%list.
Proof.
  unfold eventsBetween. intros H1 H2. now rewrite H2, H1, List.app_assoc.
Qed.

Lemma noClose_app (evs1 evs2 : list Event) :
  noClose (evs1 ++ evs2)%list = noClose evs1 && noClose evs2.
Proof. apply List.forallb_app. Qed.

Lemma closesSocket_app (fd : Z) (evs1 evs2 : list Event) :
  closesSocket fd (evs1 ++ evs2)%list = closesSocket fd evs1 || closesSocket fd evs2.
Proof. apply List.existsb_app. Qed.

Lemma noClose_closesSocket (fd : Z) (evs : list Event) :
  noClose evs = true -> closesSocket fd evs = false.
Proof.
  unfold noClose, closesSocket.
  induction evs as [|e evs IH]; [reflexivity|]. cbn [forallb existsb].
  intros H. apply andb_prop in H as [He H]. rewrite (IH H).
  now destruct e.
Qed.

Lemma quiet_refl (w : World) : quiet w w.
Proof. exists []. split; [apply eventsBetween_refl | reflexivity]. Qed.

Lemma quiet_trans (w w1 w2 : World) : quiet w w1 -> quiet w1 w2 -> quiet w w2.
Proof.
  intros (evs1 & H1 & N1) (evs2 & H2 & N2). exists (evs1 ++ evs2)%list.
  split; [now apply (eventsBetween_trans w w1) | now rewrite noClose_app, N1, N2].
Qed.

Lemma quiet_emit (w : World) (e : Event) :
  noClose [e] = true -> quiet w (emit e w).
Proof.
  intros H. exists [e]. split; [|exact H].
  apply (eventsBetween_emit w w [] e), eventsBetween_refl.
Qed.

Lemma writeAll_quiet (dst : Z) (buffer : string) (bytesRead : Z)
    (steps : list SendStep) (totalBytesSent : Z) (w : World) :
  quiet w (writeWorld (writeAll dst buffer bytesRead totalBytesSent steps w)).
Proof.
  revert totalBytesSent w.
  induction steps as [|s steps IH]; intros totalBytesSent w; cbn [writeAll].
  - destruct (totalBytesSent <? bytesRead); apply quiet_refl.
  - destruct (totalBytesSent <? bytesRead); [|apply quiet_refl].
    set (w1 := emit _ w).
    assert (H1 : quiet w w1) by now apply quiet_emit.
    destruct (step_send_ret s <=? 0).
    + destruct (_ && _)%bool; [|exact H1].
      destruct (step_select_ret s <=? 0); [exact H1|].
      exact (quiet_trans _ _ _ H1 (IH _ _)).
    + exact (quiet_trans _ _ _ H1 (IH _ _)).
Qed.

Lemma pump_quiet (dst : Z) (ready : option Readable) (w : World) :
  quiet w (pumpWorld (pump dst ready w)).
Proof.
  unfold pump. destruct ready as [rd|]; [|apply quiet_refl].
  destruct (bytesRead_of (ready_recv rd) <=? 0).
  - destruct (ready_recv rd) as [data|e]; [apply quiet_refl|].
    destruct (Errno_eqb e EAGAIN); apply quiet_refl.
  - destruct (ready_recv rd) as [buffer|e]; [|apply quiet_refl].
    pose proof (writeAll_quiet dst buffer (bytesRead_of (RecvData buffer))
                  (ready_sends rd) 0 w) as H.
    destruct (writeAll _ _ _ _ _ _); exact H.
Qed.

Lemma tunnelLoop_quiet (clientSocket serverSocket : Z) (rounds : list Round) (w : World) :
  quiet w (tunnelWorld (tunnelLoop clientSocket serverSocket rounds w)).
Proof.
  revert w. induction rounds as [|r rounds IH]; intros w; cbn [tunnelLoop].
  - apply quiet_refl.
  - destruct (activity r <? 0).
    { destruct (Errno_eqb (select_errno r) EINTR); [apply IH | apply quiet_refl]. }
    destruct (activity r =? 0); [apply IH|].
    pose proof (pump_quiet serverSocket (client_ready r) w) as H1.
    destruct (pump serverSocket (client_ready r) w) as [w1|w1|w1|w1];
      cbn [pumpWorld] in H1; cbn [tunnelWorld];
      try exact H1; try exact (quiet_trans _ _ _ H1 (IH _)).
    pose proof (pump_quiet clientSocket (server_ready r) w1) as H2.
    destruct (pump clientSocket (server_ready r) w1) as [w2|w2|w2|w2];
      cbn [pumpWorld] in H2; cbn [tunnelWorld];
      try exact (quiet_trans _ _ _ H1 H2);
      exact (quiet_trans _ _ _ (quiet_trans _ _ _ H1 H2) (IH _)).
Qed.

(** The dialer closes only a descriptor it took from the pool or one it has
    just created, and returns one of the two. *)
Lemma connectToServer_spares (host port : string) (env : DialEnv) (w : World) (other : Z) :
  keepAliveConnections w !! pool_key host port <> Some other ->
  socket_ret env <> other ->
  (exists evs,
      eventsBetween w (snd (connectToServer host port env w)) evs
      /\ closesSocket other evs = false)
  /\ (0 <= fst (connectToServer host port env w) ->
      fst (connectToServer host port env w) <> other).
Proof.
  intros Hpool Hsock.
  assert (Hne : (socket_ret env =? other) = false) by now apply Z.eqb_neq.
  assert (Hfresh : forall w0 pre,
    eventsBetween w w0 pre -> closesSocket other pre = false ->
    (exists evs,
        eventsBetween w (snd (freshConnect host port env w0)) evs
        /\ closesSocket other evs = false)
    /\ (0 <= fst (freshConnect host port env w0) ->
        fst (freshConnect host port env w0) <> other)).
  { intros w0 pre Hpre Hc. unfold freshConnect, sys_close.
    repeat match goal with
           | |- context [if ?b then _ else _] => destruct b
           end;
      cbn [fst snd];
      (split; [|intros; (lia || assumption)]);
      eexists; (split; [repeat apply eventsBetween_emit; exact Hpre|]);
      rewrite ?closesSocket_app, Hc; cbn; rewrite ?Hne; reflexivity. }
  unfold connectToServer, getKeepAliveConnection.
  destruct (keepAliveConnections w !! pool_key host port) as [fd|] eqn:Hfd.
  - assert (Hfd' : (fd =? other) = false) by (apply Z.eqb_neq; congruence).
    destruct (0 <? fd); [|apply (Hfresh w []); [apply eventsBetween_refl | reflexivity]].
    destruct (peek_ret env =? 0).
    + apply (Hfresh _ ([] ++ [EvPeek fd] ++ [EvClose fd])%list).
      * unfold removeKeepAliveConnection, sys_close, eventsBetween, emit. cbn.
        now rewrite <- List.app_assoc.
      * cbn. now rewrite Hfd'.
    + cbn [fst snd]. split; [|intros _; congruence].
      exists [EvPeek fd]. split; [|reflexivity].
      apply (eventsBetween_emit w w []), eventsBetween_refl.
  - change (0 <? -1) with false. cbv iota.
    apply (Hfresh w []); [apply eventsBetween_refl | reflexivity].
Qed.

End Tunnel.

(** C8: the code where the number of the client's descriptor is the one the
    pool holds for the authority.  A client on descriptor 4 sends two GETs
    to [example.com:80]; each response advertises keep-alive.  The first
    exchange dials descriptor 5 and pools it, open.  The second takes 5 from
    the pool and ends with the save, which closes the socket stored under
    the key, 5 itself, and stores 5 again: the number is free and still in
    the pool.  The next client is accepted on descriptor 5 and sends
    [CONNECT example.com:80]: the dialer peeks (nothing to read, [-1] with
    [EAGAIN]) and returns 5 as the upstream socket; the client leaves; and
    the handler's [close(serverSocket)] of line 674 closes descriptor 5,
    the client's socket. *)
Theorem forwardConnect_closes_reissued_client :
  fst Reissued.firstGet = Returned
  /\ keepAliveConnections (snd Reissued.firstGet) !! "example.com:80" = Some 5
  /\ closesSocket 5 (trace (snd Reissued.firstGet)) = false
  /\ fst Reissued.secondGet = Returned
  /\ keepAliveConnections (snd Reissued.secondGet) !! "example.com:80" = Some 5
  /\ List.last (trace (snd Reissued.secondGet)) (EvPeek 0) = EvClose 5
  /\ connectToServer "example.com" "80" Reissued.dialPooled (snd Reissued.secondGet)
     = (5, emit (EvPeek 5) (snd Reissued.secondGet))
  /\ Reissued.tunnel
     = (Returned,
        emits [EvPeek 5; EvSend 5 connectionEstablished; EvSetNonblocking 5;
               EvSetNonblocking 5; EvClose 5] (snd Reissued.secondGet))
  /\ closesSocket Reissued.clientSocket
       [EvPeek 5; EvSend 5 connectionEstablished; EvSetNonblocking 5;
        EvSetNonblocking 5; EvClose 5] = true.
Proof. vm_compute. repeat split; reflexivity. Qed.

(** * Further properties of the file *)

(** ** The pool: how the three operations compose *)

Lemma save_pool (host port : string) (socket : Z) (w : World) :
  keepAliveConnections (saveKeepAliveConnection host port socket w)
  = <[pool_key host port := socket]> (keepAliveConnections w).
Proof.
  unfold saveKeepAliveConnection. cbn [keepAliveConnections].
  now destruct (keepAliveConnections w !! pool_key host port).
Qed.

Lemma save_trace (host port : string) (socket : Z) (w : World) :
  trace (saveKeepAliveConnection host port socket w)
  = (trace w
     ++ match keepAliveConnections w !! pool_key host port with
        | Some old => [EvClose old]
        | None => []
        end)%list.
Proof.
  unfold saveKeepAliveConnection. cbn [trace].
  destruct (keepAliveConnections w !! pool_key host port); [reflexivity|].
  now rewrite List.app_nil_r.
Qed.

Lemma get_value (host port : string) (w : World) :
  fst (getKeepAliveConnection host port w)
  = match keepAliveConnections w !! pool_key host port with
    | Some fd => fd
    | None => -1
    end.
Proof.
  unfold getKeepAliveConnection.
  now destruct (keepAliveConnections w !! pool_key host port).
Qed.

(** X1: a socket saved under a key is what the next [get] for that key
    returns, and a [get] for any other key is not affected by the save. *)
Theorem save_then_get (host port : string) (socket : Z) (w : World)
    (host' port' : string) :
  fst (getKeepAliveConnection host port
         (saveKeepAliveConnection host port socket w)) = socket
  /\ (pool_key host' port' <> pool_key host port ->
      fst (getKeepAliveConnection host' port'
             (saveKeepAliveConnection host port socket w))
      = fst (getKeepAliveConnection host' port' w)).
Proof.
  rewrite !get_value, !save_pool. split.
  - now rewrite lookup_insert_eq.
  - intros Hne. now rewrite lookup_insert_ne by congruence.
Qed.

Lemma save_then_get_witness :
  fst (getKeepAliveConnection "example.com" "80"
         (saveKeepAliveConnection "example.com" "80" 9 Sample.pooled)) = 9
  /\ fst (getKeepAliveConnection "example.com" "80"
            (saveKeepAliveConnection "example.org" "80" 9 Sample.pooled))
     = fst (getKeepAliveConnection "example.com" "80" Sample.pooled).
Proof.
  split.
  - apply (save_then_get "example.com" "80" 9 Sample.pooled "" "").
  - apply (proj2 (save_then_get "example.org" "80" 9 Sample.pooled "example.com" "80")).
    vm_compute. discriminate.
Defined.

(** X2: of two sockets saved one after the other under one key, the second
    save closes the first socket, does nothing else to the outside world,
    and leaves the second socket in the pool.  This holds also when the two
    are the same descriptor: saving a socket that is already stored closes
    that very socket and keeps it in the pool. *)
Theorem save_displaces_and_closes (host port : string) (first second : Z) (w : World) :
  let w1 := saveKeepAliveConnection host port first w in
  let w2 := saveKeepAliveConnection host port second w1 in
  eventsBetween w1 w2 [EvClose first]
  /\ keepAliveConnections w2 !! pool_key host port = Some second.
Proof.
  cbv zeta. unfold eventsBetween. rewrite save_trace, !save_pool.
  rewrite !lookup_insert_eq. auto.
Qed.

(** X3: [remove] after [save] leaves the pool as if the key had been erased
    from the start, and closes nothing: a saved socket that was open is
    dropped from the pool still open. *)
Theorem remove_after_save (host port : string) (socket : Z) (w : World) :
  let w1 := saveKeepAliveConnection host port socket w in
  keepAliveConnections (removeKeepAliveConnection host port w1)
  = delete (pool_key host port) (keepAliveConnections w)
  /\ trace (removeKeepAliveConnection host port w1) = trace w1
  /\ (keepAliveConnections w !! pool_key host port <> Some socket ->
      closesSocket socket (trace w) = false ->
      closesSocket socket (trace (removeKeepAliveConnection host port w1)) = false).
Proof.
  cbv zeta. unfold removeKeepAliveConnection. cbn [keepAliveConnections trace].
  rewrite save_pool, save_trace.
  split; [apply delete_insert_eq|]. split; [reflexivity|].
  intros Hne Hc. rewrite closesSocket_app, Hc.
  destruct (keepAliveConnections w !! pool_key host port) as [old|]; [|reflexivity].
  assert (Hne' : (old =? socket) = false) by (apply Z.eqb_neq; congruence).
  cbn. now rewrite Hne'.
Qed.

Lemma remove_after_save_witness :
  closesSocket 9
    (trace (removeKeepAliveConnection "example.com" "80"
              (saveKeepAliveConnection "example.com" "80" 9 Sample.pooled)))
  = false.
Proof.
  apply (proj2 (proj2 (remove_after_save "example.com" "80" 9 Sample.pooled))).
  - vm_compute. discriminate.
  - reflexivity.
Defined.

(** X4: two authorities whose hosts contain no colon share a pool key only
    if they are the same host and the same port. *)
Theorem pool_key_injective (host port host' port' : string) :
  occurs ":" host = false ->
  occurs ":" host' = false ->
  pool_key host port = pool_key host' port' ->
  host = host' /\ port = port'.
Proof.
  unfold pool_key. revert host'.
  induction host as [|c host IH]; intros [|c' host'] Hh Hh' Heq.
  - change (String ":" port = String ":" port') in Heq. now injection Heq as ->.
  - rewrite (append_cons c' host') in Heq.
    change (String ":" port = String c' (host' ++ ":" ++ port')) in Heq.
    injection Heq as <- _.
    cbn [occurs] in Hh'. now rewrite Ascii.eqb_refl in Hh'.
  - rewrite (append_cons c host) in Heq.
    change (String c (host ++ ":" ++ port) = String ":" port') in Heq.
    injection Heq as -> _.
    cbn [occurs] in Hh. now rewrite Ascii.eqb_refl in Hh.
  - rewrite (append_cons c host), (append_cons c' host') in Heq.
    injection Heq as -> Heq.
    cbn [occurs] in Hh, Hh'.
    apply orb_false_elim in Hh as [_ Hh]. apply orb_false_elim in Hh' as [_ Hh'].
    destruct (IH host' Hh Hh' Heq) as [-> ->]. auto.
Qed.

Lemma pool_key_injective_witness :
  "example.com" = "example.com" /\ "80" = "80".
Proof.
  apply (pool_key_injective "example.com" "80" "example.com" "80");
    vm_compute; reflexivity.
Defined.

(** ** The dialer: descriptors and pool *)

Lemma emits_nil (w : World) : emits [] w = w.
Proof. destruct w. unfold emits. cbn. now rewrite List.app_nil_r. Qed.

Lemma emits_emits (evs1 evs2 : list Event) (w : World) :
  emits evs2 (emits evs1 w) = emits (evs1 ++ evs2)%list w.
Proof. unfold emits. cbn. now rewrite List.app_assoc. Qed.

Lemma emit_emits (e : Event) (evs : list Event) (w : World) :
  emit e (emits evs w) = emits (evs ++ [e])%list w.
Proof. unfold emit, emits. cbn. now rewrite List.app_assoc. Qed.

Lemma emit_as_emits (e : Event) (w : World) : emit e w = emits [e] w.
Proof. reflexivity. Qed.

Lemma emits_between (evs : list Event) (w : World) : eventsBetween w (emits evs w) evs.
Proof. reflexivity. Qed.

Lemma last_app_cons (l l' : list Event) (x d : Event) :
  List.last (l ++ x :: l') d = List.last (x :: l') d.
Proof.
  induction l as [|y l IH]; [reflexivity|].
  change ((y :: l) ++ x :: l')%list with (y :: (l ++ x :: l'))%list.
  cbn [List.last]. destruct (l ++ x :: l')%list eqn:E; [|exact IH].
  now destruct l.
Qed.

(** What a fresh dial does: it changes no pool entry, and after the call
    of the resolver it does one of three things. *)
Lemma freshConnect_result (host port : string) (env : DialEnv) (w : World) :
  let s := socket_ret env in
  exists evs,
    snd (freshConnect host port env w) = emits (EvGetaddrinfo host port :: evs) w
    /\ ((evs = [] /\ fst (freshConnect host port env w) = -1)
        \/ (evs = [EvSocket s; EvSetNonblocking s; EvConnect s; EvClose s]
            /\ fst (freshConnect host port env w) = -1)
        \/ (evs = [EvSocket s; EvSetNonblocking s; EvConnect s; EvRestoreFlags s]
            /\ fst (freshConnect host port env w) = s /\ 0 <= s)).
Proof.
  cbv zeta. unfold freshConnect, sys_close.
  destruct (negb (getaddrinfo_ret env =? 0)).
  { exists []. cbn [fst snd]. split; [reflexivity | auto]. }
  destruct (socket_ret env <? 0) eqn:Hs.
  { exists []. cbn [fst snd]. split; [reflexivity | auto]. }
  apply Z.ltb_ge in Hs.
  repeat match goal with
         | |- context [if ?b then _ else _] => destruct b
         end;
    cbn [fst snd]; eexists;
    (split; [unfold emits, emit; cbn [trace keepAliveConnections];
             rewrite <- !List.app_assoc; reflexivity|]);
    auto.
Qed.

(** X5: a dial that fails returns exactly [-1] and leaves no descriptor
    behind: a socket it has created is closed by its last action.  A dial
    that succeeds ends either with the peek on the pooled socket it returns
    or with restoring the flags of the socket it has just connected. *)
Theorem connectToServer_no_descriptor_leak (host port : string) (env : DialEnv) (w : World) :
  exists evs,
    eventsBetween w (snd (connectToServer host port env w)) evs
    /\ (fst (connectToServer host port env w) < 0 ->
        fst (connectToServer host port env w) = -1
        /\ (forall fd, In (EvSocket fd) evs -> List.last evs (EvPeek 0) = EvClose fd))
    /\ (0 <= fst (connectToServer host port env w) ->
        List.last evs (EvPeek 0) = EvPeek (fst (connectToServer host port env w))
        \/ List.last evs (EvPeek 0)
           = EvRestoreFlags (fst (connectToServer host port env w))).
Proof.
  assert (Hfresh : forall (pre : list Event) (w0 : World),
    eventsBetween w w0 pre ->
    (forall fd, ~ In (EvSocket fd) pre) ->
    exists evs,
      eventsBetween w (snd (freshConnect host port env w0)) evs
      /\ (fst (freshConnect host port env w0) < 0 ->
          fst (freshConnect host port env w0) = -1
          /\ (forall fd, In (EvSocket fd) evs -> List.last evs (EvPeek 0) = EvClose fd))
      /\ (0 <= fst (freshConnect host port env w0) ->
          List.last evs (EvPeek 0) = EvPeek (fst (freshConnect host port env w0))
          \/ List.last evs (EvPeek 0)
             = EvRestoreFlags (fst (freshConnect host port env w0)))).
  { intros pre w0 Hpre Hno.
    destruct (freshConnect_result host port env w0) as (evs & Hw & Hcase).
    exists (pre ++ EvGetaddrinfo host port :: evs)%list.
    split.
    { rewrite Hw. apply (eventsBetween_trans w w0 _ _ _ Hpre), emits_between. }
    assert (Hin : forall fd, In (EvSocket fd) (pre ++ EvGetaddrinfo host port :: evs) ->
                             In (EvSocket fd) evs).
    { intros fd H. apply List.in_app_or in H as [H | [H | H]];
        [now apply Hno in H | discriminate | exact H]. }
    destruct Hcase as [(-> & ->) | [(-> & ->) | (-> & -> & Hs)]].
    - split; [|lia]. intros _. split; [reflexivity|].
      intros fd H. now apply Hin in H.
    - split; [|lia]. intros _. split; [reflexivity|].
      intros fd H. apply Hin in H.
      rewrite last_app_cons.
      destruct H as [[= <-] | [H | [H | [H | []]]]]; (reflexivity || discriminate).
    - split; [lia|]. intros _. right.
      now rewrite last_app_cons. }
  unfold connectToServer, getKeepAliveConnection.
  destruct (keepAliveConnections w !! pool_key host port) as [fd|].
  - destruct (0 <? fd) eqn:Hfd.
    + destruct (peek_ret env =? 0).
      * apply (Hfresh [EvPeek fd; EvClose fd]).
        -- unfold removeKeepAliveConnection, sys_close, eventsBetween, emit. cbn.
           now rewrite <- List.app_assoc.
        -- intros fd' [H | [H | []]]; discriminate.
      * cbn [fst snd]. exists [EvPeek fd]. split; [reflexivity|].
        apply Z.ltb_lt in Hfd. split; [lia | auto].
    + apply (Hfresh [] w); [apply eventsBetween_refl | intros fd' []].
  - change (0 <? -1) with false. cbv iota.
    apply (Hfresh [] w); [apply eventsBetween_refl | intros fd' []].
Qed.

(** X6: the dialer never adds to the pool.  It erases the entry of the
    authority it dials exactly when that entry holds a positive descriptor
    and the peek on it returns 0; in every other case, and for every other
    key, the pool stays as it was. *)
Theorem connectToServer_pool (host port : string) (env : DialEnv) (w : World) :
  keepAliveConnections (snd (connectToServer host port env w))
  = if pooledSocketStale host port env w
    then delete (pool_key host port) (keepAliveConnections w)
    else keepAliveConnections w.
Proof.
  assert (Hfresh : forall w0,
            keepAliveConnections (snd (freshConnect host port env w0))
            = keepAliveConnections w0).
  { intros w0. destruct (freshConnect_result host port env w0) as (evs & -> & _).
    reflexivity. }
  unfold connectToServer, getKeepAliveConnection, pooledSocketStale.
  destruct (keepAliveConnections w !! pool_key host port) as [fd|].
  - destruct (0 <? fd); [|apply Hfresh].
    destruct (peek_ret env =? 0); [|reflexivity].
    cbn [andb]. rewrite Hfresh. reflexivity.
  - change (0 <? -1) with false. cbv iota. apply Hfresh.
Qed.

(** ** The response loop: what reaches the client *)

Lemma concatData_app (a b : list string) :
  concatData (a ++ b)%list = concatData a ++ concatData b.
Proof.
  induction a as [|x a IH]; [reflexivity|].
  change ((x :: a) ++ b)%list with (x :: (a ++ b))%list.
  cbn [concatData]. now rewrite IH, append_assoc.
Qed.

Lemma streamOf_app (a b : list RecvResult) :
  streamOf (a ++ b)%list = streamOf a ++ streamOf b.
Proof.
  induction a as [|x a IH]; [reflexivity|].
  change ((x :: a) ++ b)%list with (x :: (a ++ b))%list.
  cbn [streamOf]. now rewrite IH, append_assoc.
Qed.

Lemma bytesRead_nonpositive (r : RecvResult) :
  (0 <? bytesRead_of r) = false -> dataOf r = EmptyString.
Proof.
  destruct r as [[|c data]|e]; try reflexivity.
  unfold bytesRead_of, Str.size. cbn [String.length]. intros H.
  apply Z.ltb_ge in H. lia.
Qed.

(** One pass of the loop: what it sends and what it keeps. *)
Lemma responseStep_forwards (clientSocket : Z) (sr : nat -> Z) (data : string)
    (st : ResponseState) (w : World) :
  match responseStep clientSocket sr data st w with
  | StepContinue st' w' | StepBreak _ st' w' =>
      exists payloads,
        w' = emits (map (EvSend clientSocket) payloads) w
        /\ forwarded st st' [RecvData data] payloads
  | StepThrow _ w' => headersComplete st = false /\ w' = w
  end.
Proof.
  unfold responseStep, forwarded. cbn [streamOf dataOf].
  rewrite append_nil_r.
  destruct (headersComplete st); cbn [negb].
  - assert (H : exists payloads,
        emit (EvSend clientSocket data) w = emits (map (EvSend clientSocket) payloads) w
        /\ true = true /\ concatData payloads = data).
    { exists [data]. cbn. now rewrite append_nil_r. }
    destruct (sr (clientSends st) <? 0); [exact H|].
    destruct (_ && _)%bool; [exact H|].
    destruct (_ && _)%bool; exact H.
  - destruct (Str.find (responseHeaders st ++ data) CRLFCRLF 0).
    + destruct (parseContentLength _ _); [|auto].
      assert (H : exists payloads,
          emit (EvSend clientSocket (responseHeaders st ++ data)) w
          = emits (map (EvSend clientSocket) payloads) w
          /\ concatData payloads = responseHeaders st ++ data).
      { exists [responseHeaders st ++ data]. cbn. now rewrite append_nil_r. }
      destruct (sr (clientSends st) <? 0); [exact H|].
      destruct (_ || _)%bool; exact H.
    + exists []. cbn. now rewrite emits_nil.
Qed.

Lemma forwarded_step (st st1 st2 : ResponseState) (first : RecvResult)
    (rest : list RecvResult) (p1 p2 : list string) :
  forwarded st st1 [first] p1 ->
  forwarded st1 st2 rest p2 ->
  forwarded st st2 (first :: rest) (p1 ++ p2)%list.
Proof.
  unfold forwarded. cbn [streamOf]. rewrite append_nil_r.
  destruct (headersComplete st).
  - intros [H1 E1]. rewrite H1. intros [H2 E2].
    split; [exact H2|]. now rewrite concatData_app, E1, E2.
  - destruct (headersComplete st1).
    + intros E1 [H2 E2]. rewrite H2, concatData_app, E1, E2.
      now rewrite append_assoc.
    + intros [-> E1]. rewrite E1.
      destruct (headersComplete st2).
      * intros E2. cbn. now rewrite E2, append_assoc.
      * intros [-> E2]. split; [reflexivity|]. now rewrite E2, append_assoc.
Qed.

Lemma forwarded_nothing (st : ResponseState) (r : RecvResult) :
  dataOf r = EmptyString -> forwarded st st [r] [].
Proof.
  intros H. unfold forwarded. cbn [streamOf]. rewrite H. cbn.
  destruct (headersComplete st); [auto|]. now rewrite append_nil_r.
Qed.

Lemma forwarded_nil (st : ResponseState) : forwarded st st [] [].
Proof.
  unfold forwarded. cbn. destruct (headersComplete st); [auto|].
  now rewrite append_nil_r.
Qed.

(** The loop from any state: it writes only to the client socket, changes
    no pool entry, and what it writes is what it has read. *)
Lemma responseLoop_forwards (clientSocket : Z) (sr : nat -> Z)
    (reads : list RecvResult) (st : ResponseState) (w : World) :
  match responseLoop clientSocket sr reads st w with
  | LoopDone _ st' w' unread =>
      exists consumed payloads,
        reads = (consumed ++ unread)%list
        /\ w' = emits (map (EvSend clientSocket) payloads) w
        /\ forwarded st st' consumed payloads
  | LoopPending st' w' =>
      exists payloads,
        w' = emits (map (EvSend clientSocket) payloads) w
        /\ forwarded st st' reads payloads
  | LoopThrew _ w' =>
      headersComplete st = false
      /\ exists payloads, w' = emits (map (EvSend clientSocket) payloads) w
  end.
Proof.
  revert st w. induction reads as [|r reads IH]; intros st w.
  - cbn. exists []. cbn. rewrite emits_nil. split; [reflexivity | apply forwarded_nil].
  - cbn [responseLoop].
    assert (Hstop : (0 <? bytesRead_of r) = false ->
              exists consumed payloads,
                r :: reads = (consumed ++ reads)%list
                /\ w = emits (map (EvSend clientSocket) payloads) w
                /\ forwarded st st consumed payloads).
    { intros H. exists [r], []. cbn [map]. rewrite emits_nil.
      split; [reflexivity|]. split; [reflexivity|].
      now apply forwarded_nothing, bytesRead_nonpositive. }
    destruct r as [data|e]; [|now apply Hstop].
    destruct (0 <? bytesRead_of (RecvData data)); [|now apply Hstop].
    pose proof (responseStep_forwards clientSocket sr data st w) as Hs.
    destruct (responseStep clientSocket sr data st w) as [st1 w1|b st1 w1|ex w1].
    + destruct Hs as (p1 & -> & F1).
      specialize (IH st1 (emits (map (EvSend clientSocket) p1) w)).
      destruct (responseLoop clientSocket sr reads st1 _) as [how st2 w2 unread|ex w2|st2 w2].
      * destruct IH as (consumed & p2 & -> & -> & F2).
        exists (RecvData data :: consumed), (p1 ++ p2)%list.
        split; [reflexivity|]. split.
        -- now rewrite emits_emits, List.map_app.
        -- now apply (forwarded_step st st1 st2).
      * destruct IH as (Hc1 & p2 & ->).
        split.
        -- unfold forwarded in F1. destruct (headersComplete st); [|reflexivity].
           destruct F1 as [F1 _]. congruence.
        -- exists (p1 ++ p2)%list. now rewrite emits_emits, List.map_app.
      * destruct IH as (p2 & -> & F2). exists (p1 ++ p2)%list. split.
        -- now rewrite emits_emits, List.map_app.
        -- now apply (forwarded_step st st1 st2).
    + destruct Hs as (p1 & -> & F1).
      exists [RecvData data], p1. auto.
    + destruct Hs as (Hc & ->). split; [exact Hc|]. exists []. now rewrite emits_nil.
Qed.

(** The conversion of [Content-Length] is made before the first write. *)
Lemma responseLoop_throws_before_sending (clientSocket : Z) (sr : nat -> Z)
    (reads : list RecvResult) (st : ResponseState) (w : World) :
  headersComplete st = false ->
  match responseLoop clientSocket sr reads st w with
  | LoopThrew _ w' => w' = w
  | _ => True
  end.
Proof.
  revert st w. induction reads as [|r reads IH]; intros st w Hc; [exact I|].
  cbn [responseLoop]. destruct r as [data|e]; [|exact I].
  destruct (0 <? bytesRead_of (RecvData data)); [|exact I].
  unfold responseStep. rewrite Hc. cbn [negb].
  destruct (Str.find (responseHeaders st ++ data) CRLFCRLF 0).
  - destruct (parseContentLength _ _); [|reflexivity].
    destruct (sr (clientSends st) <? 0); [exact I|].
    destruct (_ || _)%bool; [exact I|].
    match goal with
    | |- context [responseLoop ?a ?b ?c ?s1 ?w1] =>
        pose proof (responseLoop_headers_complete a b c s1 w1 eq_refl) as Hd;
        destruct (responseLoop a b c s1 w1)
    end; [exact I | contradiction | exact I].
  - match goal with
    | |- context [responseLoop ?a ?b ?c ?s1 ?w1] => apply (IH s1 w1 eq_refl)
    end.
Qed.

(** X7: the response loop hands to the client, once the header block is
    complete, exactly the bytes it has read from the upstream, every byte
    once and in the order of the stream, whatever the boundaries of the
    reads; until then it hands over nothing.  It writes to no other socket
    and changes no pool entry.  When the conversion of [Content-Length]
    throws, nothing at all has been written. *)
Theorem responseLoop_forwards_stream (clientSocket : Z) (sr : nat -> Z)
    (reads : list RecvResult) (w : World) :
  match responseLoop clientSocket sr reads initialResponseState w with
  | LoopDone _ st w' unread =>
      exists consumed payloads,
        reads = (consumed ++ unread)%list
        /\ w' = emits (map (EvSend clientSocket) payloads) w
        /\ concatData payloads
           = if headersComplete st then streamOf consumed else EmptyString
  | LoopPending st w' =>
      exists payloads,
        w' = emits (map (EvSend clientSocket) payloads) w
        /\ concatData payloads
           = if headersComplete st then streamOf reads else EmptyString
  | LoopThrew _ w' => w' = w
  end.
Proof.
  pose proof (responseLoop_forwards clientSocket sr reads initialResponseState w) as H.
  pose proof (responseLoop_throws_before_sending clientSocket sr reads
                initialResponseState w eq_refl) as Ht.
  destruct (responseLoop clientSocket sr reads initialResponseState w)
    as [how st w' unread|ex w'|st w'].
  - destruct H as (consumed & payloads & Hr & Hw & F).
    exists consumed, payloads. split; [exact Hr|]. split; [exact Hw|].
    unfold forwarded in F. cbn [headersComplete initialResponseState responseHeaders] in F.
    destruct (headersComplete st); [exact F | now destruct F as [-> _]].
  - exact Ht.
  - destruct H as (payloads & Hw & F). exists payloads. split; [exact Hw|].
    unfold forwarded in F. cbn [headersComplete initialResponseState responseHeaders] in F.
    destruct (headersComplete st); [exact F | now destruct F as [-> _]].
Qed.

(** X8: when the upstream stream ends, by end of stream or by an error,
    before the header block is complete, the bytes read so far are not
    forwarded: the handler writes nothing to the client, closes the
    upstream socket and returns. *)
Theorem response_cut_before_header_block (host port : string)
    (serverSocket clientSocket : Z) (sr : nat -> Z)
    (pre : list string) (final : RecvResult) (later : list RecvResult) (w : World) :
  Forall (fun p => p <> EmptyString) pre ->
  Str.find (concatData pre) CRLFCRLF 0 = None ->
  bytesRead_of final <= 0 ->
  forwardResponse host port serverSocket clientSocket sr
    (map RecvData pre ++ final :: later)%list w
  = (Returned, sys_close serverSocket w).
Proof.
  intros Hpre Hnone Hfinal. unfold forwardResponse, initialResponseState.
  rewrite (responseLoop_accumulates _ _ pre _ EmptyString) by assumption.
  cbn [responseLoop].
  assert (Hstop : (0 <? bytesRead_of final) = false) by (apply Z.ltb_ge; lia).
  destruct final as [data|e]; [rewrite Hstop|]; reflexivity.
Qed.

Lemma response_cut_before_header_block_witness :
  forwardResponse "example.com" "80" 5 3 Sample.sendsSucceed
    (map RecvData [Sample2.cutHead] ++ RecvError ECONNRESET :: [])%list Sample.requestSent
  = (Returned, sys_close 5 Sample.requestSent).
Proof.
  apply (response_cut_before_header_block "example.com" "80" 5 3 Sample.sendsSucceed
           [Sample2.cutHead] (RecvError ECONNRESET) [] Sample.requestSent).
  - repeat constructor. discriminate.
  - vm_compute. reflexivity.
  - vm_compute. discriminate.
Defined.

(** X9: when the read that completes the header block also brings the
    whole body announced by a non-zero [Content-Length], the loop forwards
    that read and is left at once, without another [recv]; this holds
    whether or not the header block also says chunked. *)
Theorem body_complete_with_header_block (clientSocket : Z) (sr : nat -> Z)
    (pre : list string) (last : string) (later : list RecvResult) (w : World)
    (headerEnd : nat) (n : N) :
  Forall (fun p => p <> EmptyString) pre ->
  last <> EmptyString ->
  Str.find (concatData pre) CRLFCRLF 0 = None ->
  Str.find (concatData pre ++ last) CRLFCRLF 0 = Some headerEnd ->
  parseContentLength (Str.substr (concatData pre ++ last) 0 headerEnd) 0 = StoulValue n ->
  (0 < n)%N ->
  (n <= N.of_nat (String.length (concatData pre ++ last) - (headerEnd + 4)))%N ->
  exists (b : Break) (st : ResponseState),
    responseLoop clientSocket sr (map RecvData pre ++ RecvData last :: later)%list
      initialResponseState w
    = LoopDone (ByBreak b) st (emit (EvSend clientSocket (concatData pre ++ last)) w) later
    /\ (b = BreakBodyComplete \/ b = BreakSendHeadersFailed).
Proof.
  intros Hpre Hlast Hnone Hfind Hlen Hpos Hbody. unfold initialResponseState.
  rewrite (responseLoop_accumulates _ _ pre _ EmptyString) by assumption.
  change (EmptyString ++ concatData pre) with (concatData pre).
  cbn [responseLoop].
  assert (Hp : (0 <? bytesRead_of (RecvData last)) = true).
  { apply Z.ltb_lt, empty_false. now destruct last. }
  rewrite Hp. unfold responseStep. cbn [headersComplete negb responseHeaders].
  rewrite Hfind. cbn [contentLength]. rewrite Hlen.
  cbn [clientSends keepAliveServer chunkedEncoding].
  destruct (sr 0%nat <? 0).
  - eexists _, _. split; [reflexivity | now right].
  - assert (H1 : (0 <? n)%N = true) by now apply N.ltb_lt.
    assert (H2 : (n <=? N.of_nat (String.length (concatData pre ++ last) - (headerEnd + 4)))%N
                 = true) by now apply N.leb_le.
    rewrite H1, H2. cbn [andb orb].
    eexists _, _. split; [reflexivity | now left].
Qed.

Lemma body_complete_with_header_block_witness :
  exists (b : Break) (st : ResponseState),
    responseLoop 3 Sample.sendsSucceed
      (map RecvData [] ++ RecvData Sample2.lengthWhole :: [RecvData "next"])%list
      initialResponseState Sample.requestSent
    = LoopDone (ByBreak b) st
        (emit (EvSend 3 (concatData [] ++ Sample2.lengthWhole)) Sample.requestSent)
        [RecvData "next"]
    /\ (b = BreakBodyComplete \/ b = BreakSendHeadersFailed).
Proof.
  apply (body_complete_with_header_block 3 Sample.sendsSucceed [] Sample2.lengthWhole
           [RecvData "next"] Sample.requestSent 35%nat 10%N).
  - constructor.
  - discriminate.
  - reflexivity.
  - vm_compute. reflexivity.
  - vm_compute. reflexivity.
  - reflexivity.
  - vm_compute. discriminate.
Defined.

(** Reads of body bytes that stay short of the announced length are
    forwarded one by one and counted. *)
Lemma responseLoop_body (clientSocket : Z) (sr : nat -> Z)
    (body : list string) (rest : list RecvResult) (hs : string) (ka : bool)
    (n received : N) (k : nat) (w : World) :
  Forall (fun p => p <> EmptyString) body ->
  (forall i, 0 <= sr i) ->
  (received + totalLength body < n)%N ->
  (n < 2 ^ 64)%N ->
  responseLoop clientSocket sr (map RecvData body ++ rest)%list
    (mkResponseState hs true ka n received false k) w
  = responseLoop clientSocket sr rest
      (mkResponseState hs true ka n (received + totalLength body) false
         (k + List.length body))
      (emits (map (EvSend clientSocket) body) w).
Proof.
  intros Hbody Hsend. revert received k w.
  induction body as [|p body IH]; intros received k w Hlt Hmax.
  - cbn [map totalLength List.length List.app]. now rewrite N.add_0_r, Nat.add_0_r, emits_nil.
  - apply Forall_cons in Hbody as [Hp Hbody]. cbn [totalLength] in Hlt.
    change (map RecvData (p :: body) ++ rest)%list
      with (RecvData p :: (map RecvData body ++ rest))%list.
    cbn [responseLoop].
    assert (Hpos : (0 <? bytesRead_of (RecvData p)) = true).
    { apply Z.ltb_lt, empty_false. now destruct p. }
    assert (Hok : (sr k <? 0) = false) by (apply Z.ltb_ge, Hsend).
    rewrite Hpos. unfold responseStep.
    cbn [headersComplete negb clientSends contentLength receivedBodyBytes
         chunkedEncoding responseHeaders keepAliveServer].
    rewrite Hok.
    assert (Hadd : size_add received (N.of_nat (String.length p))
                   = (received + N.of_nat (String.length p))%N).
    { unfold size_add. apply N.mod_small. lia. }
    rewrite Hadd.
    assert (Hshort : (n <=? received + N.of_nat (String.length p))%N = false)
      by (apply N.leb_gt; lia).
    rewrite Hshort, andb_false_r. cbn [andb].
    rewrite (IH Hbody) by lia.
    cbn [totalLength List.length map]. f_equal.
    + f_equal; lia.
    + change (emit (EvSend clientSocket p) w) with (emits [EvSend clientSocket p] w).
      now rewrite emits_emits.
Qed.

(** X10: a response with a non-zero [Content-Length] and no chunked
    framing, whose body arrives over several reads: as long as the client
    takes what it is sent, the loop forwards the read that completes the
    header block and every body read after it, and is left at the first
    read with which the body bytes received reach the announced length.
    Reads that follow stay unread. *)
Theorem content_length_ends_response (clientSocket : Z) (sr : nat -> Z)
    (pre : list string) (head : string) (body : list string) (last : string)
    (later : list RecvResult) (w : World) (headerEnd : nat) (n : N) :
  let received := concatData pre ++ head in
  let block := Str.substr received 0 headerEnd in
  let withHead := N.of_nat (String.length received - (headerEnd + 4)) in
  Forall (fun p => p <> EmptyString) (pre ++ head :: body ++ [last]) ->
  (forall i, 0 <= sr i) ->
  Str.find (concatData pre) CRLFCRLF 0 = None ->
  Str.find received CRLFCRLF 0 = Some headerEnd ->
  parseContentLength block 0 = StoulValue n ->
  Str.contains block "Transfer-Encoding: chunked" = false ->
  (withHead + totalLength body < n)%N ->
  (n <= withHead + totalLength body + N.of_nat (String.length last))%N ->
  (withHead + totalLength body + N.of_nat (String.length last) < 2 ^ 64)%N ->
  exists st,
    responseLoop clientSocket sr
      (map RecvData pre ++ RecvData head :: map RecvData body ++ RecvData last :: later)%list
      initialResponseState w
    = LoopDone (ByBreak BreakContentLength) st
        (emits (map (EvSend clientSocket) (received :: body ++ [last])) w)
        later.
Proof.
  cbv zeta. intros Hne Hsend Hnone Hfind Hlen Hchunked Hshort Hreach Hmax.
  apply Forall_app in Hne as [Hpre Hne]. apply Forall_cons in Hne as [Hhead Hne].
  apply Forall_app in Hne as [Hbody Hlast]. apply Forall_cons in Hlast as [Hlast _].
  unfold initialResponseState.
  rewrite (responseLoop_accumulates _ _ pre _ EmptyString) by assumption.
  change (EmptyString ++ concatData pre) with (concatData pre).
  cbn [responseLoop].
  assert (Hp : (0 <? bytesRead_of (RecvData head)) = true).
  { apply Z.ltb_lt, empty_false. now destruct head. }
  rewrite Hp. unfold responseStep at 1. cbn [headersComplete negb responseHeaders].
  rewrite Hfind. cbn [contentLength]. rewrite Hlen, Hchunked.
  cbn [clientSends keepAliveServer chunkedEncoding].
  assert (Hok0 : (sr 0%nat <? 0) = false) by (apply Z.ltb_ge, Hsend).
  rewrite Hok0.
  set (withHead := N.of_nat (String.length (concatData pre ++ head) - (headerEnd + 4))) in *.
  assert (H1 : (n <=? withHead)%N = false) by (apply N.leb_gt; lia).
  assert (H2 : (n =? 0)%N = false) by (apply N.eqb_neq; lia).
  rewrite H1, H2, andb_false_r. cbn [andb orb].
  rewrite (responseLoop_body clientSocket sr body) by (assumption || lia).
  cbn [responseLoop].
  assert (Hp' : (0 <? bytesRead_of (RecvData last)) = true).
  { apply Z.ltb_lt, empty_false. now destruct last. }
  rewrite Hp'. unfold responseStep.
  cbn [headersComplete negb clientSends contentLength receivedBodyBytes
       chunkedEncoding responseHeaders keepAliveServer].
  assert (Hok : forall i, (sr i <? 0) = false) by (intros i; apply Z.ltb_ge, Hsend).
  rewrite Hok.
  assert (Hge : (n <=? size_add (withHead + totalLength body)
                         (N.of_nat (String.length last)))%N = true).
  { apply N.leb_le. unfold size_add. now rewrite N.mod_small by exact Hmax. }
  assert (H3 : (0 <? n)%N = true) by (apply N.ltb_lt; lia).
  rewrite H3, Hge. cbn [andb].
  eexists. f_equal.
  rewrite !emit_as_emits, !emits_emits.
  f_equal. cbn [map List.app]. f_equal. now rewrite List.map_app.
Qed.

Lemma content_length_ends_response_witness :
  exists st,
    responseLoop 3 Sample.sendsSucceed
      (map RecvData [] ++ RecvData Sample2.lengthHead
         :: map RecvData ["defg"] ++ RecvData "hij" :: [RecvData "next"])%list
      initialResponseState Sample.requestSent
    = LoopDone (ByBreak BreakContentLength) st
        (emits (map (EvSend 3) ((concatData [] ++ Sample2.lengthHead) :: ["defg"] ++ ["hij"]))
           Sample.requestSent)
        [RecvData "next"].
Proof.
  apply (content_length_ends_response 3 Sample.sendsSucceed [] Sample2.lengthHead
           ["defg"] "hij" [RecvData "next"] Sample.requestSent 35%nat 10%N).
  - repeat constructor; discriminate.
  - intros i. vm_compute. discriminate.
  - reflexivity.
  - vm_compute. reflexivity.
  - vm_compute. reflexivity.
  - vm_compute. reflexivity.
  - vm_compute. reflexivity.
  - vm_compute. discriminate.
  - vm_compute. reflexivity.
Defined.

(** ** Handlers that reuse a pooled socket *)

Lemma silent_refl (w : World) : silent w w.
Proof. exists []. now rewrite emits_nil. Qed.

Lemma silent_trans (w w1 w2 : World) : silent w w1 -> silent w1 w2 -> silent w w2.
Proof.
  intros (evs1 & -> & N1) (evs2 & -> & N2). exists (evs1 ++ evs2)%list.
  now rewrite emits_emits, noClose_app, N1, N2.
Qed.

Lemma silent_emit (w : World) (e : Event) : noClose [e] = true -> silent w (emit e w).
Proof. intros H. exists [e]. auto. Qed.

Lemma noClose_sends (fd : Z) (payloads : list string) :
  noClose (map (EvSend fd) payloads) = true.
Proof. induction payloads as [|p ps IH]; [reflexivity | exact IH]. Qed.

Lemma writeAll_silent (dst : Z) (buffer : string) (bytesRead : Z)
    (steps : list SendStep) (totalBytesSent : Z) (w : World) :
  silent w (writeWorld (writeAll dst buffer bytesRead totalBytesSent steps w)).
Proof.
  revert totalBytesSent w.
  induction steps as [|s steps IH]; intros totalBytesSent w; cbn [writeAll].
  - destruct (totalBytesSent <? bytesRead); apply silent_refl.
  - destruct (totalBytesSent <? bytesRead); [|apply silent_refl].
    set (w1 := emit _ w).
    assert (H1 : silent w w1) by now apply silent_emit.
    destruct (step_send_ret s <=? 0).
    + destruct (_ && _)%bool; [|exact H1].
      destruct (step_select_ret s <=? 0); [exact H1|].
      exact (silent_trans _ _ _ H1 (IH _ _)).
    + exact (silent_trans _ _ _ H1 (IH _ _)).
Qed.

Lemma pump_silent (dst : Z) (ready : option Readable) (w : World) :
  silent w (pumpWorld (pump dst ready w)).
Proof.
  unfold pump. destruct ready as [rd|]; [|apply silent_refl].
  destruct (bytesRead_of (ready_recv rd) <=? 0).
  - destruct (ready_recv rd) as [data|e]; [apply silent_refl|].
    destruct (Errno_eqb e EAGAIN); apply silent_refl.
  - destruct (ready_recv rd) as [buffer|e]; [|apply silent_refl].
    pose proof (writeAll_silent dst buffer (bytesRead_of (RecvData buffer))
                  (ready_sends rd) 0 w) as H.
    destruct (writeAll _ _ _ _ _ _); exact H.
Qed.

Lemma tunnelLoop_silent (clientSocket serverSocket : Z) (rounds : list Round) (w : World) :
  silent w (tunnelWorld (tunnelLoop clientSocket serverSocket rounds w)).
Proof.
  revert w. induction rounds as [|r rounds IH]; intros w; cbn [tunnelLoop].
  - apply silent_refl.
  - destruct (activity r <? 0).
    { destruct (Errno_eqb (select_errno r) EINTR); [apply IH | apply silent_refl]. }
    destruct (activity r =? 0); [apply IH|].
    pose proof (pump_silent serverSocket (client_ready r) w) as H1.
    destruct (pump serverSocket (client_ready r) w) as [w1|w1|w1|w1];
      cbn [pumpWorld] in H1; cbn [tunnelWorld];
      try exact H1; try exact (silent_trans _ _ _ H1 (IH _)).
    pose proof (pump_silent clientSocket (server_ready r) w1) as H2.
    destruct (pump clientSocket (server_ready r) w1) as [w2|w2|w2|w2];
      cbn [pumpWorld] in H2; cbn [tunnelWorld];
      try exact (silent_trans _ _ _ H1 H2);
      exact (silent_trans _ _ _ (silent_trans _ _ _ H1 H2) (IH _)).
Qed.

(** The loop that passes on a chunked request body closes nothing unless
    it makes the handler return, and then closes the upstream socket last. *)
Lemma forwardRequestChunks_closes (serverSocket : Z) (sr : nat -> Z) (k : nat)
    (reads : list RecvResult) (w : World) :
  match forwardRequestChunks serverSocket sr k reads w with
  | ChunkComplete w' | ChunkPending w' => silent w w'
  | ChunkReturn w' => exists w1, silent w w1 /\ w' = sys_close serverSocket w1
  end.
Proof.
  revert k w. induction reads as [|r reads IH]; intros k w; cbn [forwardRequestChunks].
  - apply silent_refl.
  - destruct (bytesRead_of r <=? 0).
    { exists w. split; [apply silent_refl | reflexivity]. }
    destruct r as [chunk|e].
    2:{ exists w. split; [apply silent_refl | reflexivity]. }
    assert (H1 : silent w (emit (EvSend serverSocket chunk) w)) by now apply silent_emit.
    destruct (sr k <? 0).
    { eexists. split; [exact H1 | reflexivity]. }
    destruct (Str.contains chunk chunkTerminator); [exact H1|].
    specialize (IH (S k) (emit (EvSend serverSocket chunk) w)).
    destruct (forwardRequestChunks _ _ _ _ _) as [w'|w'|w'].
    + exact (silent_trans _ _ _ H1 IH).
    + destruct IH as (w1 & Hs & ->). exists w1.
      split; [exact (silent_trans _ _ _ H1 Hs) | reflexivity].
    + exact (silent_trans _ _ _ H1 IH).
Qed.

Lemma silent_closesSocket (fd : Z) (evs : list Event) :
  noClose evs = true -> closesSocket fd evs = false.
Proof. apply noClose_closesSocket. Qed.

(** The end of an exchange on a socket that is still in the pool. *)
Lemma finishExchange_reused (host port : string) (fd : Z) (st : ResponseState)
    (w : World) (evs : list Event) :
  keepAliveConnections w !! pool_key host port = Some fd ->
  noClose evs = true ->
  reusedSocketFate fd w (Returned, finishExchange host port fd st (emits evs w)).
Proof.
  intros Hfd Hn. exists (evs ++ [EvClose fd])%list. cbn [fst snd]. split.
  - unfold finishExchange. destruct (negb (keepAliveServer st)).
    + unfold sys_close. now rewrite emit_emits.
    + unfold saveKeepAliveConnection. cbn [keepAliveConnections emits].
      rewrite Hfd. unfold sys_close, emit, emits. cbn [keepAliveConnections trace].
      now rewrite (insert_id _ _ _ Hfd), <- List.app_assoc.
  - rewrite closesSocket_app, (noClose_closesSocket _ _ Hn). cbn.
    now rewrite Z.eqb_refl.
Qed.

(** The response part of GET and POST on a socket that is still pooled. *)
Lemma forwardResponse_reused (host port : string) (fd clientSocket : Z)
    (sr : nat -> Z) (reads : list RecvResult) (w : World) (evs : list Event) :
  keepAliveConnections w !! pool_key host port = Some fd ->
  noClose evs = true ->
  reusedSocketFate fd w
    (forwardResponse host port fd clientSocket sr reads (emits evs w)).
Proof.
  intros Hfd Hn. unfold forwardResponse.
  pose proof (responseLoop_forwards clientSocket sr reads initialResponseState
                (emits evs w)) as H.
  destruct (responseLoop clientSocket sr reads initialResponseState (emits evs w))
    as [how st w' unread|ex w'|st w'].
  - destruct H as (consumed & payloads & _ & -> & _). rewrite emits_emits.
    apply finishExchange_reused; [exact Hfd|].
    now rewrite noClose_app, Hn, noClose_sends.
  - destruct H as (_ & payloads & ->). rewrite emits_emits.
    eexists. cbn [fst snd]. split; [reflexivity|].
    apply noClose_closesSocket. now rewrite noClose_app, Hn, noClose_sends.
  - destruct H as (payloads & -> & _). rewrite emits_emits.
    eexists. cbn [fst snd]. split; [reflexivity|].
    apply noClose_closesSocket. now rewrite noClose_app, Hn, noClose_sends.
Qed.

(** X11: a handler whose dial takes a socket from the pool (the peek on it
    does not return 0) leaves the pool as it found it, with that socket
    still stored under its key, and has closed the socket by the time it
    returns, whether it returns after a keep-alive response, after a
    response without keep-alive, after an error, or from the tunnel.  While
    it is blocked or when an exception leaves it, the socket is not closed.
    So after the first reuse the pool holds a closed descriptor. *)
Theorem reused_socket_is_closed_and_stays_pooled (req : HttpRequest)
    (clientSocket fd : Z) (w : World) :
  0 < fd ->
  (forall env : GetEnv,
      keepAliveConnections w !! pool_key (host req) (port req) = Some fd ->
      peek_ret (get_dial env) <> 0 ->
      reusedSocketFate fd w (forwardGet req clientSocket env w))
  /\ (forall env : PostEnv,
      keepAliveConnections w !! pool_key (host req) (postPort req) = Some fd ->
      peek_ret (post_dial env) <> 0 ->
      reusedSocketFate fd w (forwardPost req clientSocket env w))
  /\ (forall env : ConnectEnv,
      keepAliveConnections w !! pool_key (host req) (port req) = Some fd ->
      peek_ret (connect_dial env) <> 0 ->
      reusedSocketFate fd w (forwardConnect req clientSocket env w)).
Proof.
  intros Hpos.
  assert (Hge : (fd <? 0) = false) by (apply Z.ltb_ge; lia).
  assert (Hclosed : forall (evs : list Event) (after : list Event) (o : Outcome),
            noClose evs = true -> noClose after = true -> o = Returned ->
            reusedSocketFate fd w (o, emits after (sys_close fd (emits evs w)))).
  { intros evs after o Hn Ha ->. exists (evs ++ [EvClose fd] ++ after)%list.
    cbn [fst snd]. split.
    - unfold sys_close. now rewrite emit_emits, emits_emits, <- List.app_assoc.
    - rewrite !closesSocket_app, (noClose_closesSocket _ _ Hn). cbn.
      now rewrite Z.eqb_refl. }
  assert (Hopen : forall (evs : list Event) (o : Outcome),
            noClose evs = true -> o <> Returned ->
            reusedSocketFate fd w (o, emits evs w)).
  { intros evs o Hn Ho. exists evs. cbn [fst snd]. split; [reflexivity|].
    rewrite (noClose_closesSocket _ _ Hn). now destruct o. }
  split; [|split]; intros env Hfd Hpeek.
  - unfold forwardGet, getRequest.
    rewrite (connectToServer_peek_nonzero _ _ _ _ fd Hfd Hpos Hpeek), Hge.
    rewrite !emit_as_emits, !emits_emits.
    destruct (get_send_request_ret env <? 0).
    + unfold sendErrorResponse. rewrite emit_as_emits.
      now apply (Hclosed _ [_] Returned).
    + now apply forwardResponse_reused.
  - unfold forwardPost, postRequest.
    rewrite (connectToServer_peek_nonzero _ _ _ _ fd Hfd Hpos Hpeek), Hge.
    rewrite !emit_as_emits.
    assert (Hbad : reusedSocketFate fd w
              (Returned,
               sendErrorResponse clientSocket 400 "Bad Request"
                 (sys_close fd (emits [EvPeek fd] w)))).
    { unfold sendErrorResponse. rewrite emit_as_emits.
      now apply (Hclosed [_] [_] Returned). }
    destruct (match headers_find (headers req) "Content-Length" with
              | Some value => stoul value
              | None => StoulValue 0%N
              end) as [len|ex]; [|exact Hbad].
    destruct (_ && _ && _)%bool; [exact Hbad|].
    rewrite !emits_emits.
    destruct (post_send_request_ret env <? 0).
    + unfold sendErrorResponse. rewrite emit_as_emits.
      now apply (Hclosed _ [_] Returned).
    + destruct (_ && _)%bool; [|now apply forwardResponse_reused].
      match goal with
      | |- context [forwardRequestChunks ?a ?b ?c ?d ?e] =>
          pose proof (forwardRequestChunks_closes a b c d e) as Hc;
          destruct (forwardRequestChunks a b c d e) as [w'|w'|w']
      end.
      * destruct Hc as (evs & -> & Hn). rewrite emits_emits.
        apply forwardResponse_reused; [exact Hfd|]. now rewrite noClose_app, Hn.
      * destruct Hc as (w1 & (evs & -> & Hn) & ->). rewrite emits_emits.
        rewrite <- (emits_nil (sys_close fd _)).
        apply (Hclosed _ [] Returned); [now rewrite noClose_app, Hn | reflexivity..].
      * destruct Hc as (evs & -> & Hn). rewrite emits_emits.
        apply Hopen; [now rewrite noClose_app, Hn | discriminate].
  - unfold forwardConnect.
    rewrite (connectToServer_peek_nonzero _ _ _ _ fd Hfd Hpos Hpeek), Hge.
    rewrite !emit_as_emits, !emits_emits.
    destruct (connect_send_established_ret env <? 0).
    + rewrite <- (emits_nil (sys_close fd _)).
      now apply (Hclosed _ [] Returned).
    + match goal with
      | |- context [tunnelLoop ?a ?b ?c ?d] =>
          pose proof (tunnelLoop_silent a b c d) as Ht;
          destruct (tunnelLoop a b c d) as [w'|w']
      end; cbn [tunnelWorld] in Ht; destruct Ht as (evs & -> & Hn);
        rewrite emits_emits.
      * rewrite <- (emits_nil (sys_close fd _)).
        apply (Hclosed _ [] Returned); [now rewrite noClose_app, Hn | reflexivity..].
      * apply Hopen; [now rewrite noClose_app, Hn | discriminate].
Qed.

Lemma reused_socket_is_closed_and_stays_pooled_witness :
  reusedSocketFate 7 Sample.pooled
    (forwardGet Sample.getExample 3
       (mkGetEnv Sample.dialPeekReset 1 [RecvData Sample.partialResponse; RecvEOF]
          Sample.sendsSucceed)
       Sample.pooled).
Proof.
  apply (proj1 (reused_socket_is_closed_and_stays_pooled Sample.getExample 3 7
                  Sample.pooled ltac:(lia))
           (mkGetEnv Sample.dialPeekReset 1 [RecvData Sample.partialResponse; RecvEOF]
              Sample.sendsSucceed)).
  - vm_compute. reflexivity.
  - vm_compute. discriminate.
Defined.

(** ** The tunnel *)

(** X12: idleness never ends a tunnel.  Passes of the tunnel loop in which
    [select] times out or is interrupted by a signal are skipped without
    any effect, so a tunnel that sees only such passes is still running. *)
Theorem tunnel_survives_idleness (clientSocket serverSocket : Z)
    (idle rest : list Round) (w : World) :
  forallb idleRound idle = true ->
  tunnelLoop clientSocket serverSocket (idle ++ rest)%list w
  = tunnelLoop clientSocket serverSocket rest w
  /\ tunnelLoop clientSocket serverSocket idle w = TunnelPending w.
Proof.
  induction idle as [|r idle IH]; intros H; [split; reflexivity|].
  cbn [forallb] in H. apply andb_prop in H as [Hr H].
  destruct (IH H) as [IH1 IH2].
  change ((r :: idle) ++ rest)%list with (r :: (idle ++ rest))%list.
  cbn [tunnelLoop]. unfold idleRound in Hr.
  destruct (activity r <? 0) eqn:Hneg.
  - assert (Hz : (activity r =? 0) = false).
    { apply Z.eqb_neq. apply Z.ltb_lt in Hneg. lia. }
    rewrite Hz in Hr. cbn [orb andb] in Hr. rewrite Hr. auto.
  - rewrite orb_false_r in Hr. rewrite Hr. auto.
Qed.

Lemma tunnel_survives_idleness_witness :
  tunnelLoop 3 5 (Sample2.idleRounds ++ Sample.tunnelRounds)%list Sample.world0
  = tunnelLoop 3 5 Sample.tunnelRounds Sample.world0
  /\ tunnelLoop 3 5 Sample2.idleRounds Sample.world0 = TunnelPending Sample.world0.
Proof.
  apply (tunnel_survives_idleness 3 5 Sample2.idleRounds Sample.tunnelRounds Sample.world0).
  vm_compute. reflexivity.
Defined.

Lemma substring_split (s : string) (from n m : nat) :
  String.substring from n s ++ String.substring (from + n) m s
  = String.substring from (n + m) s.
Proof.
  revert from n. induction s as [|c s IH]; intros from n.
  - destruct from, n, m; reflexivity.
  - destruct from as [|from].
    + destruct n as [|n]; [reflexivity|].
      cbn [String.substring Nat.add]. rewrite append_cons. f_equal.
      apply (IH 0%nat n).
    + cbn [String.substring Nat.add]. apply IH.
Qed.

Lemma substring_all (s : string) : String.substring 0 (String.length s) s = s.
Proof. induction s as [|c s IH]; [reflexivity|]. cbn. now rewrite IH. Qed.

Lemma substring_none (s : string) (from : nat) : String.substring from 0 s = EmptyString.
Proof.
  revert s. induction from as [|from IH]; intros [|c s]; try reflexivity.
  cbn [String.substring]. apply IH.
Qed.

Lemma acceptedBytes_substr (buffer : string) (counts : list Z) (from : Z) :
  0 <= from ->
  Forall (fun n => 0 < n) counts ->
  acceptedBytes buffer from counts
  = Str.substr buffer (Z.to_nat from) (Z.to_nat (sumZ counts)).
Proof.
  intros Hfrom Hpos. revert from Hfrom.
  induction counts as [|n counts IH]; intros from Hfrom.
  - cbn [acceptedBytes sumZ]. unfold Str.substr. now rewrite substring_none.
  - apply Forall_cons in Hpos as [Hn Hpos]. cbn [acceptedBytes sumZ].
    rewrite (IH Hpos) by lia.
    assert (Hsum : 0 <= sumZ counts).
    { clear - Hpos. induction Hpos; cbn [sumZ]; lia. }
    unfold Str.substr.
    replace (Z.to_nat (from + n)) with (Z.to_nat from + Z.to_nat n)%nat by lia.
    rewrite substring_split. f_equal. lia.
Qed.

(** X13: a buffer that the other side of the tunnel accepts only piece by
    piece is written in full: every [send] starts at the byte after the
    last one accepted and offers the whole rest of the buffer, the write
    loop ends when the pieces add up to the buffer, and the pieces accepted
    are the buffer, byte for byte. *)
Theorem writeAll_resumes_short_writes (dst : Z) (buffer : string)
    (steps unused : list SendStep) (w : World) :
  let counts := map step_send_ret steps in
  let bytesRead := Str.size buffer in
  Forall (fun n => 0 < n) counts ->
  sumZ counts = bytesRead ->
  writeAll dst buffer bytesRead 0 (steps ++ unused)%list w
  = WriteDone
      (emits (map (fun from =>
                     EvSend dst (Str.substr buffer (Z.to_nat from)
                                   (Z.to_nat (bytesRead - from))))
                (startOffsets 0 counts)) w)
  /\ acceptedBytes buffer 0 counts = buffer.
Proof.
  cbv zeta. intros Hpos Hsum. split.
  - assert (Hgen : forall (ss : list SendStep) (total : Z) (w0 : World),
      Forall (fun n => 0 < n) (map step_send_ret ss) ->
      total + sumZ (map step_send_ret ss) = Str.size buffer ->
      writeAll dst buffer (Str.size buffer) total (ss ++ unused)%list w0
      = WriteDone
          (emits (map (fun from =>
                         EvSend dst (Str.substr buffer (Z.to_nat from)
                                       (Z.to_nat (Str.size buffer - from))))
                    (startOffsets total (map step_send_ret ss))) w0)).
    { induction ss as [|s ss IH]; intros total w0 Hp Hs.
      - cbn [map sumZ] in Hs. cbn [map startOffsets List.app]. rewrite emits_nil.
        assert (Hdone : (total <? Str.size buffer) = false) by (apply Z.ltb_ge; lia).
        destruct unused; cbn [writeAll]; now rewrite Hdone.
      - cbn [map] in Hp, Hs. apply Forall_cons in Hp as [Hn Hp]. cbn [sumZ] in Hs.
        assert (Hrest : 0 <= sumZ (map step_send_ret ss)).
        { clear - Hp. induction Hp; cbn [sumZ]; lia. }
        change ((s :: ss) ++ unused)%list with (s :: (ss ++ unused))%list.
        cbn [writeAll map startOffsets].
        assert (Hmore : (total <? Str.size buffer) = true) by (apply Z.ltb_lt; lia).
        assert (Hsent : (step_send_ret s <=? 0) = false) by (apply Z.leb_gt; lia).
        rewrite Hmore, Hsent, (IH _ _ Hp) by lia.
        now rewrite emit_as_emits, emits_emits. }
    apply (Hgen steps 0 w Hpos). lia.
  - rewrite acceptedBytes_substr by (assumption || lia).
    rewrite Hsum. unfold Str.size, Str.substr. rewrite Nat2Z.id.
    apply substring_all.
Qed.

Lemma writeAll_resumes_short_writes_witness :
  writeAll 5 "hello" (Str.size "hello") 0
    ([mkSendStep 2 EAGAIN 0; mkSendStep 3 EAGAIN 0] ++ [])%list Sample.world0
  = WriteDone
      (emits (map (fun from =>
                     EvSend 5 (Str.substr "hello" (Z.to_nat from)
                                 (Z.to_nat (Str.size "hello" - from))))
                (startOffsets 0 (map step_send_ret
                                   [mkSendStep 2 EAGAIN 0; mkSendStep 3 EAGAIN 0])))
         Sample.world0)
  /\ acceptedBytes "hello" 0
       (map step_send_ret [mkSendStep 2 EAGAIN 0; mkSendStep 3 EAGAIN 0])
     = "hello".
Proof.
  apply (writeAll_resumes_short_writes 5 "hello"
           [mkSendStep 2 EAGAIN 0; mkSendStep 3 EAGAIN 0] [] Sample.world0).
  - repeat constructor.
  - reflexivity.
Defined.

(** ** [forwardPost]: the rest of a chunked request body *)

Lemma contains_nonempty (s needle : string) :
  needle <> EmptyString -> Str.contains s needle = true -> s <> EmptyString.
Proof.
  intros Hn H ->. unfold Str.contains, Str.find in H. rewrite index_nil in H.
  destruct needle; [contradiction | discriminate].
Qed.

(** Reads without the terminator are passed on and the loop goes on. *)
Lemma forwardRequestChunks_pieces (serverSocket : Z) (sr : nat -> Z)
    (pieces : list string) (rest : list RecvResult) (k : nat) (w : World) :
  Forall (fun p => p <> EmptyString /\ Str.contains p chunkTerminator = false) pieces ->
  (forall i, 0 <= sr i) ->
  forwardRequestChunks serverSocket sr k (map RecvData pieces ++ rest)%list w
  = forwardRequestChunks serverSocket sr (k + List.length pieces) rest
      (emits (map (EvSend serverSocket) pieces) w).
Proof.
  intros Hp Hsend. revert k w.
  induction pieces as [|p pieces IH]; intros k w.
  - cbn [map List.app List.length]. now rewrite Nat.add_0_r, emits_nil.
  - apply Forall_cons in Hp as [[Hne Hnt] Hp].
    change (map RecvData (p :: pieces) ++ rest)%list
      with (RecvData p :: (map RecvData pieces ++ rest))%list.
    cbn [forwardRequestChunks].
    assert (Hpos : (bytesRead_of (RecvData p) <=? 0) = false).
    { apply Z.leb_gt, empty_false. now destruct p. }
    assert (Hok : (sr k <? 0) = false) by (apply Z.ltb_ge, Hsend).
    rewrite Hpos, Hok, Hnt, (IH Hp), emit_as_emits, emits_emits.
    cbn [List.length map List.app]. f_equal. lia.
Qed.

(** X14: the rest of a chunked request body is passed to the upstream as
    it is read from the client, piece by piece and unchanged, up to and
    including the first read that shows the terminator; there the loop ends
    and nothing after it is read.  If instead the client closes or its read
    fails before any read shows the terminator, the pieces read so far have
    been passed on, the upstream socket is closed, and the handler returns
    without a word to the client. *)
Theorem request_chunks_are_passed_on (serverSocket : Z) (sr : nat -> Z)
    (pieces : list string) (final : RecvResult) (later : list RecvResult) (w : World) :
  Forall (fun p => p <> EmptyString /\ Str.contains p chunkTerminator = false) pieces ->
  (forall i, 0 <= sr i) ->
  forwardRequestChunks serverSocket sr 0 (map RecvData pieces ++ final :: later)%list w
  = if Str.contains (dataOf final) chunkTerminator then
      ChunkComplete (emits (map (EvSend serverSocket) (pieces ++ [dataOf final])) w)
    else if bytesRead_of final <=? 0 then
      ChunkReturn (sys_close serverSocket (emits (map (EvSend serverSocket) pieces) w))
    else
      forwardRequestChunks serverSocket sr (S (List.length pieces)) later
        (emits (map (EvSend serverSocket) (pieces ++ [dataOf final])) w).
Proof.
  intros Hp Hsend. rewrite (forwardRequestChunks_pieces _ _ _ _ _ _ Hp Hsend).
  cbn [forwardRequestChunks Nat.add].
  assert (Hok : forall i, (sr i <? 0) = false) by (intros i; apply Z.ltb_ge, Hsend).
  assert (Hmap : forall d,
            emit (EvSend serverSocket d) (emits (map (EvSend serverSocket) pieces) w)
            = emits (map (EvSend serverSocket) (pieces ++ [d])) w).
  { intros d. now rewrite emit_emits, List.map_app. }
  destruct (Str.contains (dataOf final) chunkTerminator) eqn:Hterm.
  - pose proof (contains_nonempty _ chunkTerminator ltac:(discriminate) Hterm) as Hne.
    destruct final as [data|e]; cbn [dataOf] in *; [|contradiction].
    assert (Hpos : (bytesRead_of (RecvData data) <=? 0) = false).
    { apply Z.leb_gt, empty_false. now destruct data. }
    now rewrite Hpos, Hok, Hterm, Hmap.
  - destruct (bytesRead_of final <=? 0) eqn:Hgone; [reflexivity|].
    destruct final as [data|e]; cbn [dataOf] in *; [|discriminate].
    now rewrite Hok, Hterm, Hmap.
Qed.

Lemma request_chunks_are_passed_on_witness :
  forwardRequestChunks 5 Sample.sendsSucceed 0
    (map RecvData Sample2.chunkPieces ++ RecvData Sample2.lastChunk :: [RecvEOF])%list
    Sample.world0
  = if Str.contains (dataOf (RecvData Sample2.lastChunk)) chunkTerminator then
      ChunkComplete
        (emits (map (EvSend 5) (Sample2.chunkPieces ++ [dataOf (RecvData Sample2.lastChunk)]))
           Sample.world0)
    else if bytesRead_of (RecvData Sample2.lastChunk) <=? 0 then
      ChunkReturn (sys_close 5 (emits (map (EvSend 5) Sample2.chunkPieces) Sample.world0))
    else
      forwardRequestChunks 5 Sample.sendsSucceed (S (List.length Sample2.chunkPieces))
        [RecvEOF]
        (emits (map (EvSend 5) (Sample2.chunkPieces ++ [dataOf (RecvData Sample2.lastChunk)]))
           Sample.world0).
Proof.
  apply (request_chunks_are_passed_on 5 Sample.sendsSucceed Sample2.chunkPieces
           (RecvData Sample2.lastChunk) [RecvEOF] Sample.world0).
  - repeat constructor; (discriminate || (vm_compute; reflexivity)).
  - intros i. vm_compute. discriminate.
Defined.

(** X15: the loop is completed only by a read that holds the whole
    terminator.  Whatever the client sends, if no single read contains
    [0 CRLF CRLF], also when the five bytes arrive split over two reads,
    the loop does not complete: the handler either returns with the
    upstream closed or is still reading. *)
Theorem request_chunks_need_terminator_in_one_read (serverSocket : Z) (sr : nat -> Z)
    (k : nat) (reads : list RecvResult) (w : World) :
  Forall (fun r => Str.contains (dataOf r) chunkTerminator = false) reads ->
  match forwardRequestChunks serverSocket sr k reads w with
  | ChunkComplete _ => False
  | ChunkReturn _ | ChunkPending _ => True
  end.
Proof.
  intros H. revert k w. induction reads as [|r reads IH]; intros k w; [exact I|].
  apply Forall_cons in H as [Hr H]. cbn [forwardRequestChunks].
  destruct (bytesRead_of r <=? 0); [exact I|].
  destruct r as [chunk|e]; [|exact I]. cbn [dataOf] in Hr.
  destruct (sr k <? 0); [exact I|]. rewrite Hr. now apply IH.
Qed.

Lemma request_chunks_need_terminator_in_one_read_witness :
  match forwardRequestChunks 5 Sample.sendsSucceed 0
          [RecvData ("0" ++ CRLF); RecvData CRLF] Sample.world0 with
  | ChunkComplete _ => False
  | ChunkReturn _ | ChunkPending _ => True
  end.
Proof.
  apply (request_chunks_need_terminator_in_one_read 5 Sample.sendsSucceed 0
           [RecvData ("0" ++ CRLF); RecvData CRLF] Sample.world0).
  repeat constructor; vm_compute; reflexivity.
Defined.

(** ** Writing the request upstream *)

Lemma errorResponse_internal :
  errorResponse 500 "Internal Server Error" = internalServerErrorResponse.
Proof. vm_compute. reflexivity. Qed.

(** What [forwardPost] does once the dial has succeeded and the framing of
    the request is accepted: one [send] of request line, headers and body. *)
Lemma postRequest_accepted (req : HttpRequest) (clientSocket : Z) (env : PostEnv)
    (w : World) :
  FramingAccepted req ->
  0 <= fst (connectToServer (host req) (postPort req) (post_dial env) w) ->
  let serverSocket := fst (connectToServer (host req) (postPort req) (post_dial env) w) in
  let w1 :=
    emit (EvSend serverSocket (buildForwardRequest req ++ body req))
      (snd (connectToServer (host req) (postPort req) (post_dial env) w)) in
  postRequest req clientSocket env w
  = if post_send_request_ret env <? 0 then
      RequestOver Returned
        (sendErrorResponse clientSocket 500 "Internal Server Error"
           (sys_close serverSocket w1))
    else if requestChunked req && negb (Str.contains (body req) chunkTerminator) then
      match forwardRequestChunks serverSocket (post_server_send_ret env) 0%nat
              (post_client_reads env) w1 with
      | ChunkComplete w2 => RequestSent serverSocket (postPort req) w2
      | ChunkReturn w2 => RequestOver Returned w2
      | ChunkPending w2 => RequestOver Blocked w2
      end
    else RequestSent serverSocket (postPort req) w1.
Proof.
  intros (n & Hlen & Hok) Hdial. cbv zeta. unfold postRequest.
  destruct (connectToServer (host req) (postPort req) (post_dial env) w) as [fd w0].
  cbn [fst snd] in *.
  assert (Hge : (fd <? 0) = false) by (apply Z.ltb_ge; lia).
  rewrite Hge. fold (requestChunked req).
  assert (Hconv : match headers_find (headers req) "Content-Length" with
                  | Some value => stoul value
                  | None => StoulValue 0%N
                  end = StoulValue n).
  { destruct (headers_find (headers req) "Content-Length"); [exact Hlen | now subst]. }
  rewrite Hconv.
  assert (Hpass : (n =? 0)%N && negb (requestChunked req) && negb (Str.empty (body req))
                  = false).
  { destruct Hok as [Hn | [Hc | Hb]].
    - apply N.eqb_neq in Hn. now rewrite Hn.
    - rewrite Hc. cbn [negb]. now rewrite andb_false_r.
    - rewrite Hb. cbn [Str.empty negb]. now rewrite andb_false_r. }
  rewrite Hpass. reflexivity.
Qed.

(** X16: when the [send] of the request on the upstream socket fails, the
    GET handler, and the POST handler for a request whose framing it
    accepts, close the upstream socket, write the literal 500 response to
    the client and return; the pool is as the dial left it. *)
Theorem upstream_write_failure (req : HttpRequest) (clientSocket : Z) (w : World) :
  (forall env : GetEnv,
      0 <= fst (connectToServer (host req) (port req) (get_dial env) w) ->
      get_send_request_ret env < 0 ->
      let dialled := connectToServer (host req) (port req) (get_dial env) w in
      forwardGet req clientSocket env w
      = (Returned,
         emits [EvSend (fst dialled) (buildForwardRequest req);
                EvClose (fst dialled);
                EvSend clientSocket internalServerErrorResponse]
           (snd dialled)))
  /\ (forall env : PostEnv,
      FramingAccepted req ->
      0 <= fst (connectToServer (host req) (postPort req) (post_dial env) w) ->
      post_send_request_ret env < 0 ->
      let dialled := connectToServer (host req) (postPort req) (post_dial env) w in
      forwardPost req clientSocket env w
      = (Returned,
         emits [EvSend (fst dialled) (buildForwardRequest req ++ body req);
                EvClose (fst dialled);
                EvSend clientSocket internalServerErrorResponse]
           (snd dialled))).
Proof.
  split.
  - intros env Hdial Hsend. cbv zeta. unfold forwardGet, getRequest.
    destruct (connectToServer (host req) (port req) (get_dial env) w) as [fd w0].
    cbn [fst snd] in *.
    assert (Hge : (fd <? 0) = false) by (apply Z.ltb_ge; lia).
    assert (Hlt : (get_send_request_ret env <? 0) = true) by (apply Z.ltb_lt; lia).
    rewrite Hge, Hlt. unfold sendErrorResponse, sys_close.
    now rewrite errorResponse_internal, !emit_as_emits, !emits_emits.
  - intros env Hacc Hdial Hsend. cbv zeta. unfold forwardPost.
    rewrite (postRequest_accepted req clientSocket env w Hacc Hdial).
    assert (Hlt : (post_send_request_ret env <? 0) = true) by (apply Z.ltb_lt; lia).
    rewrite Hlt. unfold sendErrorResponse, sys_close.
    now rewrite errorResponse_internal, !emit_as_emits, !emits_emits.
Qed.

Lemma upstream_write_failure_witness :
  let env := mkGetEnv Sample.dialFresh (-1) [] Sample.sendsSucceed in
  let dialled := connectToServer "example.com" "80" Sample.dialFresh Sample.world0 in
  forwardGet Sample.getExample 3 env Sample.world0
  = (Returned,
     emits [EvSend (fst dialled) (buildForwardRequest Sample.getExample);
            EvClose (fst dialled);
            EvSend 3 internalServerErrorResponse]
       (snd dialled)).
Proof.
  apply (proj1 (upstream_write_failure Sample.getExample 3 Sample.world0)
           (mkGetEnv Sample.dialFresh (-1) [] Sample.sendsSucceed)).
  - vm_compute. discriminate.
  - vm_compute. reflexivity.
Defined.

(** ** [buildForwardRequest]: which names are skipped *)

Lemma strcasecmp_c_lowered (a b x : string) :
  lowered a = lowered b -> strcasecmp_c a x = strcasecmp_c b x.
Proof.
  revert b x. induction a as [|c a IH]; intros [|d b] x H; try discriminate.
  - reflexivity.
  - cbn [lowered] in H. injection H as Hc H.
    destruct x as [|y x]; cbn [strcasecmp_c]; [exact Hc|].
    rewrite Hc. now rewrite (IH b x H).
Qed.

(** X17: whether a header is skipped depends only on its name as a C
    string with letters folded to lower case: two names that agree up to
    case and up to what follows a first NUL are both skipped or both kept.
    In particular a name is skipped when its part before a NUL is one of
    the eight hop-by-hop names. *)
Theorem is_hop_by_hop_case_folded (a b : string) :
  lowered (c_str a) = lowered (c_str b) -> is_hop_by_hop a = is_hop_by_hop b.
Proof.
  intros H. unfold is_hop_by_hop, strcasecmp.
  now rewrite !(strcasecmp_c_lowered (c_str a) (c_str b)) by exact H.
Qed.

Lemma is_hop_by_hop_case_folded_witness :
  is_hop_by_hop (String "t" (String "E" (String NUL "x"))) = is_hop_by_hop "TE".
Proof.
  apply (is_hop_by_hop_case_folded (String "t" (String "E" (String NUL "x"))) "TE").
  vm_compute. reflexivity.
Defined.

(** ** Reading a [Content-Length] *)

Lemma digits_value_uint (d : Decimal.uint) (rest : string) (acc : N) :
  digitAhead rest = false ->
  digits_value (NilEmpty.string_of_uint d ++ rest) acc
  = (acc * 10 ^ DecimalPos.Unsigned.usize d
     + DecimalPos.Unsigned.of_lu (Decimal.rev d))%N.
Proof.
  intros Hrest. revert acc.
  induction d as [|d IH|d IH|d IH|d IH|d IH|d IH|d IH|d IH|d IH|d IH]; intros acc;
    cbn [NilEmpty.string_of_uint DecimalPos.Unsigned.usize];
    [ change (EmptyString ++ rest) with rest; cbn;
      destruct rest as [|c rest]; cbn [digits_value]; [lia|];
      cbn [digitAhead] in Hrest; destruct (digit_value c); [discriminate | lia]
    | rewrite append_cons; cbn [digits_value];
      match goal with
      | |- context [digit_value ?c] =>
          let v := eval vm_compute in (digit_value c) in
          change (digit_value c) with v
      end;
      cbv iota beta; rewrite IH;
      match goal with
      | |- context [Decimal.rev (?D ?x)] =>
          change (Decimal.rev (D x)) with (Decimal.revapp x (D Decimal.Nil))
      end;
      rewrite DecimalPos.Unsigned.of_lu_revapp, N.pow_succ_r';
      match goal with
      | |- context [DecimalPos.Unsigned.of_lu (?D Decimal.Nil)] =>
          let v := eval vm_compute in (DecimalPos.Unsigned.of_lu (D Decimal.Nil)) in
          change (DecimalPos.Unsigned.of_lu (D Decimal.Nil)) with v
      end; ring .. ].
Qed.

Lemma to_string_N (n : N) :
  to_string (Z.of_N n) = NilEmpty.string_of_uint (N.to_uint n)
  /\ N.to_uint n <> Decimal.Nil.
Proof.
  destruct n as [|p]; [split; [reflexivity | discriminate]|].
  pose proof (DecimalPos.Unsigned.to_uint_nonnil p) as Hp.
  split; [|exact Hp]. unfold to_string. cbn [Z.of_N Z.to_int NilZero.string_of_int].
  unfold NilZero.string_of_uint. cbn [N.to_uint]. now destruct (Pos.to_uint p).
Qed.

Lemma digits_value_numeral (d : Decimal.uint) (rest : string) :
  digitAhead rest = false ->
  digits_value (NilEmpty.string_of_uint d ++ rest) 0 = N.of_uint d.
Proof.
  intros Hrest. rewrite (digits_value_uint d rest 0 Hrest). unfold N.of_uint.
  rewrite DecimalPos.Unsigned.of_uint_alt. lia.
Qed.

Lemma stoul_numeral (d : Decimal.uint) (rest : string) :
  d <> Decimal.Nil ->
  digitAhead rest = false ->
  stoul (NilEmpty.string_of_uint d ++ rest) = stoulOf (N.of_uint d).
Proof.
  intros Hd Hrest. unfold stoulOf.
  rewrite <- (digits_value_numeral d rest Hrest).
  destruct d; [contradiction|..]; cbn [NilEmpty.string_of_uint]; rewrite append_cons;
    reflexivity.
Qed.

Lemma stoul_minus_numeral (d : Decimal.uint) (rest : string) :
  d <> Decimal.Nil ->
  digitAhead rest = false ->
  stoul (String "-" (NilEmpty.string_of_uint d) ++ rest)
  = if (ULONG_MAX <? N.of_uint d)%N then StoulThrows out_of_range
    else StoulValue ((2 ^ 64 - N.of_uint d) mod 2 ^ 64)%N.
Proof.
  intros Hd Hrest. rewrite append_cons.
  rewrite <- (digits_value_numeral d rest Hrest).
  destruct d; [contradiction|..]; cbn [NilEmpty.string_of_uint]; rewrite append_cons;
    reflexivity.
Qed.

(** [std::stoul] reads back what [std::to_string] writes, whatever
    follows the digits, and throws beyond [ULONG_MAX]. *)
Lemma stoul_to_string (n : N) (rest : string) :
  digitAhead rest = false ->
  stoul (to_string (Z.of_N n) ++ rest) = stoulOf n.
Proof.
  intros Hrest. destruct (to_string_N n) as [-> Hd].
  rewrite (stoul_numeral _ _ Hd Hrest). now rewrite DecimalN.Unsigned.of_to.
Qed.

(** A minus sign before the digits negates in [unsigned long]. *)
Lemma stoul_minus_to_string (n : N) (rest : string) :
  digitAhead rest = false ->
  stoul (String "-" (to_string (Z.of_N n)) ++ rest)
  = if (ULONG_MAX <? n)%N then StoulThrows out_of_range
    else StoulValue ((2 ^ 64 - n) mod 2 ^ 64)%N.
Proof.
  intros Hrest. destruct (to_string_N n) as [-> Hd].
  rewrite (stoul_minus_numeral _ _ Hd Hrest). now rewrite DecimalN.Unsigned.of_to.
Qed.

Lemma index_skip (a b needle : string) (k : nat) :
  String.index (String.length a + k) needle (a ++ b)
  = match String.index k needle b with
    | Some i => Some (String.length a + i)%nat
    | None => None
    end.
Proof.
  induction a as [|c a IH].
  { change (EmptyString ++ b) with b. cbn [String.length Nat.add].
    now destruct (String.index k needle b). }
  rewrite append_cons. cbn [String.length Nat.add String.index]. rewrite IH.
  now destruct (String.index k needle b).
Qed.

Lemma substring_skip (a b : string) (m : nat) :
  String.substring (String.length a) m (a ++ b) = String.substring 0 m b.
Proof.
  induction a as [|c a IH]; [reflexivity|].
  rewrite append_cons. cbn [String.length String.substring]. exact IH.
Qed.

Lemma digitAhead_substring (s : string) (e : nat) :
  digitAhead s = false -> digitAhead (String.substring 0 e s) = false.
Proof. destruct e, s; auto. Qed.

(** The digits of a numeral are taken whole by a cut at the first CRLF. *)
Lemma numeral_up_to_crlf (d : Decimal.uint) (after : string) (e : nat) :
  String.index 0 CRLF (NilEmpty.string_of_uint d ++ after) = Some e ->
  exists t,
    String.substring 0 e (NilEmpty.string_of_uint d ++ after)
    = NilEmpty.string_of_uint d ++ t
    /\ (digitAhead after = false -> digitAhead t = false).
Proof.
  revert e.
  induction d as [|d IH|d IH|d IH|d IH|d IH|d IH|d IH|d IH|d IH|d IH]; intros e;
    cbn [NilEmpty.string_of_uint];
    [ intros _; exists (String.substring 0 e after);
      split; [reflexivity | apply digitAhead_substring]
    | rewrite append_cons, index_cons;
      match goal with
      | |- context [String.prefix CRLF (String ?c ?s)] =>
          change (String.prefix CRLF (String c s)) with false
      end;
      cbv iota;
      destruct (String.index 0 CRLF (NilEmpty.string_of_uint d ++ after)) as [e'|] eqn:He;
      [|discriminate];
      intros [= <-]; destruct (IH e' eq_refl) as (t & Ht & Hd);
      exists t; split; [cbn [String.substring]; now rewrite Ht | exact Hd] .. ].
Qed.

(** X18: the response loop reads the [Content-Length] of a header block
    right.  When the first ["Content-Length: "] of the block is followed
    by the decimal numeral of [n] and then by the end of the block, a CRLF
    or anything else that is not a digit, the value taken is [n], for
    every [n] up to [ULONG_MAX]; for a larger [n] the conversion throws
    [out_of_range]. *)
Theorem parseContentLength_reads_numeral (before after : string) (n current : N) :
  let block := before ++ "Content-Length: " ++ to_string (Z.of_N n) ++ after in
  digitAhead after = false ->
  Str.find block "Content-Length: " 0 = Some (String.length before) ->
  parseContentLength block current = stoulOf n.
Proof.
  cbv zeta. intros Hafter Hfind. unfold parseContentLength. rewrite Hfind.
  set (b := to_string (Z.of_N n) ++ after).
  set (a := before ++ "Content-Length: ").
  assert (Hblock : before ++ "Content-Length: " ++ b = a ++ b)
    by (subst a; now rewrite append_assoc).
  assert (Hlen : (String.length before + 16 = String.length a + 0)%nat).
  { subst a. rewrite length_append. cbn. lia. }
  rewrite Hblock. unfold Str.find, Str.substr, Str.substr_from.
  rewrite Hlen, index_skip. rewrite Nat.add_0_r.
  destruct (String.index 0 CRLF b) as [e|] eqn:He.
  - replace (String.length a + e - String.length a)%nat with e by lia.
    rewrite substring_skip. subst b.
    destruct (to_string_N n) as [Hs _]. rewrite Hs in He |- *.
    destruct (numeral_up_to_crlf _ _ _ He) as (t & -> & Ht).
    rewrite <- Hs. apply stoul_to_string. now apply Ht.
  - rewrite length_append.
    replace (String.length a + String.length b - String.length a)%nat
      with (String.length b) by lia.
    rewrite substring_skip, substring_all. subst b. now apply stoul_to_string.
Qed.

Lemma parseContentLength_reads_numeral_witness :
  parseContentLength Sample2.lengthBlock 0 = stoulOf 1234.
Proof.
  apply (parseContentLength_reads_numeral
           ("HTTP/1.1 200 OK" ++ CRLF ++ "Server: x" ++ CRLF)
           (CRLF ++ "Connection: close") 1234 0).
  - reflexivity.
  - vm_compute. reflexivity.
Defined.

(** X19: [forwardPost] does not reject a negative [Content-Length].  A
    value [-n] with [0 < n <= ULONG_MAX] converts, to [2^64 - n], so the
    framing is accepted and the request goes upstream with its headers and
    its body as they are; the length is compared with nothing. *)
Theorem negative_request_length_is_accepted (req : HttpRequest) (clientSocket : Z)
    (env : PostEnv) (w : World) (n : N) :
  headers_find (headers req) "Content-Length"
  = Some (String "-" (to_string (Z.of_N n))) ->
  (0 < n <= ULONG_MAX)%N ->
  requestChunked req = false ->
  0 <= fst (connectToServer (host req) (postPort req) (post_dial env) w) ->
  0 <= post_send_request_ret env ->
  let dialled := connectToServer (host req) (postPort req) (post_dial env) w in
  postRequest req clientSocket env w
  = RequestSent (fst dialled) (postPort req)
      (emit (EvSend (fst dialled) (buildForwardRequest req ++ body req)) (snd dialled)).
Proof.
  intros Hlen [Hpos Hmax] Hchunked Hdial Hsend. cbv zeta.
  assert (Hconv : stoul (String "-" (to_string (Z.of_N n)))
                  = StoulValue ((2 ^ 64 - n) mod 2 ^ 64)%N).
  { pose proof (stoul_minus_to_string n EmptyString eq_refl) as H.
    rewrite append_nil_r in H. rewrite H.
    assert (Hle : (ULONG_MAX <? n)%N = false) by (apply N.ltb_ge; lia).
    now rewrite Hle. }
  assert (Hacc : FramingAccepted req).
  { exists ((2 ^ 64 - n) mod 2 ^ 64)%N. rewrite Hlen. split; [exact Hconv|].
    left. unfold ULONG_MAX in Hmax. rewrite N.mod_small by lia. lia. }
  rewrite (postRequest_accepted req clientSocket env w Hacc Hdial).
  assert (Hok : (post_send_request_ret env <? 0) = false) by (apply Z.ltb_ge; lia).
  now rewrite Hok, Hchunked.
Qed.

Lemma negative_request_length_is_accepted_witness :
  let env := Sample.postEnv [] in
  let dialled := connectToServer "example.com" "80" Sample.dialFresh Sample.world0 in
  postRequest Sample2.postNegativeLength 3 env Sample.world0
  = RequestSent (fst dialled) "80"
      (emit (EvSend (fst dialled)
               (buildForwardRequest Sample2.postNegativeLength
                ++ body Sample2.postNegativeLength))
         (snd dialled)).
Proof.
  apply (negative_request_length_is_accepted Sample2.postNegativeLength 3
           (Sample.postEnv []) Sample.world0 1).
  - reflexivity.
  - vm_compute. split; [reflexivity | discriminate].
  - reflexivity.
  - vm_compute. discriminate.
  - vm_compute. discriminate.
Defined.

(** ** One GET after another *)

(** X20: after a GET whose upstream advertised [Connection: keep-alive],
    the next dial to the same authority finds the socket of that exchange
    in the pool and, unless its peek returns 0, returns it after the peek
    alone: no resolver call, no new socket, no connect. *)
Theorem keep_alive_socket_is_reused (req : HttpRequest) (clientSocket : Z)
    (env : GetEnv) (w : World) (serverSocket : Z) (port : string) (w1 : World)
    (how : LoopExit) (st : ResponseState) (w2 : World) (unread : list RecvResult)
    (next : DialEnv) :
  getRequest req clientSocket env w = RequestSent serverSocket port w1 ->
  responseLoop clientSocket (get_client_send_ret env) (get_server_reads env)
    initialResponseState w1 = LoopDone how st w2 unread ->
  advertisedKeepAlive (get_server_reads env) = true ->
  0 < serverSocket ->
  peek_ret next <> 0 ->
  let w' := snd (forwardGet req clientSocket env w) in
  connectToServer (host req) port next w' = (serverSocket, emit (EvPeek serverSocket) w').
Proof.
  intros Hreq Hloop Hka Hpos Hpeek. cbv zeta.
  apply connectToServer_peek_nonzero; [|exact Hpos | exact Hpeek].
  unfold forwardGet, forwardResponse. rewrite Hreq, Hloop. cbn [snd].
  unfold finishExchange. rewrite (responseLoop_advertised _ _ _ _ _ _ _ _ Hloop), Hka.
  cbn [negb]. rewrite save_pool. apply lookup_insert_eq.
Qed.

Lemma keep_alive_socket_is_reused_witness :
  let env := Sample.getEnv [RecvData Sample.partialResponse; RecvError ECONNRESET] in
  let w' := snd (forwardGet Sample.getExample 3 env Sample.world0) in
  connectToServer "example.com" "80" Sample.dialPeekReset w' = (5, emit (EvPeek 5) w').
Proof.
  eapply (keep_alive_socket_is_reused Sample.getExample 3
            (Sample.getEnv [RecvData Sample.partialResponse; RecvError ECONNRESET])
            Sample.world0 5 "80" Sample.requestSent (ByRecv (-1))).
  - vm_compute. reflexivity.
  - vm_compute. reflexivity.
  - vm_compute. reflexivity.
  - reflexivity.
  - vm_compute. discriminate.
Defined.

(** ** Error responses, read back *)

Lemma occurs_LF_numeral (d : Decimal.uint) :
  occurs LF (NilEmpty.string_of_uint d) = false.
Proof.
  induction d as [|d IH|d IH|d IH|d IH|d IH|d IH|d IH|d IH|d IH|d IH];
    [reflexivity | exact IH ..].
Qed.

Lemma occurs_LF_to_string (z : Z) : occurs LF (to_string z) = false.
Proof.
  unfold to_string.
  assert (H : forall d, occurs LF (NilZero.string_of_uint d) = false).
  { intros d. unfold NilZero.string_of_uint.
    pose proof (occurs_LF_numeral d). now destruct d. }
  destruct (Z.to_int z) as [d|d]; cbn [NilZero.string_of_int]; [apply H|].
  cbn [occurs]. now rewrite H.
Qed.

Lemma splitLines_single (s : string) : occurs LF s = false -> splitLines s = [s].
Proof.
  induction s as [|c s IH]; [reflexivity|].
  cbn [occurs]. intros H. apply orb_false_elim in H as [_ H].
  cbn [splitLines]. rewrite (IH H).
  destruct s as [|d s]; [reflexivity|].
  cbn [occurs] in H. apply orb_false_elim in H as [Hd _].
  rewrite Ascii.eqb_sym in Hd. now rewrite Hd, andb_false_r.
Qed.

(** X21: every error response is framed right.  For every status code and
    every status text without line feed, the bytes [sendErrorResponse]
    writes read back as the status line, the three headers, an empty line
    and the body, and the numeral in [Content-Length] converts back to the
    number of bytes of that body. *)
Theorem errorResponse_is_well_framed (statusCode : Z) (statusText : string) :
  let body :=
    "<html><body><h1>" ++ to_string statusCode ++ " " ++ statusText
    ++ "</h1></body></html>" in
  occurs LF statusText = false ->
  (N.of_nat (String.length body) <= ULONG_MAX)%N ->
  splitLines (errorResponse statusCode statusText)
  = [ "HTTP/1.1 " ++ to_string statusCode ++ " " ++ statusText;
      "Content-Type: text/html";
      "Connection: close";
      "Content-Length: " ++ to_string (Str.size body);
      EmptyString;
      body ]
  /\ stoul (to_string (Str.size body)) = StoulValue (N.of_nat (String.length body)).
Proof.
  cbv zeta. intros Htext Hmax.
  set (body := "<html><body><h1>" ++ to_string statusCode ++ " " ++ statusText
               ++ "</h1></body></html>") in *.
  set (line1 := "HTTP/1.1 " ++ to_string statusCode ++ " " ++ statusText).
  set (line4 := "Content-Length: " ++ to_string (Str.size body)).
  assert (Hshape : errorResponse statusCode statusText
                   = line1 ++ CRLF ++ "Content-Type: text/html" ++ CRLF
                     ++ "Connection: close" ++ CRLF ++ line4 ++ CRLF
                     ++ EmptyString ++ CRLF ++ body).
  { unfold errorResponse. fold body. subst line1 line4.
    rewrite !append_assoc. reflexivity. }
  split.
  - rewrite Hshape.
    rewrite (splitLines_line line1).
    2:{ subst line1. now rewrite !occurs_append, occurs_LF_to_string, Htext. }
    rewrite (splitLines_line "Content-Type: text/html") by reflexivity.
    rewrite (splitLines_line "Connection: close") by reflexivity.
    rewrite (splitLines_line line4).
    2:{ subst line4. now rewrite occurs_append, occurs_LF_to_string. }
    rewrite (splitLines_line EmptyString) by reflexivity.
    rewrite splitLines_single; [reflexivity|].
    subst body. now rewrite !occurs_append, occurs_LF_to_string, Htext.
  - unfold Str.size. rewrite <- nat_N_Z.
    pose proof (stoul_to_string (N.of_nat (String.length body)) EmptyString eq_refl) as H.
    rewrite append_nil_r in H. rewrite H. unfold stoulOf.
    assert (Hle : (ULONG_MAX <? N.of_nat (String.length body))%N = false)
      by (apply N.ltb_ge; lia).
    now rewrite Hle.
Qed.

Lemma errorResponse_is_well_framed_witness :
  splitLines (errorResponse 502 "Bad Gateway")
  = [ "HTTP/1.1 " ++ to_string 502 ++ " " ++ "Bad Gateway";
      "Content-Type: text/html";
      "Connection: close";
      "Content-Length: "
      ++ to_string (Str.size ("<html><body><h1>" ++ to_string 502 ++ " " ++ "Bad Gateway"
                              ++ "</h1></body></html>"));
      EmptyString;
      "<html><body><h1>" ++ to_string 502 ++ " " ++ "Bad Gateway" ++ "</h1></body></html>" ]
  /\ stoul (to_string (Str.size ("<html><body><h1>" ++ to_string 502 ++ " " ++ "Bad Gateway"
                                 ++ "</h1></body></html>")))
     = StoulValue (N.of_nat (String.length
                               ("<html><body><h1>" ++ to_string 502 ++ " " ++ "Bad Gateway"
                                ++ "</h1></body></html>"))).
Proof.
  apply (errorResponse_is_well_framed 502 "Bad Gateway").
  - reflexivity.
  - vm_compute. discriminate.
Defined.

(** ** GET and POST: the client socket and the pool *)

Lemma eventsBetween_emits (w w1 : World) (evs more : list Event) :
  eventsBetween w w1 evs -> eventsBetween w (emits more w1) (evs ++ more)%list.
Proof. unfold eventsBetween, emits. cbn. intros ->. now rewrite List.app_assoc. Qed.

Lemma closesSocket_sends (fd client : Z) (payloads : list string) :
  closesSocket fd (map (EvSend client) payloads) = false.
Proof. apply noClose_closesSocket, noClose_sends. Qed.

(** The dialer only ever takes entries away from the pool. *)
Lemma connectToServer_pool_shrinks (host port : string) (env : DialEnv) (w : World)
    (key : string) (fd : Z) :
  keepAliveConnections (snd (connectToServer host port env w)) !! key = Some fd ->
  keepAliveConnections w !! key = Some fd.
Proof.
  assert (Hfresh : forall w0,
            keepAliveConnections (snd (freshConnect host port env w0))
            = keepAliveConnections w0).
  { intros w0. destruct (freshConnect_result host port env w0) as (evs & -> & _).
    reflexivity. }
  unfold connectToServer, getKeepAliveConnection.
  destruct (keepAliveConnections w !! pool_key host port) as [old|].
  - destruct (0 <? old); [|now rewrite Hfresh].
    destruct (peek_ret env =? 0); [|auto].
    rewrite Hfresh. unfold removeKeepAliveConnection. cbn [keepAliveConnections].
    intros H. apply lookup_delete_Some in H. tauto.
  - change (0 <? -1) with false. cbv iota. now rewrite Hfresh.
Qed.

(** The response part closes the upstream socket or the socket it
    displaces from the pool, and nothing else. *)
Lemma forwardResponse_spares (host port : string) (fd clientSocket other : Z)
    (sr : nat -> Z) (reads : list RecvResult) (w : World) :
  fd <> other ->
  keepAliveConnections w !! pool_key host port <> Some other ->
  exists evs,
    eventsBetween w (snd (forwardResponse host port fd clientSocket sr reads w)) evs
    /\ closesSocket other evs = false.
Proof.
  intros Hfd Hpool.
  assert (Hne : (fd =? other) = false) by now apply Z.eqb_neq.
  unfold forwardResponse.
  pose proof (responseLoop_forwards clientSocket sr reads initialResponseState w) as H.
  destruct (responseLoop clientSocket sr reads initialResponseState w)
    as [how st w' unread|ex w'|st w'].
  - destruct H as (consumed & payloads & _ & -> & _). cbn [snd].
    unfold finishExchange. destruct (negb (keepAliveServer st)).
    + eexists. split; [apply eventsBetween_emit, emits_between|].
      rewrite closesSocket_app, closesSocket_sends. cbn. now rewrite Hne.
    + eexists. split.
      * unfold eventsBetween. rewrite save_trace. cbn [emits trace keepAliveConnections].
        rewrite <- List.app_assoc. reflexivity.
      * rewrite closesSocket_app, closesSocket_sends.
        destruct (keepAliveConnections w !! pool_key host port) as [old|]; [|reflexivity].
        assert (Hold : (old =? other) = false) by (apply Z.eqb_neq; congruence).
        cbn. now rewrite Hold.
  - destruct H as (_ & payloads & ->). eexists.
    split; [apply emits_between | apply closesSocket_sends].
  - destruct H as (payloads & -> & _). eexists.
    split; [apply emits_between | apply closesSocket_sends].
Qed.

(** X22: the GET handler and the POST handler never close the client
    socket, on any path, the client's descriptor being neither the one
    pooled for the authority nor the one a fresh [socket] returns: what
    they close is the upstream socket, a stale pooled socket, or the socket
    that a save displaces from the pool. *)
Theorem get_and_post_never_close_client (req : HttpRequest) (clientSocket : Z) (w : World) :
  (forall env : GetEnv,
      keepAliveConnections w !! pool_key (host req) (port req) <> Some clientSocket ->
      socket_ret (get_dial env) <> clientSocket ->
      exists evs,
        eventsBetween w (snd (forwardGet req clientSocket env w)) evs
        /\ closesSocket clientSocket evs = false)
  /\ (forall env : PostEnv,
      keepAliveConnections w !! pool_key (host req) (postPort req) <> Some clientSocket ->
      socket_ret (post_dial env) <> clientSocket ->
      exists evs,
        eventsBetween w (snd (forwardPost req clientSocket env w)) evs
        /\ closesSocket clientSocket evs = false).
Proof.
  assert (Hjoin : forall (w1 w2 : World) (evs0 evs1 : list Event),
            eventsBetween w w1 evs0 -> closesSocket clientSocket evs0 = false ->
            (exists evs, eventsBetween w1 w2 evs /\ closesSocket clientSocket evs = false) ->
            exists evs, eventsBetween w w2 evs /\ closesSocket clientSocket evs = false).
  { intros w1 w2 evs0 _ H0 Hc0 (evs & H & Hc). exists (evs0 ++ evs)%list.
    split; [now apply (eventsBetween_trans w w1) | now rewrite closesSocket_app, Hc0, Hc]. }
  assert (Hlist : forall (w1 : World) (evs : list Event),
            closesSocket clientSocket evs = false ->
            exists evs', eventsBetween w1 (emits evs w1) evs'
                         /\ closesSocket clientSocket evs' = false).
  { intros w1 evs Hc. exists evs. split; [apply emits_between | exact Hc]. }
  split; intros env Hpool Hsock.
  - destruct (connectToServer_spares (host req) (port req) (get_dial env) w
                clientSocket Hpool Hsock) as ((evs0 & H0 & Hc0) & Hfd).
    pose proof (connectToServer_pool_shrinks (host req) (port req) (get_dial env) w
                  (pool_key (host req) (port req)) clientSocket) as Hshrink.
    unfold forwardGet, getRequest.
    destruct (connectToServer (host req) (port req) (get_dial env) w) as [fd w1].
    cbn [fst snd] in *. apply (Hjoin w1 _ evs0 [] H0 Hc0).
    destruct (fd <? 0) eqn:Hneg.
    { unfold sendErrorResponse. rewrite emit_as_emits. now apply Hlist. }
    apply Z.ltb_ge in Hneg. specialize (Hfd Hneg).
    assert (Hne : (fd =? clientSocket) = false) by now apply Z.eqb_neq.
    destruct (get_send_request_ret env <? 0).
    { unfold sendErrorResponse, sys_close. rewrite !emit_as_emits, !emits_emits.
      apply Hlist. cbn. now rewrite Hne. }
    rewrite emit_as_emits.
    destruct (forwardResponse_spares (host req) (port req) fd clientSocket clientSocket
                (get_client_send_ret env) (get_server_reads env)
                (emits [EvSend fd (buildForwardRequest req)] w1) Hfd)
      as (evs & He & Hc); [cbn [emits keepAliveConnections]; auto|].
    exists ([EvSend fd (buildForwardRequest req)] ++ evs)%list.
    split; [exact (eventsBetween_trans _ _ _ _ _ (emits_between _ w1) He)|].
    now rewrite closesSocket_app, Hc.
  - destruct (connectToServer_spares (host req) (postPort req) (post_dial env) w
                clientSocket Hpool Hsock) as ((evs0 & H0 & Hc0) & Hfd).
    pose proof (connectToServer_pool_shrinks (host req) (postPort req) (post_dial env) w
                  (pool_key (host req) (postPort req)) clientSocket) as Hshrink.
    unfold forwardPost, postRequest.
    destruct (connectToServer (host req) (postPort req) (post_dial env) w) as [fd w1].
    cbn [fst snd] in *. apply (Hjoin w1 _ evs0 [] H0 Hc0).
    destruct (fd <? 0) eqn:Hneg.
    { unfold sendErrorResponse. rewrite emit_as_emits. now apply Hlist. }
    apply Z.ltb_ge in Hneg. specialize (Hfd Hneg).
    assert (Hne : (fd =? clientSocket) = false) by now apply Z.eqb_neq.
    assert (Hbad : exists evs,
              eventsBetween w1
                (sendErrorResponse clientSocket 400 "Bad Request" (sys_close fd w1)) evs
              /\ closesSocket clientSocket evs = false).
    { unfold sendErrorResponse, sys_close. rewrite !emit_as_emits, !emits_emits.
      apply Hlist. cbn. now rewrite Hne. }
    destruct (match headers_find (headers req) "Content-Length" with
              | Some value => stoul value
              | None => StoulValue 0%N
              end) as [len|ex]; [|exact Hbad].
    destruct (_ && _ && _)%bool; [exact Hbad|].
    rewrite emit_as_emits.
    set (sent := [EvSend fd (buildForwardRequest req ++ body req)]).
    destruct (post_send_request_ret env <? 0).
    { unfold sendErrorResponse, sys_close. rewrite !emit_as_emits, !emits_emits.
      apply Hlist. cbn. now rewrite Hne. }
    assert (Hresp : forall more, noClose more = true ->
              exists evs,
                eventsBetween w1
                  (snd (forwardResponse (host req) (postPort req) fd clientSocket
                          (post_client_send_ret env) (post_server_reads env)
                          (emits more (emits sent w1)))) evs
                /\ closesSocket clientSocket evs = false).
    { intros more Hn. rewrite emits_emits.
      destruct (forwardResponse_spares (host req) (postPort req) fd clientSocket
                  clientSocket (post_client_send_ret env) (post_server_reads env)
                  (emits (sent ++ more) w1) Hfd)
        as (evs & He & Hc); [cbn [emits keepAliveConnections]; auto|].
      exists ((sent ++ more) ++ evs)%list.
      split; [exact (eventsBetween_trans _ _ _ _ _ (emits_between _ w1) He)|].
      rewrite !closesSocket_app, Hc, (noClose_closesSocket _ _ Hn). reflexivity. }
    destruct (_ && _)%bool.
    + match goal with
      | |- context [forwardRequestChunks ?a ?b ?c ?d ?e] =>
          pose proof (forwardRequestChunks_closes a b c d e) as Hch;
          destruct (forwardRequestChunks a b c d e) as [w'|w'|w']
      end.
      * destruct Hch as (more & -> & Hn). now apply Hresp.
      * destruct Hch as (w1' & (more & -> & Hn) & ->). cbn [snd].
        unfold sys_close. rewrite emit_as_emits, !emits_emits. apply Hlist.
        rewrite !closesSocket_app, (noClose_closesSocket _ _ Hn). cbn. now rewrite Hne.
      * destruct Hch as (more & -> & Hn). cbn [snd]. rewrite emits_emits.
        apply Hlist. now rewrite closesSocket_app, (noClose_closesSocket _ _ Hn).
    + rewrite <- (emits_nil (emits sent w1)). now apply Hresp.
Qed.

Lemma get_and_post_never_close_client_witness :
  exists evs,
    eventsBetween Sample.world0
      (snd (forwardGet Sample.getExample 3
              (Sample.getEnv [RecvData Sample.partialResponse; RecvEOF]) Sample.world0))
      evs
    /\ closesSocket 3 evs = false.
Proof.
  apply (proj1 (get_and_post_never_close_client Sample.getExample 3 Sample.world0)
           (Sample.getEnv [RecvData Sample.partialResponse; RecvEOF])).
  - vm_compute. discriminate.
  - vm_compute. discriminate.
Defined.

Lemma getRequest_sent (req : HttpRequest) (clientSocket : Z) (env : GetEnv) (w : World)
    (fd : Z) (port' : string) (w1 : World) :
  getRequest req clientSocket env w = RequestSent fd port' w1 ->
  port' = port req
  /\ fd = fst (connectToServer (host req) (port req) (get_dial env) w)
  /\ silent (snd (connectToServer (host req) (port req) (get_dial env) w)) w1.
Proof.
  unfold getRequest.
  destruct (connectToServer (host req) (port req) (get_dial env) w) as [fd0 w0].
  destruct (fd0 <? 0); [discriminate|].
  destruct (get_send_request_ret env <? 0); [discriminate|].
  intros [= <- <- <-]. cbn [fst snd]. split; [reflexivity|]. split; [reflexivity|].
  now apply silent_emit.
Qed.

Lemma postRequest_sent (req : HttpRequest) (clientSocket : Z) (env : PostEnv) (w : World)
    (fd : Z) (port' : string) (w1 : World) :
  postRequest req clientSocket env w = RequestSent fd port' w1 ->
  port' = postPort req
  /\ fd = fst (connectToServer (host req) (postPort req) (post_dial env) w)
  /\ silent (snd (connectToServer (host req) (postPort req) (post_dial env) w)) w1.
Proof.
  unfold postRequest.
  destruct (connectToServer (host req) (postPort req) (post_dial env) w) as [fd0 w0].
  destruct (fd0 <? 0); [discriminate|].
  destruct (match headers_find (headers req) "Content-Length" with
            | Some value => stoul value
            | None => StoulValue 0%N
            end) as [len|ex]; [|discriminate].
  destruct (_ && _ && _)%bool; [discriminate|].
  destruct (post_send_request_ret env <? 0); [discriminate|].
  assert (H1 : silent w0 (emit (EvSend fd0 (buildForwardRequest req ++ body req)) w0))
    by now apply silent_emit.
  destruct (_ && _)%bool.
  - match goal with
    | |- context [forwardRequestChunks ?a ?b ?c ?d ?e] =>
        pose proof (forwardRequestChunks_closes a b c d e) as Hch;
        destruct (forwardRequestChunks a b c d e) as [w'|w'|w']
    end; try discriminate.
    intros [= <- <- <-]. cbn [fst snd]. split; [reflexivity|]. split; [reflexivity|].
    exact (silent_trans _ _ _ H1 Hch).
  - intros [= <- <- <-]. cbn [fst snd]. auto.
Qed.

Lemma connectToServer_pool_absent (host port : string) (env : DialEnv) (w : World) :
  keepAliveConnections w !! pool_key host port = None ->
  keepAliveConnections (snd (connectToServer host port env w)) = keepAliveConnections w.
Proof.
  intros H. unfold connectToServer, getKeepAliveConnection. rewrite H.
  change (0 <? -1) with false. cbv iota.
  destruct (freshConnect_result host port env w) as (evs & -> & _). reflexivity.
Qed.

(** X23: a GET or POST exchange on an authority that had no pool entry,
    whose upstream advertises [Connection: keep-alive]: when the response
    loop is left the handler returns with the upstream socket stored under
    the authority's key, and between the dial and the return it has closed
    nothing, so the socket it pools is open. *)
Theorem fresh_keep_alive_socket_is_pooled_open :
  (forall (req : HttpRequest) (clientSocket : Z) (env : GetEnv) (w : World)
          (serverSocket : Z) (port' : string) (w1 : World)
          (how : LoopExit) (st : ResponseState) (w2 : World) (unread : list RecvResult),
      keepAliveConnections w !! pool_key (host req) (port req) = None ->
      getRequest req clientSocket env w = RequestSent serverSocket port' w1 ->
      responseLoop clientSocket (get_client_send_ret env) (get_server_reads env)
        initialResponseState w1 = LoopDone how st w2 unread ->
      advertisedKeepAlive (get_server_reads env) = true ->
      forwardGet req clientSocket env w
      = (Returned,
         mkWorld (<[pool_key (host req) (port req) := serverSocket]>
                    (keepAliveConnections w))
           (trace w2))
      /\ silent (snd (connectToServer (host req) (port req) (get_dial env) w)) w2)
  /\ (forall (req : HttpRequest) (clientSocket : Z) (env : PostEnv) (w : World)
          (serverSocket : Z) (port' : string) (w1 : World)
          (how : LoopExit) (st : ResponseState) (w2 : World) (unread : list RecvResult),
      keepAliveConnections w !! pool_key (host req) (postPort req) = None ->
      postRequest req clientSocket env w = RequestSent serverSocket port' w1 ->
      responseLoop clientSocket (post_client_send_ret env) (post_server_reads env)
        initialResponseState w1 = LoopDone how st w2 unread ->
      advertisedKeepAlive (post_server_reads env) = true ->
      forwardPost req clientSocket env w
      = (Returned,
         mkWorld (<[pool_key (host req) (postPort req) := serverSocket]>
                    (keepAliveConnections w))
           (trace w2))
      /\ silent (snd (connectToServer (host req) (postPort req) (post_dial env) w)) w2).
Proof.
  assert (Hend : forall host port fd (st : ResponseState) (w0 w1 w2 : World) clientSocket sr
                        reads how unread,
            keepAliveConnections w0 !! pool_key host port = None ->
            silent w0 w1 ->
            responseLoop clientSocket sr reads initialResponseState w1
            = LoopDone how st w2 unread ->
            advertisedKeepAlive reads = true ->
            finishExchange host port fd st w2
            = mkWorld (<[pool_key host port := fd]> (keepAliveConnections w0)) (trace w2)
            /\ silent w0 w2).
  { intros host port fd st w0 w1 w2 clientSocket sr reads how unread Hnone Hs Hloop Hka.
    pose proof (responseLoop_forwards clientSocket sr reads initialResponseState w1) as H.
    rewrite Hloop in H. destruct H as (consumed & payloads & _ & -> & _).
    assert (Hs2 : silent w0 (emits (map (EvSend clientSocket) payloads) w1)).
    { apply (silent_trans _ w1); [exact Hs|].
      eexists. split; [reflexivity | apply noClose_sends]. }
    split; [|exact Hs2].
    destruct Hs as (evs & -> & _).
    unfold finishExchange. rewrite (responseLoop_advertised _ _ _ _ _ _ _ _ Hloop), Hka.
    cbn [negb]. unfold saveKeepAliveConnection. cbn [emits keepAliveConnections].
    now rewrite Hnone. }
  split; intros req clientSocket env w serverSocket port' w1 how st w2 unread
                Hnone Hreq Hloop Hka.
  - destruct (getRequest_sent _ _ _ _ _ _ _ Hreq) as (-> & _ & Hs).
    unfold forwardGet, forwardResponse. rewrite Hreq, Hloop.
    rewrite <- (connectToServer_pool_absent _ _ (get_dial env) _ Hnone) in Hnone |- *.
    destruct (Hend (host req) (port req) serverSocket st _ w1 w2 clientSocket _ _ how unread
                Hnone Hs Hloop Hka) as [-> Hs2].
    auto.
  - destruct (postRequest_sent _ _ _ _ _ _ _ Hreq) as (-> & _ & Hs).
    unfold forwardPost, forwardResponse. rewrite Hreq, Hloop.
    rewrite <- (connectToServer_pool_absent _ _ (post_dial env) _ Hnone) in Hnone |- *.
    destruct (Hend (host req) (postPort req) serverSocket st _ w1 w2 clientSocket _ _ how
                unread Hnone Hs Hloop Hka) as [-> Hs2].
    auto.
Qed.

Lemma fresh_keep_alive_socket_is_pooled_open_witness :
  let env := Sample.getEnv [RecvData Sample.partialResponse; RecvEOF] in
  let w2 := emit (EvSend 3 Sample.partialResponse) Sample.requestSent in
  forwardGet Sample.getExample 3 env Sample.world0
  = (Returned,
     mkWorld (<[pool_key "example.com" "80" := 5]> (keepAliveConnections Sample.world0))
       (trace w2))
  /\ silent (snd (connectToServer "example.com" "80" Sample.dialFresh Sample.world0)) w2.
Proof.
  eapply (proj1 fresh_keep_alive_socket_is_pooled_open Sample.getExample 3
            (Sample.getEnv [RecvData Sample.partialResponse; RecvEOF]) Sample.world0
            5 "80" Sample.requestSent (ByRecv 0)).
  - reflexivity.
  - vm_compute. reflexivity.
  - vm_compute. reflexivity.
  - vm_compute. reflexivity.
Defined.

(** ** CONNECT: the client socket, when its number is not the upstream's *)

(** X24: for every CONNECT request, the client's descriptor being neither
    the one pooled for the authority nor the one a fresh [socket] returns,
    nothing the handler does closes the client socket; and once the dial has
    succeeded, whenever the handler returns, the last thing it did was to
    close the upstream socket, and it closed nothing else after the dial.
    While the tunnel is still running nothing is closed. *)
Theorem forwardConnect_closes_upstream_only (req : HttpRequest) (clientSocket : Z)
    (env : ConnectEnv) (w : World) :
  keepAliveConnections w !! pool_key (host req) (port req) <> Some clientSocket ->
  socket_ret (connect_dial env) <> clientSocket ->
  let dialled := connectToServer (host req) (port req) (connect_dial env) w in
  let result := forwardConnect req clientSocket env w in
  (exists evs,
      eventsBetween w (snd result) evs /\ closesSocket clientSocket evs = false)
  /\ (0 <= fst dialled ->
      match fst result with
      | Returned =>
          exists before,
            eventsBetween (snd dialled) (snd result)
              (before ++ [EvClose (fst dialled)])%list
            /\ noClose before = true
      | Blocked => quiet (snd dialled) (snd result)
      | Threw _ => False
      end).
Proof.
  intros Hpool Hsock. cbv zeta.
  destruct (connectToServer_spares (host req) (port req) (connect_dial env) w
              clientSocket Hpool Hsock) as ((evs0 & H0 & Hc0) & Hfd).
  unfold forwardConnect.
  destruct (connectToServer (host req) (port req) (connect_dial env) w) as [fd w1].
  cbn [fst snd] in H0, Hfd |- *.
  destruct (fd <? 0) eqn:Hneg.
  { cbn [fst snd]. split.
    - eexists. split; [apply eventsBetween_emit, H0|].
      now rewrite closesSocket_app, Hc0.
    - apply Z.ltb_lt in Hneg. lia. }
  apply Z.ltb_ge in Hneg. specialize (Hfd Hneg).
  assert (Hne : (fd =? clientSocket) = false) by now apply Z.eqb_neq.
  destruct (connect_send_established_ret env <? 0).
  { cbn [fst snd]. unfold sys_close. split.
    - eexists. split; [do 2 apply eventsBetween_emit; exact H0|].
      rewrite !closesSocket_app, Hc0. cbn. now rewrite Hne.
    - intros _. exists [EvSend clientSocket connectionEstablished].
      split; [|reflexivity].
      apply eventsBetween_emit. apply (eventsBetween_emit w1 w1 []).
      apply eventsBetween_refl. }
  set (w3 := emit (EvSetNonblocking fd) _).
  assert (H3 : eventsBetween w1 w3
                 [EvSend clientSocket connectionEstablished;
                  EvSetNonblocking clientSocket; EvSetNonblocking fd]).
  { subst w3. unfold eventsBetween, emit. cbn [trace].
    now rewrite <- !List.app_assoc. }
  destruct (tunnelLoop_quiet clientSocket fd (connect_rounds env) w3) as (evsT & HT & NT).
  pose proof (eventsBetween_trans _ _ _ _ _ H3 HT) as H13.
  pose proof (eventsBetween_trans _ _ _ _ _ H0 H13) as H03.
  destruct (tunnelLoop clientSocket fd (connect_rounds env) w3) as [w4|w4];
    cbn [tunnelWorld] in *; cbn [fst snd]; unfold sys_close.
  - split.
    + eexists. split; [apply eventsBetween_emit, H03|].
      rewrite !closesSocket_app, Hc0, (noClose_closesSocket _ _ NT).
      cbn. now rewrite Hne.
    + intros _. eexists. split; [apply eventsBetween_emit, H13|].
      now rewrite noClose_app, NT.
  - split.
    + eexists. split; [exact H03|].
      now rewrite !closesSocket_app, Hc0, (noClose_closesSocket _ _ NT).
    + intros _. eexists. split; [exact H13|]. now rewrite noClose_app, NT.
Qed.

Lemma forwardConnect_closes_upstream_only_witness :
  let env := mkConnectEnv Sample.dialFresh 1 Sample.tunnelRounds in
  let dialled := connectToServer "example.com" "443" Sample.dialFresh Sample.world0 in
  let result := forwardConnect Sample.connectExample 3 env Sample.world0 in
  (exists evs,
      eventsBetween Sample.world0 (snd result) evs /\ closesSocket 3 evs = false)
  /\ (0 <= fst dialled ->
      match fst result with
      | Returned =>
          exists before,
            eventsBetween (snd dialled) (snd result)
              (before ++ [EvClose (fst dialled)])%list
            /\ noClose before = true
      | Blocked => quiet (snd dialled) (snd result)
      | Threw _ => False
      end).
Proof.
  apply (forwardConnect_closes_upstream_only Sample.connectExample 3
           (mkConnectEnv Sample.dialFresh 1 Sample.tunnelRounds) Sample.world0).
  - vm_compute. discriminate.
  - vm_compute. discriminate.
Defined.

(** The handler of the sample tunnel does return, with descriptor 5 closed
    last and descriptor 3 left open. *)
Lemma forwardConnect_sample_returns :
  let result :=
    forwardConnect Sample.connectExample 3
      (mkConnectEnv Sample.dialFresh 1 Sample.tunnelRounds) Sample.world0 in
  fst result = Returned
  /\ List.last (trace (snd result)) (EvPeek 0) = EvClose 5
  /\ closesSocket 3 (trace (snd result)) = false.
Proof. vm_compute. repeat split; reflexivity. Qed.
